(** * claude-voice: streaming sentence segmentation, resilience primitives,
    event bus, audio validation and pipeline orchestration

  A shallow embedding of the Python sources under [src/src] together with
  the properties stated about them.  Python [str] values are sequences of
  code points; the embedding keeps the code points 0..255 (one [ascii]
  each) and follows CPython's classification of exactly those code points
  ([str.isspace], [str.isupper], [str.lower], the [re] classes [\d] and
  [\s]).  Python [int] is [Z]; Python [float] quantities (delays, token
  counts, clock readings, durations, sizes in MB, samples) are rationals
  ([Q]).  Where what the code does depends on the rounding of a float
  operation (the quantization of samples, the mean of a frame) the
  operation is a parameter; the overflow of the power in the backoff delay
  is modelled; elsewhere arithmetic is exact, and infinities and NaN are
  outside the model.  Coroutines are run to
  completion; an async generator is the list of what it yields, with the
  exception that ends it, if one does. *)

From Stdlib Require Import List Ascii String ZArith NArith QArith Qpower Qabs.
From Stdlib Require Import Qround.
From Stdlib Require Import DecimalString Bool Lia Lqa.
Import ListNotations.

Set Implicit Arguments.

(* ------------------------------------------------------------------ *)
(** ** Python text primitives *)

Module Text.

Definition str := list ascii.

(** A string literal of the source as a sequence of code points. *)
Definition py (s : string) : str := list_ascii_of_string s.

Definition code (c : ascii) : N := N_of_ascii c.

Definition between (lo hi : N) (c : ascii) : bool :=
  (lo <=? code c)%N && (code c <=? hi)%N.

(** [str.isspace] on one code point below 256: TAB..CR, FS..US, SPACE,
    NEL (0x85) and NBSP (0xA0). *)
Definition isspace (c : ascii) : bool :=
  between 9 13 c || between 28 32 c || (code c =? 133)%N || (code c =? 160)%N.

(** [str.isupper] on one code point below 256: A-Z and the Latin-1
    capitals 0xC0-0xDE except the multiplication sign 0xD7. *)
Definition isupper (c : ascii) : bool :=
  between 65 90 c || between 192 214 c || between 216 222 c.

(** The [re] class [\d] on code points below 256. *)
Definition isdigit (c : ascii) : bool := between 48 57 c.

Definition lower_char (c : ascii) : ascii :=
  if isupper c then ascii_of_N (code c + 32) else c.

(** [str.lower] *)
Definition lower (s : str) : str := map lower_char s.

(** [str.lstrip()], [str.rstrip()], [str.strip()] *)
Fixpoint lstrip (s : str) : str :=
  match s with
  | c :: s' => if isspace c then lstrip s' else s
  | [] => []
  end.

Definition rstrip (s : str) : str := rev (lstrip (rev s)).

Definition strip (s : str) : str := rstrip (lstrip s).

Definition eqb_str (a b : str) : bool :=
  if list_eq_dec ascii_dec a b then true else false.

Definition APOSTROPHE : ascii := ascii_of_N 39.
Definition QUOTATION_MARK : ascii := ascii_of_N 34.
Definition BACKSLASH : ascii := ascii_of_N 92.

(** [str.isprintable] on one code point below 256: not a control
    character (0x00-0x1F, 0x7F-0x9F), not NBSP (0xA0), not the soft hyphen
    (0xAD); the space is printable. *)
Definition isprintable (c : ascii) : bool :=
  negb (between 0 31 c || between 127 160 c || (code c =? 173)%N).

(** One lower-case hexadecimal digit. *)
Definition hex_digit (n : N) : ascii :=
  if (n <? 10)%N then ascii_of_N (48 + n) else ascii_of_N (87 + n).

(** What [repr] writes for one code point inside the quotes [quote]. *)
Definition repr_char (quote c : ascii) : str :=
  if Ascii.eqb c quote || Ascii.eqb c BACKSLASH then [BACKSLASH; c]
  else if (code c =? 9)%N then [BACKSLASH; "t"%char]
  else if (code c =? 10)%N then [BACKSLASH; "n"%char]
  else if (code c =? 13)%N then [BACKSLASH; "r"%char]
  else if isprintable c then [c]
  else [BACKSLASH; "x"%char;
        hex_digit (code c / 16); hex_digit (code c mod 16)].

(** [repr(s)] of a string: double quotes when the string holds an
    apostrophe and no double quote, single quotes otherwise; inside them
    the quote and the backslash are escaped and what is not printable is
    written as an escape. *)
Definition py_repr (s : str) : str :=
  let quote :=
    if existsb (Ascii.eqb APOSTROPHE) s
       && negb (existsb (Ascii.eqb QUOTATION_MARK) s)
    then QUOTATION_MARK else APOSTROPHE in
  quote :: flat_map (repr_char quote) s ++ [quote].

(** [s.startswith(p)] and [s.endswith(p)] *)
Fixpoint startswith (s p : str) : bool :=
  match p, s with
  | [], _ => true
  | _ :: _, [] => false
  | a :: p', b :: s' => Ascii.eqb a b && startswith s' p'
  end.

Definition endswith (s p : str) : bool := startswith (rev s) (rev p).

(** [s.count(c)] for a one-character needle *)
Definition count (c : ascii) (s : str) : nat :=
  List.length (filter (Ascii.eqb c) s).

(** [len(s)] as a Python int *)
Definition len (s : str) : Z := Z.of_nat (List.length s).

(** [s[:n]] and [s[n:]] for a non-negative [n] *)
Definition take (n : nat) (s : str) : str := firstn n s.
Definition drop (n : nat) (s : str) : str := skipn n s.

(** [" ".join(parts)] *)
Fixpoint join_space (parts : list str) : str :=
  match parts with
  | [] => []
  | [p] => p
  | p :: rest => p ++ " "%char :: join_space rest
  end.

(** The characters of [s] that are not whitespace, in order. *)
Definition erase_ws (s : str) : str := filter (fun c => negb (isspace c)) s.

(** [a] can be obtained from [b] by deleting characters: nothing added,
    nothing repeated, nothing moved. *)
Inductive subseq : str -> str -> Prop :=
| subseq_nil : subseq [] []
| subseq_keep c a b : subseq a b -> subseq (c :: a) (c :: b)
| subseq_skip c a b : subseq a b -> subseq a (c :: b).

(** One token per character. *)
Definition chars (s : str) : list str := map (fun c => [c]) s.

(** [sentences[-1]] (with a default for the empty list) and
    [sentences[:-1]]. *)
Definition last_or (d : str) (l : list str) : str := last l d.
Definition but_last (l : list str) : list str := removelast l.

End Text.

Import Text.

(** A raised Python exception, as far as the code inspects it:
    [type(e).__name__], [str(e)] and whether it is an instance of
    [Exception] (cancellation and interpreter exits are not). *)
Record Exn := mkExn {
  exn_type : str;
  exn_str : str;
  exn_is_exception : bool
}.

(** What a call gives back: a value or a raised exception. *)
Inductive Outcome (A : Type) : Type :=
| Returned (value : A)
| Raised (e : Exn).
Arguments Returned {A} value.
Arguments Raised {A} e.

(* ------------------------------------------------------------------ *)
(** ** src/core/events.py *)

Module Events.

Inductive EventType :=
| AUDIO_CAPTURE_START | AUDIO_CAPTURE_COMPLETE
| STT_START | STT_COMPLETE | STT_ERROR
| LLM_QUERY_START | LLM_TOKEN_RECEIVED | LLM_COMPLETE | LLM_ERROR
| SENTENCE_READY
| TTS_START | TTS_COMPLETE | TTS_ERROR
| PIPELINE_START | PIPELINE_COMPLETE | PIPELINE_ERROR.

(** The members with their string values, in declaration order. *)
Definition members : list (EventType * string) :=
  [(AUDIO_CAPTURE_START, "audio_capture_start");
   (AUDIO_CAPTURE_COMPLETE, "audio_capture_complete");
   (STT_START, "stt_start"); (STT_COMPLETE, "stt_complete");
   (STT_ERROR, "stt_error");
   (LLM_QUERY_START, "llm_query_start");
   (LLM_TOKEN_RECEIVED, "llm_token_received");
   (LLM_COMPLETE, "llm_complete"); (LLM_ERROR, "llm_error");
   (SENTENCE_READY, "sentence_ready");
   (TTS_START, "tts_start"); (TTS_COMPLETE, "tts_complete");
   (TTS_ERROR, "tts_error");
   (PIPELINE_START, "pipeline_start");
   (PIPELINE_COMPLETE, "pipeline_complete");
   (PIPELINE_ERROR, "pipeline_error")]%string.

(** [EventType(value)]: the member with that value, if any. *)
Fixpoint by_value (table : list (EventType * string)) (value : string)
  : option EventType :=
  match table with
  | [] => None
  | (member, v) :: rest =>
      if String.eqb v value then Some member else by_value rest value
  end.

(** The values a payload dictionary holds in this code base. *)
Inductive Value :=
| VStr (s : str)
| VInt (n : Z)
| VBool (b : bool).

(** A payload [dict[str, Any]], keys in insertion order. *)
Definition Payload := list (string * Value).

Record PipelineEvent := mkEvent {
  timestamp : Q;
  event_type : EventType;
  data : Payload
}.

(** A registered listener: it returns normally or raises. *)
Definition Callback := PipelineEvent -> option Exn.

Record InMemoryEventObserver := mkObserver {
  events : list PipelineEvent;
  _callbacks : list Callback
}.

(** [InMemoryEventObserver()] *)
Definition new_observer : InMemoryEventObserver := mkObserver [] [].

(** [on_event] *)
Definition on_event (o : InMemoryEventObserver) (callback : Callback)
  : InMemoryEventObserver :=
  mkObserver (events o) (_callbacks o ++ [callback]).

(** The loop [for callback in self._callbacks: callback(event)]: the
    positions of the callbacks that were called, and the exception that
    ended the loop, if one did. *)
Fixpoint notify (i : nat) (callbacks : list Callback) (event : PipelineEvent)
  : list nat * option Exn :=
  match callbacks with
  | [] => ([], None)
  | callback :: rest =>
      match callback event with
      | Some e => ([i], Some e)
      | None =>
          let '(called, r) := notify (S i) rest event in (i :: called, r)
      end
  end.

(** The [ValueError] of [EventType(value)] for a string that is no
    member's value: its message is ["%r is not a valid %s"] of the value
    and the name of the class. *)
Definition invalid_event_type (value : string) : Exn :=
  mkExn (py "ValueError")
        (py_repr (py value) ++ py " is not a valid EventType") true.

Record Emitted := mkEmitted {
  observer_after : InMemoryEventObserver;
  called : list nat;
  raised : option Exn
}.

(** The body of [emit] once the kind is an [EventType] member: build the
    event ([data or {}] turns a missing payload into the empty dictionary),
    append it, call the listeners. *)
Definition record_and_notify (now : Q) (o : InMemoryEventObserver)
  (member : EventType) (payload : option Payload) : Emitted :=
  let event := mkEvent now member
                 (match payload with Some d => d | None => [] end) in
  let o' := mkObserver (events o ++ [event]) (_callbacks o) in
  let '(called, r) := notify 0 (_callbacks o) event in
  mkEmitted o' called r.

(** [emit], with [now] the value [time.time()] returns.  The kind is an
    [EventType] member or a plain string, which [EventType(...)] converts
    or rejects with a [ValueError]. *)
Definition emit (now : Q) (o : InMemoryEventObserver)
  (kind : EventType + string) (payload : option Payload) : Emitted :=
  match kind with
  | inl member => record_and_notify now o member payload
  | inr value =>
      match by_value members value with
      | Some member => record_and_notify now o member payload
      | None => mkEmitted o [] (Some (invalid_event_type value))
      end
  end.

(** [get_events_by_type] *)
Definition EventType_eqb (a b : EventType) : bool :=
  match a, b with
  | AUDIO_CAPTURE_START, AUDIO_CAPTURE_START
  | AUDIO_CAPTURE_COMPLETE, AUDIO_CAPTURE_COMPLETE
  | STT_START, STT_START | STT_COMPLETE, STT_COMPLETE
  | STT_ERROR, STT_ERROR
  | LLM_QUERY_START, LLM_QUERY_START
  | LLM_TOKEN_RECEIVED, LLM_TOKEN_RECEIVED
  | LLM_COMPLETE, LLM_COMPLETE | LLM_ERROR, LLM_ERROR
  | SENTENCE_READY, SENTENCE_READY
  | TTS_START, TTS_START | TTS_COMPLETE, TTS_COMPLETE
  | TTS_ERROR, TTS_ERROR
  | PIPELINE_START, PIPELINE_START
  | PIPELINE_COMPLETE, PIPELINE_COMPLETE
  | PIPELINE_ERROR, PIPELINE_ERROR => true
  | _, _ => false
  end.

Definition get_events_by_type (o : InMemoryEventObserver) (t : EventType)
  : list PipelineEvent :=
  filter (fun e => EventType_eqb (event_type e) t) (events o).

(** What one [emit] leaves in the log of an observer without listeners,
    timestamps aside: the pipeline below keeps its log in this form. *)
Definition Entry := (EventType * Payload)%type.

Definition entries (o : InMemoryEventObserver) : list Entry :=
  map (fun e => (event_type e, data e)) (events o).

(** The [SENTENCE_READY] payloads of both chunkers. *)
Definition sentence_ready (sentence : str) : Entry :=
  (SENTENCE_READY,
   [("sentence", VStr (take 100 sentence)); ("length", VInt (len sentence))]
   %string).

Definition sentence_ready_final (final_sentence : str) : Entry :=
  (SENTENCE_READY,
   [("sentence", VStr (take 100 final_sentence));
    ("length", VInt (len final_sentence));
    ("final", VBool true)]%string).

End Events.

(* ------------------------------------------------------------------ *)
(** ** src/llm/chunker.py : the basic sentence chunker *)

Module Chunker.

(** [self.terminators = {".", "!", "?"}] *)
Definition terminators : list ascii := ["."; "!"; "?"]%char.

Definition is_terminator (c : ascii) : bool :=
  existsb (Ascii.eqb c) terminators.

(** [self.abbreviations], each entry with its trailing dot. *)
Definition abbreviations : list str :=
  map py ["mr."; "mrs."; "ms."; "dr."; "prof."; "sr."; "jr.";
          "i.e."; "e.g."; "etc."; "vs."; "inc."; "ltd."; "corp."]%string.

(** [_has_sentence_boundary]: some terminator occurs in the text. *)
Definition _has_sentence_boundary (text : str) : bool :=
  existsb (fun term => existsb (Ascii.eqb term) text) terminators.

(** The positions of the terminators of [text], ascending
    ([for i, char in enumerate(text)]). *)
Fixpoint positions_from (i : nat) (text : str) : list nat :=
  match text with
  | [] => []
  | c :: rest =>
      if is_terminator c then i :: positions_from (S i) rest
      else positions_from (S i) rest
  end.

(** The loop [for pos in positions] of [_extract_sentence]. *)
Fixpoint first_valid (min_sentence_length : Z) (text : str)
  (positions : list nat) : str :=
  match positions with
  | [] => []
  | pos :: more =>
      let sentence := strip (take (pos + 1) text) in
      let lower_sentence := lower sentence in
      if existsb (endswith lower_sentence) abbreviations
      then first_valid min_sentence_length text more
      else if (len sentence <? min_sentence_length)%Z
      then first_valid min_sentence_length text more
      else sentence
  end.

Definition _extract_sentence (min_sentence_length : Z) (text : str) : str :=
  first_valid min_sentence_length text (positions_from 0 text).

(** A Python string is truthy when it is not empty. *)
Definition truthy (s : str) : bool :=
  match s with [] => false | _ => true end.

(** One iteration of [async for token in token_stream] in [chunk_stream]:
    the new buffer and the sentence yielded, if any. *)
Definition on_token (min_sentence_length : Z) (buffer token : str)
  : str * option str :=
  let buffer := buffer ++ token in
  if _has_sentence_boundary buffer then
    let sentence := _extract_sentence min_sentence_length buffer in
    if truthy sentence && (min_sentence_length <=? len sentence)%Z
    then (lstrip (drop (List.length sentence) buffer), Some sentence)
    else (buffer, None)
  else (buffer, None).

(** The token loop, collecting the yields in order. *)
Fixpoint consume (min_sentence_length : Z) (buffer : str)
  (tokens : list str) : list str * str :=
  match tokens with
  | [] => ([], buffer)
  | token :: rest =>
      let '(buffer', y) := on_token min_sentence_length buffer token in
      let '(ys, final) := consume min_sentence_length buffer' rest in
      (match y with Some s => s :: ys | None => ys end, final)
  end.

(** [chunk_stream]: the sentences yielded for a finite token stream,
    including the final flush of the stripped buffer. *)
Definition chunk_stream (min_sentence_length : Z) (tokens : list str)
  : list str :=
  let '(ys, buffer) := consume min_sentence_length [] tokens in
  if truthy (strip buffer) then ys ++ [strip buffer] else ys.

End Chunker.

(* ------------------------------------------------------------------ *)
(** ** src/llm/chunker_fixed.py : the chunker with edge-case handling *)

Module ChunkerFixed.

(** [self.abbreviations], without the trailing dot. *)
Definition abbreviations : list str :=
  map py ["mr"; "mrs"; "ms"; "dr"; "prof"; "sr"; "jr";
          "i.e"; "e.g"; "etc"; "vs"; "inc"; "ltd"; "corp";
          "st"; "ave"; "blvd"; "dept"; "fig"; "vol"; "no"]%string.

(** [char in ".!?"] for a one-character [char]. *)
Definition is_terminator (c : ascii) : bool :=
  existsb (Ascii.eqb c) ["."; "!"; "?"]%char.

(** The double quote (code point 34) and the apostrophe (39). *)
Definition double_quote : ascii := ascii_of_N 34.
Definition single_quote : ascii := ascii_of_N 39.

(** [_is_inside_quotes] *)
Definition _is_inside_quotes (text : str) : bool :=
  let double_quotes := Nat.modulo (count double_quote text) 2 in
  let single_quotes := Nat.modulo (count single_quote text) 2 in
  negb (Nat.eqb double_quotes 0) || negb (Nat.eqb single_quotes 0).

(** The regular expression [$] matches at the end of the text and also just
    before a final newline: a pattern anchored with [$] is tried on the text
    and, when the text ends in a newline, on the text without it. *)
Definition newline : ascii := ascii_of_N 10.

Definition at_dollar (tail_match : str -> bool) (text : str) : bool :=
  tail_match text ||
  match rev text with
  | c :: before => Ascii.eqb c newline && tail_match (rev before)
  | [] => false
  end.

(** [\d+\.\d*] ending exactly at the end of [s], read from the right:
    the trailing digits, then the dot, then at least one digit. *)
Fixpoint skip_digits (r : str) : str :=
  match r with
  | c :: r' => if isdigit c then skip_digits r' else r
  | [] => []
  end.

Definition decimal_tail (s : str) : bool :=
  match skip_digits (rev s) with
  | dot :: d :: _ => Ascii.eqb dot "."%char && isdigit d
  | _ => false
  end.

(** [_ends_with_decimal]: [re.search(r'\d+\.\d*$', text)] *)
Definition _ends_with_decimal (text : str) : bool :=
  at_dollar decimal_tail text.

(** Case-insensitive literal prefix ([re.IGNORECASE]); gives the rest. *)
Fixpoint strip_prefix_ci (p s : str) : option str :=
  match p, s with
  | [], _ => Some s
  | _ :: _, [] => None
  | a :: p', b :: s' =>
      if Ascii.eqb (lower_char a) (lower_char b) then strip_prefix_ci p' s'
      else None
  end.

(** [(www\.|https?://)[^\s]*\.?] matched at the start of [s] and reaching
    its end. *)
Definition url_here (s : str) : bool :=
  existsb
    (fun p => match strip_prefix_ci (py p) s with
              | Some rest => forallb (fun c => negb (isspace c)) rest
              | None => false
              end)
    ["www."; "http://"; "https://"]%string.

(** [re.search]: the pattern may start anywhere. *)
Fixpoint url_tail (s : str) : bool :=
  url_here s ||
  match s with
  | _ :: s' => url_tail s'
  | [] => false
  end.

(** [_ends_with_url] *)
Definition _ends_with_url (text : str) : bool := at_dollar url_tail text.

(** [_ends_with_incomplete_ellipsis] *)
Definition _ends_with_incomplete_ellipsis (text : str) : bool :=
  endswith text (py ".") || endswith text (py "..").

(** [_ends_with_abbreviation] *)
Definition _ends_with_abbreviation (text : str) : bool :=
  let text_lower := rstrip (lower text) in
  existsb (fun abbr => endswith text_lower (abbr ++ py ".")) abbreviations.

(** [_is_false_boundary] *)
Definition _is_false_boundary (sentence : str) : bool :=
  let sentence_lower := strip (lower sentence) in
  if existsb (fun abbr => endswith sentence_lower (abbr ++ py "."))
       abbreviations
  then true
  else if _ends_with_decimal sentence then true
  else if _ends_with_url sentence then true
  else false.

(** The peek of the scan: [not remaining or (remaining[0].isspace() and
    len(remaining) > 1 and remaining[1].isupper())]. *)
Definition peek_ok (remaining : str) : bool :=
  match remaining with
  | [] => true
  | c0 :: [] => false
  | c0 :: c1 :: _ => isspace c0 && isupper c1
  end.

(** The loop [for char in text] of [_extract_sentences], with its two
    variables [sentences] and [current].  [remaining] is taken from the
    whole [text] at offset [len(current)], as the source does. *)
Fixpoint scan (min_sentence_length : Z) (text rest : str)
  (sentences : list str) (current : str) : list str * str :=
  match rest with
  | [] => (sentences, current)
  | char :: rest' =>
      let current := current ++ [char] in
      if is_terminator char && (min_sentence_length <=? len current)%Z then
        let remaining := drop (List.length current) text in
        if peek_ok remaining then
          if negb (_is_false_boundary current)
          then scan min_sentence_length text rest'
                    (sentences ++ [strip current]) []
          else scan min_sentence_length text rest' sentences current
        else scan min_sentence_length text rest' sentences current
      else scan min_sentence_length text rest' sentences current
  end.

(** The five checks that make [_extract_sentences] keep buffering. *)
Definition keeps_buffering (text : str) : bool :=
  _is_inside_quotes text
  || _ends_with_decimal text
  || _ends_with_url text
  || _ends_with_incomplete_ellipsis text
  || _ends_with_abbreviation text.

(** [_extract_sentences] *)
Definition _extract_sentences (min_sentence_length : Z) (text : str)
  : list str :=
  match text with
  | [] => []
  | _ =>
      if keeps_buffering text then [text]
      else
        let '(sentences, current) := scan min_sentence_length text text [] [] in
        let sentences :=
          match current with
          | [] => sentences
          | _ => sentences ++ [current]
          end in
        match sentences with
        | [] => [text]
        | _ => sentences
        end
  end.

(** The sentences of [sentences[:-1]] that pass the length test. *)
Definition long_enough (min_sentence_length : Z) (sentence : str) : bool :=
  (min_sentence_length <=? len sentence)%Z.

(** One iteration of [async for token in token_stream] in [chunk_stream]:
    the sentences yielded and the new buffer. *)
Definition on_token (min_sentence_length : Z) (buffer token : str)
  : list str * str :=
  let buffer := buffer ++ token in
  let sentences := _extract_sentences min_sentence_length buffer in
  match sentences with
  | [] => ([], buffer)
  | _ => (filter (long_enough min_sentence_length) (but_last sentences),
          last_or [] sentences)
  end.

Fixpoint consume (min_sentence_length : Z) (buffer : str)
  (tokens : list str) : list str * str :=
  match tokens with
  | [] => ([], buffer)
  | token :: rest =>
      let '(ys, buffer') := on_token min_sentence_length buffer token in
      let '(zs, final) := consume min_sentence_length buffer' rest in
      (ys ++ zs, final)
  end.

(** [chunk_stream] on a finite token stream. *)
Definition chunk_stream (min_sentence_length : Z) (tokens : list str)
  : list str :=
  let '(ys, buffer) := consume min_sentence_length [] tokens in
  match strip buffer with
  | [] => ys
  | final_sentence => ys ++ [final_sentence]
  end.

(** The sentences that [chunk_stream] splits off but does not yield because
    they are shorter than the minimum once stripped. *)
Definition withheld (min_sentence_length : Z) (buffer token : str)
  : list str :=
  filter (fun s => negb (long_enough min_sentence_length s))
         (but_last (_extract_sentences min_sentence_length (buffer ++ token))).

Fixpoint nothing_withheld (min_sentence_length : Z) (buffer : str)
  (tokens : list str) : bool :=
  match tokens with
  | [] => true
  | token :: rest =>
      match withheld min_sentence_length buffer token with
      | [] => nothing_withheld min_sentence_length
                (snd (on_token min_sentence_length buffer token)) rest
      | _ => false
      end
  end.

End ChunkerFixed.


(* ------------------------------------------------------------------ *)
(** ** src/core/pipeline.py *)

Module Pipeline.

Import Events.

(** What the pipeline needs of its [chunker]: the token loop of its
    [chunk_stream], from a buffer and the tokens received to the sentences
    yielded and the buffer left.  Both chunkers then flush the stripped
    buffer when the token stream is exhausted. *)
Class Segmenter := { consume_tokens : str -> list str -> list str * str }.

Definition basic_chunker (min_sentence_length : Z) : Segmenter :=
  {| consume_tokens := Chunker.consume min_sentence_length |}.

Definition fixed_chunker (min_sentence_length : Z) : Segmenter :=
  {| consume_tokens := ChunkerFixed.consume min_sentence_length |}.

(** A sentence yielded inside the token loop, or the final flush. *)
Inductive Emission :=
| Ready (sentence : str)
| Final (sentence : str).

Definition sentence_of (e : Emission) : str :=
  match e with Ready s => s | Final s => s end.

Definition entry_of (e : Emission) : Entry :=
  match e with
  | Ready s => sentence_ready s
  | Final s => sentence_ready_final s
  end.

(** [chunker.chunk_stream(token_stream)]: a token stream that raises ends
    the generator before the final flush. *)
Definition chunk_stream (chunker : Segmenter) (tokens : list str)
  (exhausted : bool) : list Emission :=
  let '(ys, buffer) := consume_tokens [] tokens in
  map Ready ys ++
  (if exhausted
   then match strip buffer with
        | [] => []
        | final_sentence => [Final final_sentence]
        end
   else []).

(** What a run leaves behind: the entries that the orchestrator and the
    chunker emitted to the observer, in order, the sentences for which a
    synthesis task was created, in creation order, and what the caller
    gets.  The observer is one whose listeners return, so that [emit]
    returns; the events that a generator or a synthesiser emits to the same
    observer are theirs and are not kept in this log. *)
Record Run (A : Type) := mkRun {
  log : list Entry;
  dispatched : list str;
  result : Outcome A
}.

Definition error_entry (e : Exn) : Entry :=
  (PIPELINE_ERROR,
   [("error", VStr (exn_str e)); ("error_type", VStr (exn_type e))]%string).

Section Orchestrator.

(** The collaborators.  [llm_query_stream] gives the tokens streamed and the
    exception that ended the stream, if one did; [tts_speak i s] is how the
    task created for the [i]-th sentence ends; [gather_first] is the failure
    [asyncio.gather] re-raises among those of the tasks that failed (the one
    that failed first in time, which the scheduler decides). *)
Variable Audio : Type.
Variable py_len : Audio -> Outcome Z.
Variable stt_transcribe : Audio -> Outcome str.
Variable llm_query_stream : str -> list str * option Exn.
Variable chunker : Segmenter.
Variable chunker_observed : bool.
Variable tts_speak : nat -> str -> option Exn.
Variable gather_first : list Exn -> Exn.

Fixpoint failures (i : nat) (sentences : list str) : list Exn :=
  match sentences with
  | [] => []
  | s :: rest =>
      match tts_speak i s with
      | Some e => e :: failures (S i) rest
      | None => failures (S i) rest
      end
  end.

(** [_process_text_query] *)
Definition _process_text_query (log0 : list Entry) (text : str)
  : Run unit :=
  let '(tokens, stream_error) := llm_query_stream text in
  let emissions :=
    chunk_stream chunker tokens
      (match stream_error with None => true | Some _ => false end) in
  let log1 :=
    log0 ++ (if chunker_observed then map entry_of emissions else []) in
  let tts_tasks := map sentence_of emissions in
  match stream_error with
  | Some e => mkRun log1 tts_tasks (Raised e)
  | None =>
      match failures 0 tts_tasks with
      | [] => mkRun log1 tts_tasks (Returned tt)
      | failed => mkRun log1 tts_tasks (Raised (gather_first failed))
      end
  end.

(** The handler [except Exception as e: emit(PIPELINE_ERROR, ...); raise]. *)
Definition on_exception (A : Type) (log1 : list Entry)
  (tasks : list str) (e : Exn) : Run A :=
  if exn_is_exception e
  then mkRun (log1 ++ [error_entry e]) tasks (Raised e)
  else mkRun log1 tasks (Raised e).

(** [process_text] *)
Definition process_text (log0 : list Entry) (text : str) : Run unit :=
  let log1 :=
    log0 ++ [(PIPELINE_START, [("text", VStr (take 100 text))]%string)] in
  let r := _process_text_query log1 text in
  match result r with
  | Returned _ =>
      mkRun (log r ++
             [(PIPELINE_COMPLETE, [("text", VStr (take 100 text))]%string)])
            (dispatched r) (Returned tt)
  | Raised e => on_exception unit (log r) (dispatched r) e
  end.

(** [process_audio] *)
Definition process_audio (log0 : list Entry) (audio_data : Audio)
  : Run str :=
  match py_len audio_data with
  | Raised e => mkRun log0 [] (Raised e)
  | Returned n =>
      let log1 :=
        log0 ++ [(PIPELINE_START, [("audio_duration_ms", VInt n)]%string)] in
      match stt_transcribe audio_data with
      | Raised e => on_exception str log1 [] e
      | Returned transcript =>
          match transcript with
          | [] =>
              mkRun (log1 ++
                     [(PIPELINE_ERROR,
                       [("error", VStr (py "Empty transcript"))]%string)])
                    [] (Returned [])
          | _ =>
              let r := _process_text_query log1 transcript in
              match result r with
              | Returned _ =>
                  mkRun (log r ++
                         [(PIPELINE_COMPLETE,
                           [("transcript", VStr transcript)]%string)])
                        (dispatched r) (Returned transcript)
              | Raised e => on_exception str (log r) (dispatched r) e
              end
          end
      end
  end.

End Orchestrator.

End Pipeline.

(* ------------------------------------------------------------------ *)
(** ** src/llm/claude_api.py : the conversation history *)

Module ClaudeAPI.

Definition MAX_HISTORY_TURNS : nat := 50.

Inductive Role := user | assistant.

(** One entry [{"role": ..., "content": ...}]. *)
Definition Message := (Role * str)%type.

(** [history[-n:]] for a positive [n] *)
Definition last_n (n : nat) (history : list Message) : list Message :=
  skipn (List.length history - n) history.

(** The history after the user message is appended and the trim applied:
    this is the list sent to the API. *)
Definition append_user (history : list Message) (text : str)
  : list Message :=
  let history := history ++ [(user, text)] in
  if Nat.ltb MAX_HISTORY_TURNS (List.length history)
  then last_n MAX_HISTORY_TURNS history
  else history.

(** [query_stream] run to the end of the generator: [stream] is what the
    API streams, the chunks and the exception that ended them, if one did.
    The result is the history left behind and the chunks yielded. *)
Definition query_stream (history : list Message) (text : str)
  (stream : list str * option Exn) : list Message * list str * option Exn :=
  let history := append_user history text in
  let '(chunks, error) := stream in
  match error with
  | Some e => (history, chunks, Some e)
  | None =>
      let assistant_response := List.concat chunks in
      (history ++ [(assistant, assistant_response)], chunks, None)
  end.

End ClaudeAPI.

(* ------------------------------------------------------------------ *)
(** ** src/core/retry.py : retry with exponential backoff *)

Module Retry.

Record RetryConfig := mkRetryConfig {
  max_attempts : Z;
  initial_delay_ms : Q;
  max_delay_ms : Q;
  exponential_base : Q;
  jitter : bool
}.

(** [RetryConfig()] *)
Definition default_config : RetryConfig :=
  mkRetryConfig 3 100 10000 2 true.

(** [min(a, b)]: the first argument unless the second is smaller. *)
Definition py_min (a b : Q) : Q := if Qle_bool a b then a else b.

(** The magnitude from which a number rounds to infinity as a double:
    [2^1024 - 2^970], half a unit in the last place above the largest
    double. *)
Definition ROUNDS_TO_INFINITY : Q := inject_Z (2 ^ 1024 - 2 ^ 970).

(** [exponential_base ** attempt] is out of the range of a double: the
    float power then raises [OverflowError].  (The product with
    [initial_delay_ms] overflows to infinity without raising, and [min] then
    returns the cap, as the rational formula does.) *)
Definition pow_overflows (base : Q) (attempt : Z) : bool :=
  Qle_bool ROUNDS_TO_INFINITY (Qabs (base ^ attempt)).

Definition overflow_error : Exn :=
  mkExn (py "OverflowError") (py "(34, 'Numerical result out of range')")
        true.

Definition zero_division_error : Exn :=
  mkExn (py "ZeroDivisionError")
        (py "0.0 cannot be raised to a negative power") true.

(** The value [get_delay_ms] returns when the power can be computed, with
    [random] the value [random.random()] returns; rounding apart. *)
Definition backoff_delay_ms (config : RetryConfig) (random : Q) (attempt : Z)
  : Q :=
  let delay := initial_delay_ms config * exponential_base config ^ attempt in
  let delay := py_min delay (max_delay_ms config) in
  if jitter config
  then delay * (1 + (random - (1 # 2)) * (1 # 2))
  else delay.

(** [get_delay_ms]: the power is computed first and raises when it is out
    of range (or a zero base is raised to a negative power); the cap comes
    after it. *)
Definition get_delay_ms (config : RetryConfig) (random : Q) (attempt : Z)
  : Outcome Q :=
  if Qeq_bool (exponential_base config) 0 && (attempt <? 0)%Z
  then Raised zero_division_error
  else if pow_overflows (exponential_base config) attempt
  then Raised overflow_error
  else Returned (backoff_delay_ms config random attempt).

Definition retry_logic_error : Exn :=
  mkExn (py "RuntimeError") (py "Retry logic error: no exception raised") true.

Section RetryAsync.

(** [func] acts on some state of the world and returns or raises;
    [func_name] is what evaluating [func.__name__] gives, the name or the
    [AttributeError] of a callable that has none; [str_raises e] is the
    exception [str(e)] raises, if it raises; [retryable e] is
    [isinstance(e, retryable_exceptions)]; [on_retry], when given, returns
    normally or raises; [random attempt] is the draw made at that
    attempt. *)
Variable T : Type.
Variable World : Type.
Variable func : World -> Outcome T * World.
Variable func_name : Outcome str.
Variable str_raises : Exn -> option Exn.
Variable retryable : Exn -> bool.
Variable on_retry : option (Exn -> Z -> option Exn).
Variable random : Z -> Q.

(** What [retry_async] does, in order.  The messages it hands to the logger
    are not part of the trace; what building them can raise is. *)
Inductive Step :=
| Invoked (outcome : Outcome T)
| Notified (e : Exn) (attempt : Z)
| Slept (seconds : Q).

Record Attempted := mkAttempted {
  outcome : Outcome T;
  world : World;
  trace : list Step
}.

Definition and_then (step : Step) (r : Attempted) : Attempted :=
  mkAttempted (outcome r) (world r) (step :: trace r).

(** The f-string of [logger.error] evaluates [func.__name__]. *)
Definition error_message_raises : option Exn :=
  match func_name with
  | Raised a => Some a
  | Returned _ => None
  end.

(** The f-string of [logger.warning] evaluates [func.__name__], then
    [str(e)]. *)
Definition warning_message_raises (e : Exn) : option Exn :=
  match func_name with
  | Raised a => Some a
  | Returned _ => str_raises e
  end.

(** The loop [for attempt in range(config.max_attempts)]; [remaining]
    counts the iterations left, [attempt] is the loop variable.  An
    exception raised inside the [except] block (by the delay, by a log
    message or by the callback) leaves the loop. *)
Fixpoint attempts (config : RetryConfig) (remaining : nat) (attempt : Z)
  (last_exception : option Exn) (w : World) : Attempted :=
  match remaining with
  | O =>
      match last_exception with
      | Some e => mkAttempted (Raised e) w []
      | None => mkAttempted (Raised retry_logic_error) w []
      end
  | S remaining' =>
      let '(result, w') := func w in
      match result with
      | Returned value => mkAttempted (Returned value) w' [Invoked result]
      | Raised e =>
          if retryable e then
            if (attempt =? max_attempts config - 1)%Z
            then
              match error_message_raises with
              | Some a => mkAttempted (Raised a) w' [Invoked result]
              | None => mkAttempted (Raised e) w' [Invoked result]
              end
            else
              match get_delay_ms config (random attempt) attempt with
              | Raised o => mkAttempted (Raised o) w' [Invoked result]
              | Returned delay_ms =>
                  match warning_message_raises e with
                  | Some a => mkAttempted (Raised a) w' [Invoked result]
                  | None =>
                      match on_retry with
                      | Some callback =>
                          match callback e (attempt + 1)%Z with
                          | Some e' =>
                              mkAttempted (Raised e') w'
                                [Invoked result; Notified e (attempt + 1)%Z]
                          | None =>
                              and_then (Invoked result)
                                (and_then (Notified e (attempt + 1)%Z)
                                   (and_then (Slept (delay_ms / 1000))
                                      (attempts config remaining'
                                         (attempt + 1)%Z (Some e) w')))
                          end
                      | None =>
                          and_then (Invoked result)
                            (and_then (Slept (delay_ms / 1000))
                               (attempts config remaining' (attempt + 1)%Z
                                  (Some e) w'))
                      end
                  end
              end
          else mkAttempted (Raised e) w' [Invoked result]
      end
  end.

(** [retry_async] with an explicit [config]. *)
Definition retry_async (config : RetryConfig) (w : World) : Attempted :=
  attempts config (Z.to_nat (max_attempts config)) 0 None w.

(** The outcomes of the invocations of [func], in order. *)
Fixpoint invocations (steps : list Step) : list (Outcome T) :=
  match steps with
  | [] => []
  | Invoked o :: rest => o :: invocations rest
  | _ :: rest => invocations rest
  end.

(** The callback, if there is one, returns normally on every call. *)
Definition callback_returns : Prop :=
  match on_retry with
  | Some callback => forall e k, callback e k = None
  | None => True
  end.

(** An invocation that raised an exception of a retryable type. *)
Definition raised_retryable (o : Outcome T) : Prop :=
  exists e, o = Raised e /\ retryable e = true.

(** The log messages can be built: [func] has a name and [str(e)] returns
    for every exception. *)
Definition messages_build : Prop :=
  (exists name, func_name = Returned name) /\ forall e, str_raises e = None.

End RetryAsync.

(** No power [exponential_base ** attempt] computed during [n] attempts
    overflows: the delays of attempts 0 to [n - 2]. *)
Definition delays_computable (config : RetryConfig) (n : Z) : Prop :=
  forall attempt, (0 <= attempt < n - 1)%Z ->
    pow_overflows (exponential_base config) attempt = false.

End Retry.

(* ------------------------------------------------------------------ *)
(** ** src/core/retry.py : the token bucket *)

Module RateLimiter.

Record RateLimiter := mkLimiter {
  tokens_per_second : Q;
  bucket_size : Z;
  tokens : Q;
  last_update : Q
}.

(** [int(x)] for a float: truncation towards zero. *)
Definition py_int (x : Q) : Z := Z.quot (Qnum x) (Zpos (Qden x)).

(** [RateLimiter(tokens_per_second, bucket_size)], created at time [now];
    [bucket_size or int(tokens_per_second)] falls back on the rate when the
    size is missing or zero. *)
Definition new (rate : Q) (size : option Z) (now : Q) : RateLimiter :=
  let b :=
    match size with
    | Some b => if (b =? 0)%Z then py_int rate else b
    | None => py_int rate
    end in
  mkLimiter rate b (inject_Z b) now.

(** One pass through the body of [while True]. *)
Inductive Turn :=
| Acquired (l : RateLimiter)
| Suspend (l : RateLimiter) (wait_time : Q)
| DivisionByZero (l : RateLimiter).

Definition turn (l : RateLimiter) (now : Q) (n : Z) : Turn :=
  let elapsed := now - last_update l in
  let refilled := tokens l + elapsed * tokens_per_second l in
  let capped :=
    if Qle_bool (inject_Z (bucket_size l)) refilled
    then inject_Z (bucket_size l) else refilled in
  let l1 := mkLimiter (tokens_per_second l) (bucket_size l) capped now in
  if Qle_bool (inject_Z n) capped
  then Acquired (mkLimiter (tokens_per_second l) (bucket_size l)
                   (capped - inject_Z n) now)
  else if Qeq_bool (tokens_per_second l) 0
  then DivisionByZero l1
  else Suspend l1 ((inject_Z n - capped) / tokens_per_second l).

(** How [acquire] ends, when it ends: the limiter left behind, the time of
    the return and the number of suspensions; or the division by a zero
    rate. *)
Inductive Ended :=
| Done (l : RateLimiter) (now : Q) (suspensions : nat)
| ZeroDivisionError.

(** [acquire(n)] entered at time [now].  [asyncio.sleep(wait_time)] resumes
    after [wait_time] (nothing, for a non-positive one) plus a scheduling
    lag [lag i] at the [i]-th suspension.  [fuel] bounds the passes through
    the loop; [None] means the loop is still running when it is used up. *)
Fixpoint acquire (fuel : nat) (lag : nat -> Q) (i : nat) (l : RateLimiter)
  (now : Q) (n : Z) : option Ended :=
  match fuel with
  | O => None
  | S fuel' =>
      match turn l now n with
      | Acquired l' => Some (Done l' now i)
      | DivisionByZero _ => Some ZeroDivisionError
      | Suspend l' wait_time =>
          let slept := if Qle_bool wait_time 0 then 0 else wait_time in
          acquire fuel' lag (S i) l' (now + slept + lag i) n
      end
  end.

(** [acquire(n)] returns, after finitely many suspensions. *)
Definition returns (lag : nat -> Q) (l : RateLimiter) (now : Q) (n : Z)
  : Prop :=
  exists fuel l' t k, acquire fuel lag 0 l now n = Some (Done l' t k).

End RateLimiter.

(* ------------------------------------------------------------------ *)
(** ** src/audio/types.py, exceptions.py, normalize.py *)

Module Audio.

Inductive AudioFormat := WAV | MP3 | FLAC | AIFF | PCM.

Definition format_value (f : AudioFormat) : string :=
  match f with
  | WAV => "wav" | MP3 => "mp3" | FLAC => "flac" | AIFF => "aiff"
  | PCM => "pcm"
  end.

Record AudioData := mkAudio {
  data : list Byte.byte;
  sample_rate : Z;
  format : AudioFormat;
  channels : Z;
  duration_ms : option Q
}.

(** [__post_init__]: what the constructor accepts. *)
Definition post_init_ok (a : AudioData) : bool :=
  (0 <? sample_rate a)%Z && (0 <? channels a)%Z &&
  match data a with [] => false | _ => true end.

Definition size_bytes (a : AudioData) : Z := Z.of_nat (List.length (data a)).

Inductive AudioError :=
| AudioTooShortError (duration_ms minimum_ms : Q)
| AudioTooLongError (size_mb maximum_mb : Q)
| AudioFormatError (message : string)
| AudioNormalizationError (message : string).

Definition WHISPER_SAMPLE_RATE : Z := 16000.
Definition WHISPER_CHANNELS : Z := 1.
Definition WHISPER_MAX_FILE_SIZE_MB : Q := 25.
Definition WHISPER_MIN_DURATION_MS : Q := 100.

(** Truthiness of [audio.duration_ms]: neither [None] nor zero. *)
Definition truthy (d : option Q) : bool :=
  match d with
  | Some q => negb (Qeq_bool q 0)
  | None => false
  end.

Definition Qlt_bool (a b : Q) : bool := negb (Qle_bool b a).

(** The duration check of [validate_audio_for_whisper]. *)
Definition too_short (audio : AudioData) : option AudioError :=
  match duration_ms audio with
  | Some d =>
      if truthy (Some d) && Qlt_bool d WHISPER_MIN_DURATION_MS
      then Some (AudioTooShortError d WHISPER_MIN_DURATION_MS)
      else None
  | None => None
  end.

Definition size_mb_of (audio : AudioData) : Q :=
  inject_Z (size_bytes audio) / inject_Z (1024 * 1024).

(** [validate_audio_for_whisper]: [None] when it returns, the error when it
    raises. *)
Definition validate_audio_for_whisper (audio : AudioData)
  : option AudioError :=
  match too_short audio with
  | Some e => Some e
  | None =>
      let size_mb := size_mb_of audio in
      if Qlt_bool WHISPER_MAX_FILE_SIZE_MB size_mb
      then Some (AudioTooLongError size_mb WHISPER_MAX_FILE_SIZE_MB)
      else
        match format audio with
        | WAV | FLAC | MP3 => None
        | other =>
            Some (AudioFormatError
                    ("Whisper requires WAV/FLAC/MP3, got " ++
                     format_value other))
        end
  end.

Definition is_wav (f : AudioFormat) : bool :=
  match f with WAV => true | _ => false end.

(** The input is already 16 kHz mono WAV. *)
Definition already_normalized (a : AudioData) : Prop :=
  sample_rate a = WHISPER_SAMPLE_RATE /\
  channels a = WHISPER_CHANNELS /\
  format a = WAV.

Section Normalize.

(** The sample-level steps of [normalize_for_whisper] are parameters here:
    parsing the container and the PCM bytes (which may raise an
    [AudioFormatError] or something else), the downmix, the interpolation
    and the encoding to WAV bytes.  What is modelled is where validation is
    called and the metadata of the buffer it is called on. *)
Variable Sample : Type.

(** How parsing fails: with an [AudioFormatError], or with any other
    exception, of which only [str(e)] is used. *)
Inductive ParseFailure :=
| BadFormat (message : string)
| OtherException (message : string).

Variable _parse_audio_to_samples :
  AudioData -> Z -> ParseFailure + list Sample.
Variable _convert_to_mono : list Sample -> Z -> list Sample.
Variable _resample : list Sample -> Z -> Z -> list Sample.
Variable _samples_to_wav : list Sample -> Z -> list Byte.byte.

Definition samples_for_whisper (audio : AudioData) (samples : list Sample)
  : list Sample :=
  let samples :=
    if (1 <? channels audio)%Z
    then _convert_to_mono samples (channels audio) else samples in
  if negb (sample_rate audio =? WHISPER_SAMPLE_RATE)%Z
  then _resample samples (sample_rate audio) WHISPER_SAMPLE_RATE
  else samples.

(** The buffer built from the converted samples. *)
Definition normalized_of (samples : list Sample) : AudioData :=
  let wav_data := _samples_to_wav samples WHISPER_SAMPLE_RATE in
  let duration_ms :=
    inject_Z (Z.of_nat (List.length samples)) / inject_Z WHISPER_SAMPLE_RATE
    * 1000 in
  mkAudio wav_data WHISPER_SAMPLE_RATE WAV WHISPER_CHANNELS (Some duration_ms).

(** [except Exception as e: raise AudioNormalizationError(...)] *)
Definition wrapped (message : string) : AudioError :=
  AudioNormalizationError ("Failed to normalize audio: " ++ message).

(** Validation inside the [try]: its three errors are re-raised as they
    are. *)
Definition validated (audio : AudioData) : AudioError + AudioData :=
  match validate_audio_for_whisper audio with
  | Some e => inl e
  | None => inr audio
  end.

(** [normalize_for_whisper] *)
Definition normalize_for_whisper (audio : AudioData) (bits_per_sample : Z)
  : AudioError + AudioData :=
  if (sample_rate audio =? WHISPER_SAMPLE_RATE)%Z
     && (channels audio =? WHISPER_CHANNELS)%Z
     && is_wav (format audio)
  then validated audio
  else
    match _parse_audio_to_samples audio bits_per_sample with
    | inl (BadFormat message) => inl (AudioFormatError message)
    | inl (OtherException message) => inl (wrapped message)
    | inr samples =>
        let normalized := normalized_of (samples_for_whisper audio samples) in
        if post_init_ok normalized then validated normalized
        else inl (wrapped "Audio data cannot be empty")
    end.

End Normalize.

End Audio.

(* ------------------------------------------------------------------ *)
(** ** src/llm/mock.py : the word tokenizer of the mock generator *)

Module MockLLM.

(** [text.split()]: the maximal runs of non-whitespace characters. *)
Fixpoint split_from (word : str) (text : str) : list str :=
  match text with
  | [] => match word with [] => [] | _ => [word] end
  | c :: rest =>
      if isspace c
      then match word with
           | [] => split_from [] rest
           | _ => word :: split_from [] rest
           end
      else split_from (word ++ [c]) rest
  end.

Definition split (text : str) : list str := split_from [] text.

(** [_tokenize]: the words, a one-space token before each but the first. *)
Fixpoint spaced (words : list str) : list str :=
  match words with
  | [] => []
  | word :: rest => py " " :: word :: spaced rest
  end.

Definition _tokenize (text : str) : list str :=
  match split text with
  | [] => []
  | word :: rest => word :: spaced rest
  end.

End MockLLM.

(* ------------------------------------------------------------------ *)
(** ** Vocabulary of the stated properties *)

Module Props.

Import Events.

(** Some failure, for the collaborators of the examples. *)
Definition boom : Exn := mkExn (py "RuntimeError") (py "failed") true.

(** What [func.__name__] raises for a [functools.partial] object. *)
Definition no_name : Exn :=
  mkExn (py "AttributeError")
        (py "'functools.partial' object has no attribute '__name__'") true.

(** The double [1e200], exactly. *)
Definition ONE_E200 : Z :=
  99999999999999996973312221251036165947450327545502362648241750950346848435554075534196338404706251868027512415973882408182135734368278484639385041047239877871023591066789981811181813306167128854888448.

(** [RetryConfig(max_attempts=4, exponential_base=1e200)] *)
Definition steep_config : Retry.RetryConfig :=
  Retry.mkRetryConfig 4 100 10000 (inject_Z ONE_E200) true.

(** Segmenting [text] one character per token, trimming each emitted
    sentence and joining with single spaces gives [text] back. *)
Definition reconstructs (segment : list str -> list str) (text : str)
  : Prop :=
  join_space (map strip (segment (chars text))) = text.

(** [_extract_sentences] neither splits [text] nor would it with any other
    minimum length: a check keeps it buffering, or the scan with no length
    requirement finds no boundary. *)
Definition quiet (text : str) : bool :=
  match text with
  | [] => true
  | _ =>
      ChunkerFixed.keeps_buffering text ||
      match ChunkerFixed.scan 0 text text [] [] with
      | ([], current) => eqb_str current text
      | _ => false
      end
  end.

(** Every prefix of [text] is quiet. *)
Definition prefixes_quiet (text : str) : bool :=
  forallb (fun n => quiet (take n text)) (seq 0 (S (List.length text))).

(** Two sentences in a row end with [before] and start with [after]: the
    segmenter split between the two. *)
Definition splits_between (sentences : list str) (before after : str)
  : bool :=
  existsb (fun i =>
             match nth_error sentences i, nth_error sentences (S i) with
             | Some s, Some t => endswith s before && startswith t after
             | _, _ => false
             end)
          (seq 0 (List.length sentences)).

Definition decimal_text : str := py "The value is 3.14. Next sentence.".
Definition url_text : str := py "Visit www.example.com. Done.".
Definition abbreviation_text : str := py "Dr. Smith arrived.".
Definition ellipsis_text : str := py "Wait... then go.".

(** The end-to-end scenario: the generation capability streams
    [scenario_text] as [tokens], every synthesis task succeeds, and the
    chunker reports to the pipeline's observer. *)
Definition scenario_text : str := py "Hello! How are you? Fine.".

Definition expected_sentences : list str :=
  map py ["Hello!"; "How are you?"; "Fine."]%string.

Definition scenario (chunker : Pipeline.Segmenter) (tokens : list str)
  : Pipeline.Run unit :=
  Pipeline.process_text (fun _ => (tokens, None)) chunker true
    (fun _ _ => None) (fun failed => hd boom failed)
    [] scenario_text.

Definition is_failure (t : EventType) : bool :=
  match t with
  | PIPELINE_ERROR | LLM_ERROR | TTS_ERROR | STT_ERROR => true
  | _ => false
  end.

Definition scenario_holds (chunker : Pipeline.Segmenter)
  (tokens : list str) : Prop :=
  let r := scenario chunker tokens in
  Pipeline.dispatched r = expected_sentences /\
  Pipeline.result r = Returned tt /\
  In PIPELINE_COMPLETE (map fst (Pipeline.log r)) /\
  forallb (fun entry => negb (is_failure (fst entry))) (Pipeline.log r)
  = true.

(** The event bus as the specification words it: [emit] does not raise,
    every registered callback is called, in order, and exactly one event
    stamped [now] is appended. *)
Definition robust_emit (now : Q) (o : InMemoryEventObserver)
  (kind : EventType) (payload : option Payload) : Prop :=
  let r := emit now o (inl kind) payload in
  raised r = None /\
  called r = seq 0 (List.length (_callbacks o)) /\
  exists event,
    events (observer_after r) = events o ++ [event] /\
    timestamp event = now.

(** An observer with two listeners, the first of which raises. *)
Definition failing_first : InMemoryEventObserver :=
  on_event (on_event new_observer (fun _ => Some boom)) (fun _ => None).

(** The entries [process_audio] emits first, and on an empty transcript. *)
Definition start_entry (n : Z) : Entry :=
  (PIPELINE_START, [("audio_duration_ms", VInt n)]%string).

Definition complete_entry (transcript : str) : Entry :=
  (PIPELINE_COMPLETE, [("transcript", VStr transcript)]%string).

Definition empty_transcript_entry : Entry :=
  (PIPELINE_ERROR, [("error", VStr (py "Empty transcript"))]%string).

(** A run that failed fast on its transcript: nothing was dispatched, and
    the log holds the empty-transcript error and no completion. *)
Definition failed_fast (r : Pipeline.Run str) : Prop :=
  Pipeline.dispatched r = [] /\
  In empty_transcript_entry (Pipeline.log r) /\
  ~ In PIPELINE_COMPLETE (map fst (Pipeline.log r)).

(** [len(audio_data)] for a [bytes] object, and for an [AudioData], a
    dataclass that defines no [__len__]. *)
Definition bytes_len (audio_data : list Byte.byte) : Outcome Z :=
  Returned (Z.of_nat (List.length audio_data)).

Definition no_len : Exn :=
  mkExn (py "TypeError") (py "object of type 'AudioData' has no len()") true.

Definition audio_data_len (audio_data : Audio.AudioData) : Outcome Z :=
  Raised no_len.

(** Ten bytes of audio. *)
Definition ten_bytes : list Byte.byte := repeat Byte.x00 10.

(** A run on ten bytes of audio transcribed as [transcript], with a
    generator that answers "Hi there." whatever it is asked and a synthesis
    that succeeds. *)
Definition audio_run (transcript : str) : Pipeline.Run str :=
  Pipeline.process_audio bytes_len
    (fun _ => Returned transcript)
    (fun _ => (chars (py "Hi there."), None))
    (Pipeline.fixed_chunker 5) true
    (fun _ _ => None) (fun failed => hd boom failed)
    [] ten_bytes.

(** Fifty entries of history, and the state of one more completed turn. *)
Definition full_history : list ClaudeAPI.Message :=
  repeat (ClaudeAPI.user, py "hello") 50.

Definition history_after_turn : list ClaudeAPI.Message :=
  fst (fst (ClaudeAPI.query_stream full_history (py "again")
              ([py "Sure"; py "."], None))).

End Props.

(* ------------------------------------------------------------------ *)
(** ** chunker.py and chunker_fixed.py : [chunk_text], the synchronous
       variants *)

Module ChunkerSync.

Import Chunker.

(** The loop [while self._has_sentence_boundary(buffer)] of [chunk_text]:
    the sentences appended and the buffer left when the loop ends.  [fuel]
    bounds the iterations; [None] means it is used up before the loop
    ends. *)
Fixpoint loop (fuel : nat) (min_sentence_length : Z) (buffer : str)
  : option (list str * str) :=
  match fuel with
  | O => None
  | S fuel' =>
      if _has_sentence_boundary buffer then
        let sentence := _extract_sentence min_sentence_length buffer in
        if truthy sentence && (min_sentence_length <=? len sentence)%Z then
          match loop fuel' min_sentence_length
                  (lstrip (drop (List.length sentence) buffer)) with
          | Some (sentences, rest) => Some (sentence :: sentences, rest)
          | None => None
          end
        else Some ([], buffer)
      else Some ([], buffer)
  end.

(** [chunk_text] *)
Definition chunk_text (fuel : nat) (min_sentence_length : Z) (text : str)
  : option (list str) :=
  match loop fuel min_sentence_length text with
  | Some (sentences, buffer) =>
      Some (if truthy (strip buffer) then sentences ++ [strip buffer]
            else sentences)
  | None => None
  end.

End ChunkerSync.

Module ChunkerFixedSync.

Import ChunkerFixed.

(** The loop [while True] of [chunk_text], left by [break] when
    [_extract_sentences] gives at most one fragment. *)
Fixpoint loop (fuel : nat) (min_sentence_length : Z) (buffer : str)
  : option (list str * str) :=
  match fuel with
  | O => None
  | S fuel' =>
      let extracted := _extract_sentences min_sentence_length buffer in
      if (List.length extracted <=? 1)%nat then Some ([], buffer)
      else
        let sentence := hd [] extracted in
        match loop fuel' min_sentence_length
                (lstrip (drop (List.length sentence) buffer)) with
        | Some (sentences, rest) =>
            Some ((if long_enough min_sentence_length sentence
                   then [sentence] else []) ++ sentences, rest)
        | None => None
        end
  end.

(** [chunk_text] *)
Definition chunk_text (fuel : nat) (min_sentence_length : Z) (text : str)
  : option (list str) :=
  match loop fuel min_sentence_length text with
  | Some (sentences, buffer) =>
      Some (match strip buffer with
            | [] => sentences
            | final => sentences ++ [final]
            end)
  | None => None
  end.

End ChunkerFixedSync.

(* ------------------------------------------------------------------ *)
(** ** Vocabulary for the sentences a chunker gives *)

Module Sentences.

(** No whitespace at either end. *)
Definition trimmed (s : str) : Prop := lstrip s = s /\ rstrip s = s.

(** The last character is a sentence terminator. *)
Definition terminated (s : str) : Prop :=
  exists before c, s = before ++ [c] /\ ChunkerFixed.is_terminator c = true.

(** A sentence split off at a boundary: trimmed and terminated. *)
Definition complete (s : str) : Prop := trimmed s /\ terminated s.

(** What [chunk_stream] may yield before the stream ends: a complete
    sentence of at least the minimum length. *)
Definition yieldable (min_sentence_length : Z) (s : str) : Prop :=
  complete s /\ (min_sentence_length <= len s)%Z.

(** [sentence] is [text] up to and including one of its terminators,
    without the leading whitespace. *)
Definition cut_of (text sentence : str) : Prop :=
  exists before c rest,
    text = before ++ c :: rest /\
    ChunkerFixed.is_terminator c = true /\
    sentence = lstrip (before ++ [c]).

(** [a] is the beginning of [b]. *)
Definition prefix (a b : list str) : Prop := exists more, b = a ++ more.

(** Nothing but whitespace. *)
Definition blank (ws : str) : Prop := Forall (fun c => isspace c = true) ws.

End Sentences.

(* ------------------------------------------------------------------ *)
(** ** src/core/retry.py : what a run of [retry_async] did *)

Module RetryTrace.

Import Retry.

Section Steps.

Variable T : Type.

(** The arguments of the calls [asyncio.sleep(delay_ms / 1000.0)], in
    order. *)
Fixpoint sleeps (steps : list (Step T)) : list Q :=
  match steps with
  | [] => []
  | Slept _ seconds :: rest => seconds :: sleeps rest
  | _ :: rest => sleeps rest
  end.

(** The arguments of the calls [on_retry(e, attempt + 1)], in order. *)
Fixpoint notifications (steps : list (Step T)) : list (Exn * Z) :=
  match steps with
  | [] => []
  | Notified _ e attempt :: rest => (e, attempt) :: notifications rest
  | _ :: rest => notifications rest
  end.

End Steps.

(** [delay_ms / 1000.0] for the [k] attempts from [first] on. *)
Definition backoff (config : RetryConfig) (random : Z -> Q) (first : Z)
  (k : nat) : list Q :=
  map (fun i => backoff_delay_ms config (random (first + Z.of_nat i)%Z)
                  (first + Z.of_nat i)%Z / 1000)
      (seq 0 k).

(** The attempt numbers [first + 1], [first + 2], ... handed to
    [on_retry]. *)
Definition numbered (first : Z) (k : nat) : list Z :=
  map (fun i => (first + Z.of_nat i + 1)%Z) (seq 0 k).

(** The delay before jitter: [min(initial * base ** attempt, max_delay)]. *)
Definition capped_delay (config : RetryConfig) (attempt : Z) : Q :=
  py_min (initial_delay_ms config * exponential_base config ^ attempt)
         (max_delay_ms config).

End RetryTrace.

(* ------------------------------------------------------------------ *)
(** ** src/core/retry.py : calls of [acquire] one after the other *)

Module Bucket.

Import RateLimiter.

(** One call [acquire(amount)]: the time it is entered at and the
    scheduling lags of its suspensions. *)
Record Request := mkRequest {
  entered : Q;
  amount : Z;
  lag : nat -> Q
}.

(** The calls of [requests] in turn on the same limiter, as the lock of
    [acquire] serializes them; [None] when one of them does not return
    within [fuel] passes or divides by a zero rate. *)
Fixpoint serve (fuel : nat) (l : RateLimiter) (requests : list Request)
  : option RateLimiter :=
  match requests with
  | [] => Some l
  | r :: rest =>
      match acquire fuel (lag r) 0 l (entered r) (amount r) with
      | Some (Done l' _ _) => serve fuel l' rest
      | _ => None
      end
  end.

(** The tokens handed out to [requests]. *)
Definition granted (requests : list Request) : Z :=
  fold_right Z.add 0%Z (map amount requests).

End Bucket.

(* ------------------------------------------------------------------ *)
(** ** src/audio/normalize.py : samples and PCM bytes *)

Module Pcm.

Import Audio.

(** The value of a byte, 0..255, and the byte of value [v mod 256]. *)
Definition byte_value (b : Byte.byte) : Z := Z.of_N (Byte.to_N b).

Definition byte_of (v : Z) : Byte.byte :=
  match Byte.of_N (Z.to_N (v mod 256)) with
  | Some b => b
  | None => Byte.x00
  end.

(** [struct.unpack('<' + 'h' * count, data)] on a buffer of [2 * count]
    bytes: little-endian signed 16-bit integers. *)
Fixpoint unpack_h (pcm_data : list Byte.byte) : list Z :=
  match pcm_data with
  | low :: high :: rest =>
      let u := (byte_value low + 256 * byte_value high)%Z in
      (if (u <? 32768)%Z then u else u - 65536)%Z :: unpack_h rest
  | _ => []
  end.

(** [struct.pack('<' + 'h' * len(values), *values)]; [None] is the
    [struct.error] raised for a value outside -32768..32767. *)
Fixpoint pack_h (values : list Z) : option (list Byte.byte) :=
  match values with
  | [] => Some []
  | v :: rest =>
      if ((-32768 <=? v) && (v <=? 32767))%Z then
        match pack_h rest with
        | Some bytes => Some (byte_of v :: byte_of (v / 256) :: bytes)
        | None => None
        end
      else None
  end.

(** How [_parse_pcm_samples] fails: [struct.error] ("unpack requires a
    buffer of [required] bytes") or the [AudioFormatError] of its last
    line. *)
Inductive PcmFailure :=
| StructError (required : Z)
| UnsupportedBits (bits_per_sample : Z).

(** [_parse_pcm_samples] *)
Definition _parse_pcm_samples (pcm_data : list Byte.byte)
  (bits_per_sample : Z) : PcmFailure + list Q :=
  let size := Z.of_nat (List.length pcm_data) in
  if (bits_per_sample =? 16)%Z then
    if (2 * (size / 2) =? size)%Z
    then inr (map (fun s => inject_Z s / 32768) (unpack_h pcm_data))
    else inl (StructError (2 * (size / 2)))
  else if (bits_per_sample =? 8)%Z then
    inr (map (fun b => inject_Z (byte_value b - 128) / 128) pcm_data)
  else inl (UnsupportedBits bits_per_sample).

(** [str(n)] for an int. *)
Definition str_of_int (n : Z) : string :=
  NilZero.string_of_int (Z.to_int n).

(** The exception a failure of [_parse_pcm_samples] is, as
    [normalize_for_whisper] sees it. *)
Definition failure_of (f : PcmFailure) : ParseFailure :=
  match f with
  | StructError required =>
      OtherException
        ("unpack requires a buffer of " ++ str_of_int required ++ " bytes")
  | UnsupportedBits bits_per_sample =>
      BadFormat ("Unsupported bits_per_sample: " ++ str_of_int bits_per_sample)
  end.

(** [_parse_audio_to_samples]; reading the WAV container with the [wave]
    module is a parameter. *)
Definition _parse_audio_to_samples
  (_parse_wav_samples : list Byte.byte -> Z -> ParseFailure + list Q)
  (audio : AudioData) (bits_per_sample : Z) : ParseFailure + list Q :=
  if is_wav (format audio)
  then _parse_wav_samples (data audio) bits_per_sample
  else
    match _parse_pcm_samples (data audio) bits_per_sample with
    | inl f => inl (failure_of f)
    | inr samples => inr samples
    end.

(** [max(a, b)]: the first argument unless the second is greater. *)
Definition py_max (a b : Q) : Q := if Qlt_bool a b then b else a.

(** [max(-1.0, min(1.0, s))] *)
Definition clamp (s : Q) : Q := py_max (-1) (Retry.py_min 1 s).

Section Floats.

(** Float arithmetic rounds.  [round_float x] is the double nearest to the
    rational [x], so that the float product [a * b] is
    [round_float (a * b)]; [float_sum values] is what [sum(values)] gives
    for a list of floats and [float_div a b] what [a / b] gives. *)
Variable round_float : Q -> Q.
Variable float_sum : list Q -> Q.
Variable float_div : Q -> Q -> Q.

(** [int(max(-1.0, min(1.0, s)) * 32767)]: the product is rounded to a
    float, which [int] truncates. *)
Definition quantize (s : Q) : Z :=
  RateLimiter.py_int (round_float (clamp s * 32767)).

(** The PCM bytes [_samples_to_wav] hands to the [wave] module. *)
Definition pcm_bytes (samples : list Q) : option (list Byte.byte) :=
  pack_h (map quantize samples).

(** The slices [samples[i:i+channels]] for [i] in
    [range(0, len(samples), channels)], for a positive step. *)
Fixpoint frames (fuel : nat) (channels : nat) (samples : list Q)
  : list (list Q) :=
  match fuel with
  | O => []
  | S fuel' =>
      match samples with
      | [] => []
      | _ => firstn channels samples
             :: frames fuel' channels (skipn channels samples)
      end
  end.

(** [sum(frame_samples) / len(frame_samples)] *)
Definition frame_mean (frame_samples : list Q) : Q :=
  float_div (float_sum frame_samples)
            (inject_Z (Z.of_nat (List.length frame_samples))).

(** [_convert_to_mono]; [None] is the [ValueError] of [range] for a zero
    step, and a negative step gives an empty range. *)
Definition _convert_to_mono (samples : list Q) (channels : Z)
  : option (list Q) :=
  if (channels =? 0)%Z then None
  else if (channels <? 0)%Z then Some []
  else
    Some (map frame_mean
              (frames (List.length samples) (Z.to_nat channels) samples)).

End Floats.

(** A coarse rounding for examples: to the nearest multiple of 1/8, a
    half going up. *)
Definition round_to_eighths (x : Q) : Q :=
  inject_Z (Qfloor (x * 8 + (1 # 2))) / 8.

(** A rounding never reorders two numbers, and leaves the integers a 16-bit
    sample can be as they are; the rounding of floats does both. *)
Definition monotone (round_float : Q -> Q) : Prop :=
  forall x y, x <= y -> round_float x <= round_float y.

Definition exact_on_samples (round_float : Q -> Q) : Prop :=
  forall n, (-32767 <= n <= 32767)%Z ->
    round_float (inject_Z n) == inject_Z n.

End Pcm.

(* ------------------------------------------------------------------ *)
(** ** src/llm/claude_api.py : a conversation, turn after turn *)

Module Conversation.

Import ClaudeAPI.

(** One call of [query_stream] consumed to its end: the text asked and what
    the API streams. *)
Definition Turn := (str * (list str * option Exn))%type.

Definition completed (t : Turn) : Prop := snd (snd t) = None.

(** The history the calls of [turns] leave, from [history]. *)
Definition converse (history : list Message) (turns : list Turn)
  : list Message :=
  fold_left (fun h t => fst (fst (query_stream h (fst t) (snd t))))
            turns history.

(** The two entries a completed turn appends. *)
Definition exchange (t : Turn) : list Message :=
  [(user, fst t); (assistant, List.concat (fst (snd t)))].

(** [b] ends with [a]. *)
Definition suffix (a b : list Message) : Prop := exists before, b = before ++ a.

End Conversation.

(* ------------------------------------------------------------------ *)
(** ** src/core/pipeline.py : segmenters that never revise a yield *)

Module Streams.

Import Pipeline.

(** Consuming a stream in two parts, the second from the buffer the first
    leaves, yields what consuming it in one go yields. *)
Definition incremental (chunker : Segmenter) : Prop :=
  forall (buffer : str) (first second : list str),
    consume_tokens buffer (first ++ second) =
    (fst (consume_tokens buffer first)
     ++ fst (consume_tokens (snd (consume_tokens buffer first)) second),
     snd (consume_tokens (snd (consume_tokens buffer first)) second)).

(** The entries one run of [process_text] adds between its first and its
    last: the chunker's, when it has the observer. *)
Definition announced (chunker_observed : bool) (emissions : list Emission)
  : list Events.Entry :=
  if chunker_observed then map entry_of emissions else [].

End Streams.

(* ------------------------------------------------------------------ *)
(** ** src/core/events.py : string kinds and the latency breakdown *)

Module Latency.

Import Events.

(** [member.value] *)
Definition value (member : EventType) : string :=
  match member with
  | AUDIO_CAPTURE_START => "audio_capture_start"
  | AUDIO_CAPTURE_COMPLETE => "audio_capture_complete"
  | STT_START => "stt_start"
  | STT_COMPLETE => "stt_complete"
  | STT_ERROR => "stt_error"
  | LLM_QUERY_START => "llm_query_start"
  | LLM_TOKEN_RECEIVED => "llm_token_received"
  | LLM_COMPLETE => "llm_complete"
  | LLM_ERROR => "llm_error"
  | SENTENCE_READY => "sentence_ready"
  | TTS_START => "tts_start"
  | TTS_COMPLETE => "tts_complete"
  | TTS_ERROR => "tts_error"
  | PIPELINE_START => "pipeline_start"
  | PIPELINE_COMPLETE => "pipeline_complete"
  | PIPELINE_ERROR => "pipeline_error"
  end.

(** The event [emit] builds. *)
Definition event_of (now : Q) (member : EventType)
  (payload : option Payload) : PipelineEvent :=
  mkEvent now member (match payload with Some d => d | None => [] end).

(** The stages of [get_latency_breakdown]: name, start type, end type. *)
Definition pairs : list (string * EventType * EventType) :=
  [("stt", STT_START, STT_COMPLETE);
   ("llm_first_token", LLM_QUERY_START, LLM_TOKEN_RECEIVED);
   ("llm_total", LLM_QUERY_START, LLM_COMPLETE);
   ("tts", TTS_START, TTS_COMPLETE);
   ("pipeline_total", PIPELINE_START, PIPELINE_COMPLETE)]%string.

(** [events[-1].timestamp] of a non-empty list. *)
Definition last_timestamp (events : list PipelineEvent) : Q :=
  match rev events with
  | e :: _ => timestamp e
  | [] => 0
  end.

(** One pass through the loop of [get_latency_breakdown]: the entry added
    to the dictionary, if one is. *)
Definition stage (o : InMemoryEventObserver)
  (pair : string * EventType * EventType) : list (string * Q) :=
  let '(name, start_type, end_type) := pair in
  let start_events := get_events_by_type o start_type in
  let end_events := get_events_by_type o end_type in
  match start_events, end_events with
  | _ :: _, _ :: _ =>
      [(name, (last_timestamp end_events - last_timestamp start_events) * 1000)]
  | _, _ => []
  end.

(** [get_latency_breakdown]: the dictionary in insertion order (the stage
    names are distinct). *)
Definition get_latency_breakdown (o : InMemoryEventObserver)
  : list (string * Q) :=
  flat_map (stage o) pairs.

End Latency.

(* ------------------------------------------------------------------ *)
(** ** src/stt/whisper.py : the caller of [retry_async] and [RateLimiter] *)

Module Whisper.

Import Retry.

Definition DEFAULT_RATE_LIMIT : Q := 50 / 60.

(** [rate_limit_per_second or self.DEFAULT_RATE_LIMIT] *)
Definition rate_of (rate_limit_per_second : option Q) : Q :=
  match rate_limit_per_second with
  | Some r => if Qeq_bool r 0 then DEFAULT_RATE_LIMIT else r
  | None => DEFAULT_RATE_LIMIT
  end.

(** [self._rate_limiter], built by [__init__] at time [created]. *)
Definition rate_limiter (rate_limit_per_second : option Q) (created : Q)
  : RateLimiter.RateLimiter :=
  RateLimiter.new (rate_of rate_limit_per_second) None created.

(** The classes of audio/exceptions.py that [_transcribe_api_call] raises,
    with their base classes, nearest first. *)
Definition own_classes : list (string * list string) :=
  [("WhisperRateLimitError",
    ["WhisperRateLimitError"; "WhisperAPIError"; "STTError";
     "AudioPipelineError"; "Exception"; "BaseException"; "object"]);
   ("WhisperAuthenticationError",
    ["WhisperAuthenticationError"; "WhisperAPIError"; "STTError";
     "AudioPipelineError"; "Exception"; "BaseException"; "object"]);
   ("WhisperAPIError",
    ["WhisperAPIError"; "STTError"; "AudioPipelineError"; "Exception";
     "BaseException"; "object"]);
   ("WhisperTimeoutError",
    ["WhisperTimeoutError"; "STTError"; "AudioPipelineError"; "Exception";
     "BaseException"; "object"])]%string.

Fixpoint lookup (name : str) (table : list (string * list string))
  : option (list string) :=
  match table with
  | [] => None
  | (n, bases) :: rest =>
      if eqb_str name (py n) then Some bases else lookup name rest
  end.

Section ApiCall.

(** The classes an exception of a class defined elsewhere is an instance
    of, by the name of its class; and how a float is printed. *)
Variable foreign_mro : str -> list string.
Variable str_of_float : Q -> string.

(** [isinstance(e, class)], classes being told apart by their names. *)
Definition isinstance (e : Exn) (class : string) : bool :=
  existsb (String.eqb class)
          (match lookup (exn_type e) own_classes with
           | Some bases => bases
           | None => foreign_mro (exn_type e)
           end).

Definition authentication_error : Exn :=
  mkExn (py "WhisperAuthenticationError") (py "Invalid OpenAI API key") true.

(** [WhisperRateLimitError(retry_seconds)] *)
Definition rate_limit_error (retry_after_seconds : option Q) : Exn :=
  mkExn (py "WhisperRateLimitError")
        (py ("Whisper API rate limit exceeded" ++
             match retry_after_seconds with
             | Some s =>
                 if Qeq_bool s 0 then EmptyString
                 else " (retry after " ++ str_of_float s ++ "s)"
             | None => EmptyString
             end))
        true.

Definition api_error (message : str) : Exn :=
  mkExn (py "WhisperAPIError") message true.

Definition timeout_error (timeout_seconds : Q) : Exn :=
  mkExn (py "WhisperTimeoutError")
        (py ("Request timed out after " ++ str_of_float timeout_seconds
             ++ "s"))
        true.

(** What one HTTP exchange does: an answer with its status, its
    [Retry-After] header as a number, its body and the ["text"] field of its
    JSON; or an exception raised while posting or reading. *)
Inductive Exchange :=
| Answered (status : Z) (retry_after : option Q) (error_text : str)
    (text : option str)
| Failed (e : Exn).

(** [_transcribe_api_call] *)
Definition _transcribe_api_call (timeout_seconds : Q) (x : Exchange)
  : Outcome str :=
  match x with
  | Answered status retry_after error_text text =>
      if (status =? 401)%Z then Raised authentication_error
      else if (status =? 429)%Z then Raised (rate_limit_error retry_after)
      else if (400 <=? status)%Z then
        Raised (api_error (py ("API error " ++ Pcm.str_of_int status ++ ": ")
                           ++ error_text))
      else Returned (strip (match text with Some t => t | None => [] end))
  | Failed e =>
      if isinstance e "TimeoutError" then Raised (timeout_error timeout_seconds)
      else if isinstance e "WhisperAPIError"
              || isinstance e "WhisperAuthenticationError"
              || isinstance e "WhisperRateLimitError"
              || isinstance e "WhisperTimeoutError"
      then Raised e
      else if isinstance e "ClientError" then
        Raised (api_error (py "HTTP client error: " ++ exn_str e))
      else Raised e
  end.

(** [retryable_exceptions] of the call of [retry_async] in [transcribe]. *)
Definition retryable (e : Exn) : bool :=
  isinstance e "ClientError" || isinstance e "TimeoutError"
  || isinstance e "WhisperRateLimitError".

(** The call [retry_async(self._transcribe_api_call, ...)] of [transcribe]:
    the [n]-th exchange is [exchanges n], the bound method has its
    [__name__], the exceptions of the exchange have their [str], and the
    callback only logs. *)
Definition transcribe_with_retry (config : RetryConfig) (random : Z -> Q)
  (timeout_seconds : Q) (exchanges : nat -> Exchange) (n : nat)
  : Attempted str nat :=
  retry_async
    (fun n => (_transcribe_api_call timeout_seconds (exchanges n), S n))
    (Returned (py "_transcribe_api_call")) (fun _ => None)
    retryable (Some (fun _ _ => None)) random config n.

End ApiCall.

End Whisper.

(* ================================================================== *)
(** * Properties *)

Unset Implicit Arguments.

(** ** Text *)

Lemma erase_ws_app (a b : str) : erase_ws (a ++ b) = erase_ws a ++ erase_ws b.
Proof. apply filter_app. Qed.

Lemma erase_ws_lstrip (s : str) : erase_ws (lstrip s) = erase_ws s.
Proof.
  induction s as [|c s IH]; simpl; [reflexivity|].
  destruct (isspace c) eqn:E; simpl.
  - exact IH.
  - rewrite E. reflexivity.
Qed.

Lemma erase_ws_rstrip (s : str) : erase_ws (rstrip s) = erase_ws s.
Proof.
  unfold rstrip, erase_ws.
  rewrite filter_rev.
  fold (erase_ws (lstrip (rev s))).
  rewrite erase_ws_lstrip. unfold erase_ws.
  rewrite filter_rev, rev_involutive. reflexivity.
Qed.

Lemma erase_ws_strip (s : str) : erase_ws (strip s) = erase_ws s.
Proof. unfold strip. now rewrite erase_ws_rstrip, erase_ws_lstrip. Qed.

Lemma concat_snoc (l : list str) (x : str) :
  List.concat (l ++ [x]) = List.concat l ++ x.
Proof. rewrite concat_app. simpl. now rewrite app_nil_r. Qed.

Lemma concat_chars (s : str) : List.concat (chars s) = s.
Proof. induction s as [|c s IH]; simpl; [reflexivity | now rewrite IH]. Qed.

Lemma subseq_refl (a : str) : subseq a a.
Proof. induction a; constructor; assumption. Qed.

Lemma subseq_app (a b c d : str) :
  subseq a b -> subseq c d -> subseq (a ++ c) (b ++ d).
Proof.
  intros Hab Hcd. induction Hab; simpl; [exact Hcd | |];
    constructor; assumption.
Qed.

Lemma subseq_trans (a b c : str) : subseq a b -> subseq b c -> subseq a c.
Proof.
  intros Hab Hbc. revert a Hab.
  induction Hbc as [|x b c Hbc IH|x b c Hbc IH]; intros a Hab.
  - exact Hab.
  - inversion Hab; subst; constructor; apply IH; assumption.
  - constructor. apply IH. exact Hab.
Qed.

Lemma subseq_erase_ws (a b : str) :
  subseq a b -> subseq (erase_ws a) (erase_ws b).
Proof.
  intros H. induction H as [|c a b H IH|c a b H IH]; simpl.
  - constructor.
  - destruct (isspace c); simpl; [exact IH | constructor; exact IH].
  - destruct (isspace c); simpl; [exact IH | constructor; exact IH].
Qed.

(** Dropping whole sentences deletes characters and does nothing else. *)
Lemma subseq_concat_filter (keep : str -> bool) (l : list str) :
  subseq (List.concat (filter keep l)) (List.concat l).
Proof.
  induction l as [|s l IH]; simpl; [constructor|].
  destruct (keep s); simpl.
  - apply subseq_app; [apply subseq_refl | exact IH].
  - change (List.concat (filter keep l))
      with ([] ++ List.concat (filter keep l)).
    apply subseq_app; [|exact IH].
    clear. induction s; constructor; assumption.
Qed.

Create Rewrite HintDb text.
#[global] Hint Rewrite erase_ws_app erase_ws_strip concat_snoc app_nil_r
  : text.

(** ** chunker_fixed.py : nothing but whitespace is lost by the scan *)

Module ChunkerFixedFacts.

Import ChunkerFixed.

Lemma scan_keeps_text m text rest :
  forall sentences current,
    erase_ws (List.concat (fst (scan m text rest sentences current))
              ++ snd (scan m text rest sentences current))
    = erase_ws (List.concat sentences ++ current ++ rest).
Proof.
  induction rest as [|c rest IH]; intros sentences current; simpl.
  - now rewrite app_nil_r.
  - assert (Hkeep :
      erase_ws (List.concat sentences ++ (current ++ [c]) ++ rest)
      = erase_ws (List.concat sentences ++ current ++ c :: rest)).
    { now rewrite <- (app_assoc current [c] rest). }
    destruct (is_terminator c && (m <=? len (current ++ [c]))%Z);
      [|rewrite IH; exact Hkeep].
    destruct (peek_ok _); [|rewrite IH; exact Hkeep].
    destruct (_is_false_boundary _); simpl; [rewrite IH; exact Hkeep|].
    rewrite IH, <- Hkeep. simpl.
    autorewrite with text. now rewrite <- !app_assoc.
Qed.

Lemma extract_keeps_text m text :
  erase_ws (List.concat (_extract_sentences m text)) = erase_ws text.
Proof.
  unfold _extract_sentences.
  destruct text as [|c text]; [reflexivity|].
  destruct (keeps_buffering (c :: text)).
  - simpl. now rewrite app_nil_r.
  - pose proof (scan_keeps_text m (c :: text) (c :: text) [] []) as H.
    destruct (scan m (c :: text) (c :: text) [] []) as [sentences current].
    simpl fst in H; simpl snd in H.
    change (List.concat [] ++ [] ++ c :: text) with (c :: text) in H.
    destruct current as [|d current].
    + rewrite app_nil_r in H.
      destruct sentences; [simpl; now rewrite app_nil_r | exact H].
    + destruct sentences as [|s sentences].
      * simpl. simpl in H. now rewrite app_nil_r.
      * change ((s :: sentences) ++ [d :: current])
          with (((s :: sentences) ++ [d :: current])).
        rewrite <- app_comm_cons.
        change (s :: sentences ++ [d :: current])
          with ((s :: sentences) ++ [d :: current]).
        rewrite concat_snoc. exact H.
Qed.

Lemma filter_none_withheld m (l : list str) :
  filter (fun s => negb (long_enough m s)) l = [] ->
  filter (long_enough m) l = l.
Proof.
  induction l as [|s l IH]; simpl; [reflexivity|].
  destruct (long_enough m s); simpl; [|discriminate].
  intros H. now rewrite IH.
Qed.

Lemma on_token_keeps_text m buffer token :
  withheld m buffer token = [] ->
  erase_ws (List.concat (fst (on_token m buffer token))
            ++ snd (on_token m buffer token))
  = erase_ws (buffer ++ token).
Proof.
  unfold withheld, on_token. intros Hnone.
  pose proof (extract_keeps_text m (buffer ++ token)) as Hk.
  destruct (_extract_sentences m (buffer ++ token)) as [|s l] eqn:E.
  - reflexivity.
  - cbn [fst snd].
    rewrite (filter_none_withheld _ _ Hnone).
    rewrite <- Hk.
    rewrite (app_removelast_last (l := s :: l) []) at 3 by discriminate.
    unfold but_last, last_or.
    rewrite concat_app. simpl. now rewrite app_nil_r.
Qed.

Lemma on_token_deletes_only m buffer token :
  subseq (erase_ws (List.concat (fst (on_token m buffer token))
                    ++ snd (on_token m buffer token)))
         (erase_ws (buffer ++ token)).
Proof.
  unfold on_token.
  pose proof (extract_keeps_text m (buffer ++ token)) as Hk.
  destruct (_extract_sentences m (buffer ++ token)) as [|s l] eqn:E.
  - apply subseq_refl.
  - cbn [fst snd]. rewrite <- Hk.
    rewrite (app_removelast_last (l := s :: l) []) at 3 by discriminate.
    unfold but_last, last_or. rewrite concat_snoc.
    apply subseq_erase_ws, subseq_app;
      [apply subseq_concat_filter | apply subseq_refl].
Qed.

Lemma consume_deletes_only m tokens :
  forall buffer,
    subseq (erase_ws (List.concat (fst (consume m buffer tokens))
                      ++ snd (consume m buffer tokens)))
           (erase_ws (buffer ++ List.concat tokens)).
Proof.
  induction tokens as [|token rest IH]; intros buffer; simpl.
  - rewrite app_nil_r. apply subseq_refl.
  - pose proof (on_token_deletes_only m buffer token) as Hstep.
    destruct (on_token m buffer token) as [ys buffer'].
    specialize (IH buffer').
    destruct (consume m buffer' rest) as [zs final].
    cbn [fst snd] in *.
    rewrite concat_app, <- app_assoc, erase_ws_app.
    apply subseq_trans
      with (erase_ws (List.concat ys) ++ erase_ws (buffer' ++ List.concat rest)).
    + apply subseq_app; [apply subseq_refl | exact IH].
    + rewrite <- erase_ws_app, app_assoc, erase_ws_app.
      rewrite (app_assoc buffer token), (erase_ws_app (buffer ++ token)).
      apply subseq_app; [exact Hstep | apply subseq_refl].
Qed.

Lemma consume_keeps_text m tokens :
  forall buffer,
    nothing_withheld m buffer tokens = true ->
    erase_ws (List.concat (fst (consume m buffer tokens))
              ++ snd (consume m buffer tokens))
    = erase_ws (buffer ++ List.concat tokens).
Proof.
  induction tokens as [|token rest IH]; intros buffer H; simpl.
  - now rewrite app_nil_r.
  - simpl in H.
    destruct (withheld m buffer token) eqn:W; [|discriminate].
    pose proof (on_token_keeps_text m buffer token W) as Hstep.
    destruct (on_token m buffer token) as [ys buffer'] eqn:E.
    simpl in H, Hstep.
    specialize (IH buffer' H).
    destruct (consume m buffer' rest) as [zs final].
    simpl in IH |- *.
    rewrite concat_app, <- app_assoc, erase_ws_app, IH.
    rewrite <- erase_ws_app, app_assoc, erase_ws_app, Hstep.
    rewrite <- erase_ws_app, <- app_assoc. reflexivity.
Qed.

End ChunkerFixedFacts.

(** ** The segmenter: reconstruction, exclusions *)

Module SegmenterFacts.

Import ChunkerFixed ChunkerFixedFacts Props.

(** Whatever the tokens, the sentences [chunk_stream] emits are made of
    non-whitespace characters of the input in their original order, none
    repeated. *)
Lemma emitted_text_is_kept (m : Z) (tokens : list str) :
  subseq (erase_ws (List.concat (chunk_stream m tokens)))
         (erase_ws (List.concat tokens)).
Proof.
  unfold chunk_stream.
  pose proof (consume_deletes_only m tokens []) as Hsub.
  destruct (consume m [] tokens) as [ys buffer].
  cbn [fst snd] in Hsub. simpl in Hsub.
  assert (Hb : erase_ws (strip buffer) = erase_ws buffer)
    by apply erase_ws_strip.
  destruct (strip buffer) as [|c final].
  - replace (erase_ws (List.concat ys))
      with (erase_ws (List.concat ys ++ buffer))
      by (rewrite erase_ws_app, <- Hb; apply app_nil_r).
    exact Hsub.
  - rewrite concat_snoc.
    replace (erase_ws (List.concat ys ++ c :: final))
      with (erase_ws (List.concat ys ++ buffer))
      by (now rewrite !erase_ws_app, Hb).
    exact Hsub.
Qed.


Lemma scan_grows m text rest :
  forall sentences current,
    exists more,
      fst (scan m text rest sentences current) = sentences ++ more.
Proof.
  induction rest as [|c rest IH]; intros sentences current; simpl.
  - exists []. now rewrite app_nil_r.
  - destruct (is_terminator c && (m <=? len (current ++ [c]))%Z);
      [|apply IH].
    destruct (peek_ok _); [|apply IH].
    destruct (_is_false_boundary _); simpl; [apply IH|].
    destruct (IH (sentences ++ [strip (current ++ [c])]) []) as [more E].
    exists (strip (current ++ [c]) :: more).
    rewrite E, <- app_assoc. reflexivity.
Qed.

Lemma len_nonneg (s : str) : (0 <=? len s)%Z = true.
Proof. unfold len. apply Z.leb_le. lia. Qed.

(** A scan that finds no boundary without a length requirement finds none
    with one. *)
Lemma scan_quiet_any_min text rest :
  forall current,
    scan 0 text rest [] current = ([], current ++ rest) ->
    forall m, scan m text rest [] current = ([], current ++ rest).
Proof.
  induction rest as [|c rest IH]; intros current H m; simpl in *.
  - exact H.
  - rewrite len_nonneg, andb_true_r in H.
    replace (current ++ c :: rest) with ((current ++ [c]) ++ rest) in *
      by now rewrite <- app_assoc.
    destruct (is_terminator c); simpl; [|now apply IH].
    destruct (peek_ok _).
    + destruct (_is_false_boundary _); simpl in *.
      * destruct (m <=? len (current ++ [c]))%Z; now apply IH.
      * exfalso.
        destruct (scan_grows 0 text rest [strip (current ++ [c])] [])
          as [more E].
        rewrite H in E. discriminate E.
    + destruct (m <=? len (current ++ [c]))%Z; now apply IH.
Qed.

Lemma eqb_str_eq (a b : str) : eqb_str a b = true -> a = b.
Proof. unfold eqb_str. destruct (list_eq_dec ascii_dec a b); easy. Qed.

Lemma quiet_extract (m : Z) (text : str) :
  quiet text = true -> text <> [] -> _extract_sentences m text = [text].
Proof.
  unfold quiet, _extract_sentences.
  destruct text as [|c text]; [easy|]. intros H _.
  destruct (keeps_buffering (c :: text)); [reflexivity|].
  cbn [orb] in H.
  destruct (scan 0 (c :: text) (c :: text) [] []) as [s0 c0] eqn:E.
  destruct s0; [|discriminate H].
  apply eqb_str_eq in H. subst c0.
  rewrite (scan_quiet_any_min (c :: text) (c :: text) [] E m).
  reflexivity.
Qed.

Lemma take_prefix (p q : str) : take (List.length p) (p ++ q) = p.
Proof.
  unfold take. rewrite firstn_app, Nat.sub_diag, firstn_all. simpl.
  apply app_nil_r.
Qed.

Lemma prefix_quiet (p q : str) :
  prefixes_quiet (p ++ q) = true -> quiet p = true.
Proof.
  unfold prefixes_quiet. intros H.
  rewrite forallb_forall in H.
  specialize (H (List.length p)).
  rewrite take_prefix in H. apply H.
  apply in_seq. rewrite length_app. lia.
Qed.

Lemma consume_quiet (m : Z) (text : str) :
  prefixes_quiet text = true ->
  forall tokens buffer,
    buffer ++ List.concat tokens = text ->
    consume m buffer tokens = ([], text).
Proof.
  intros Hq. induction tokens as [|token rest IH]; intros buffer E; simpl.
  - simpl in E. rewrite app_nil_r in E. now subst.
  - simpl in E. rewrite app_assoc in E.
    assert (Hstep : on_token m buffer token = ([], buffer ++ token)).
    { unfold on_token.
      destruct (buffer ++ token) as [|c p] eqn:Ep; [reflexivity|].
      rewrite quiet_extract; [reflexivity | | discriminate].
      apply (prefix_quiet (c :: p) (List.concat rest)).
      now rewrite E. }
    rewrite Hstep, (IH _ E). reflexivity.
Qed.

Lemma unsplit (m : Z) (text : str) (tokens : list str) :
  prefixes_quiet text = true ->
  strip text = text ->
  text <> [] ->
  List.concat tokens = text ->
  chunk_stream m tokens = [text].
Proof.
  intros Hq Hs Hn E. unfold chunk_stream.
  rewrite (consume_quiet m text Hq tokens [] E), Hs.
  destruct text; [easy | reflexivity].
Qed.

(** C2 (as amended).  However the text is cut into tokens and whatever the
    minimum sentence length, [chunk_stream] of chunker_fixed.py emits each of
    "The value is 3.14. Next sentence.", "Visit www.example.com. Done.",
    "Dr. Smith arrived." and "Wait... then go." as one sentence: nothing is
    split at "3.14", inside the URL, at "Dr." or at the first dots of the
    ellipsis. *)
Theorem exclusion_correctness (m : Z) (tokens : list str) (text : str) :
  In text [decimal_text; url_text; abbreviation_text; ellipsis_text] ->
  List.concat tokens = text ->
  chunk_stream m tokens = [text].
Proof.
  intros Hin E.
  apply unsplit; trivial;
    simpl in Hin;
    repeat (destruct Hin as [<- | Hin]; [vm_compute; easy|]);
    destruct Hin.
Qed.

Lemma exclusion_correctness_witness :
  In decimal_text [decimal_text; url_text; abbreviation_text; ellipsis_text]
  /\ List.concat (chars decimal_text) = decimal_text
  /\ chunk_stream 10 (chars decimal_text) = [decimal_text].
Proof.
  assert (Hin : In decimal_text
            [decimal_text; url_text; abbreviation_text; ellipsis_text])
    by (left; reflexivity).
  assert (E : List.concat (chars decimal_text) = decimal_text)
    by (vm_compute; reflexivity).
  exact (conj Hin
           (conj E (exclusion_correctness 10 (chars decimal_text)
                     decimal_text Hin E))).
Defined.

(** C2 as stated fails for the chunker of chunker.py, which knows
    abbreviations only.  At its default minimum length it splits the
    decimal between "3." and "14" and the URL after "www."; with minimum
    length 5 it splits the ellipsis after its first dot.  It leaves
    "Dr. Smith arrived." whole, and so it does the ellipsis at the default
    minimum. *)
Lemma basic_chunker_splits :
  (Chunker.chunk_stream 10 (chars decimal_text)
   = map py ["The value is 3."; "14. Next sentence."]%string /\
   splits_between (Chunker.chunk_stream 10 (chars decimal_text))
                  (py "3.") (py "14") = true) /\
  (Chunker.chunk_stream 10 (chars url_text)
   = map py ["Visit www."; "example.com."; "Done."]%string /\
   splits_between (Chunker.chunk_stream 10 (chars url_text))
                  (py "www.") (py "example.com") = true) /\
  (Chunker.chunk_stream 5 (chars ellipsis_text)
   = map py ["Wait."; ".. then go."]%string /\
   splits_between (Chunker.chunk_stream 5 (chars ellipsis_text))
                  (py "Wait.") (py "..") = true) /\
  Chunker.chunk_stream 10 (chars abbreviation_text) = [abbreviation_text] /\
  Chunker.chunk_stream 10 (chars ellipsis_text) = [ellipsis_text].
Proof.
  repeat split; vm_compute; reflexivity.
Qed.

(** With minimum length 6 the sentence "Fine." is split off and withheld:
    the text loses it. *)
Lemma short_sentence_withheld :
  nothing_withheld 6 [] (chars (py "Hello there. Fine. Next one.")) = false /\
  chunk_stream 6 (chars (py "Hello there. Fine. Next one."))
  = map py ["Hello there."; "Next one."]%string.
Proof. split; vm_compute; reflexivity. Qed.

End SegmenterFacts.

(** ** The end-to-end scenario *)

Module ScenarioFacts.

Import Events Pipeline Props.

(** The sentences the orchestrator receives from a chunker are those of
    the chunker's own [chunk_stream]. *)
Lemma sentences_of_ready (ys : list str) : map sentence_of (map Ready ys) = ys.
Proof. rewrite map_map. simpl. apply map_id. Qed.

Lemma fixed_chunker_emissions (m : Z) (tokens : list str) :
  map sentence_of (chunk_stream (fixed_chunker m) tokens true)
  = ChunkerFixed.chunk_stream m tokens.
Proof.
  unfold chunk_stream, ChunkerFixed.chunk_stream. simpl.
  destruct (ChunkerFixed.consume m [] tokens) as [ys buffer].
  rewrite map_app, sentences_of_ready.
  destruct (strip buffer); simpl; [apply app_nil_r | reflexivity].
Qed.

Lemma basic_chunker_emissions (m : Z) (tokens : list str) :
  map sentence_of (chunk_stream (basic_chunker m) tokens true)
  = Chunker.chunk_stream m tokens.
Proof.
  unfold chunk_stream, Chunker.chunk_stream. simpl.
  destruct (Chunker.consume m [] tokens) as [ys buffer].
  rewrite map_app, sentences_of_ready.
  destruct (strip buffer); simpl; [apply app_nil_r | reflexivity].
Qed.

(** C3 (as amended).  When the text "Hello! How are you? Fine." reaches the
    segmenter of chunker_fixed.py one character per token, with minimum
    sentence length 5, the run yields exactly "Hello!", "How are you?" and
    "Fine." (the last one as the final flush), dispatches synthesis for the
    three in that order, and logs a start, three sentence events and a
    completion, with no failure event. *)
Theorem end_to_end_scenario :
  scenario_holds (fixed_chunker 5) (chars scenario_text) /\
  log (scenario (fixed_chunker 5) (chars scenario_text)) =
    [(PIPELINE_START, [("text", VStr scenario_text)]%string);
     sentence_ready (py "Hello!");
     sentence_ready (py "How are you?");
     sentence_ready_final (py "Fine.");
     (PIPELINE_COMPLETE, [("text", VStr scenario_text)]%string)].
Proof.
  unfold scenario_holds.
  split; [split; [|split; [|split]]|].
  - vm_compute. reflexivity.
  - vm_compute. reflexivity.
  - vm_compute. tauto.
  - vm_compute. reflexivity.
  - vm_compute. reflexivity.
Qed.

(** C3 as stated fails: the outcome depends on how the text is cut into
    tokens and on the chunker.  With the word tokens of the mock generator
    chunker_fixed.py holds "How are you? Fine." back until the final flush,
    and chunker.py yields "? Fine." as its third sentence for both
    tokenizations. *)
Lemma scenario_depends_on_tokens :
  dispatched (scenario (fixed_chunker 5) (MockLLM._tokenize scenario_text))
    = map py ["Hello!"; "How are you? Fine."]%string /\
  ~ scenario_holds (fixed_chunker 5) (MockLLM._tokenize scenario_text) /\
  dispatched (scenario (basic_chunker 5) (chars scenario_text))
    = map py ["Hello!"; "How are you?"; "? Fine."]%string /\
  ~ scenario_holds (basic_chunker 5) (chars scenario_text) /\
  ~ scenario_holds (basic_chunker 5) (MockLLM._tokenize scenario_text).
Proof.
  split; [|split; [|split; [|split]]].
  - vm_compute. reflexivity.
  - intros [H _]. vm_compute in H. discriminate H.
  - vm_compute. reflexivity.
  - intros [H _]. vm_compute in H. discriminate H.
  - intros [H _]. vm_compute in H. discriminate H.
Qed.

End ScenarioFacts.

(** ** The event bus *)

Module EventsFacts.

Import Events Props.

Lemma notify_all_return (event : PipelineEvent) (callbacks : list Callback) :
  forall i,
    (forall callback, In callback callbacks -> callback event = None) ->
    notify i callbacks event = (seq i (List.length callbacks), None).
Proof.
  induction callbacks as [|callback rest IH]; intros i H; simpl.
  - reflexivity.
  - rewrite (H callback) by (left; reflexivity).
    rewrite IH by (intros c Hc; apply H; right; exact Hc).
    reflexivity.
Qed.

Lemma notify_stops_at_first_raise (event : PipelineEvent)
  (before : list Callback) (callback : Callback) (after : list Callback)
  (e : Exn) :
  forall i,
    (forall c, In c before -> c event = None) ->
    callback event = Some e ->
    notify i (before ++ callback :: after) event
    = (seq i (S (List.length before)), Some e).
Proof.
  induction before as [|b before IH]; intros i Hb Hc; simpl.
  - rewrite Hc. reflexivity.
  - rewrite (Hb b) by (left; reflexivity).
    rewrite IH; [reflexivity | | exact Hc].
    intros c Hin. apply Hb. right. exact Hin.
Qed.

(** Either every callback returns, or there is a first one that raises. *)
Lemma first_raise (event : PipelineEvent) (callbacks : list Callback) :
  (forall c, In c callbacks -> c event = None) \/
  exists before callback after e,
    callbacks = before ++ callback :: after /\
    (forall c, In c before -> c event = None) /\
    callback event = Some e.
Proof.
  induction callbacks as [|c rest IH].
  - left. intros c [].
  - destruct (c event) as [e|] eqn:E.
    + right. exists [], c, rest, e. repeat split; [intros ? []| exact E].
    + destruct IH as [Hall | (before & cb & after & e & -> & Hb & Hc)].
      * left. intros c' [<- | Hin]; [exact E | now apply Hall].
      * right. exists (c :: before), cb, after, e.
        repeat split; [|exact Hc].
        intros c' [<- | Hin]; [exact E | now apply Hb].
Qed.

Lemma record_and_notify_fields (now : Q) (o : InMemoryEventObserver)
  (kind : EventType) (payload : option Payload) :
  let event :=
    mkEvent now kind (match payload with Some d => d | None => [] end) in
  let r := record_and_notify now o kind payload in
  observer_after r = mkObserver (events o ++ [event]) (_callbacks o) /\
  called r = fst (notify 0 (_callbacks o) event) /\
  raised r = snd (notify 0 (_callbacks o) event).
Proof.
  cbv zeta. unfold record_and_notify.
  destruct (notify 0 (_callbacks o) _); simpl. auto.
Qed.

(** An observer without listeners only records: this is the log the
    orchestrator model keeps. *)
Lemma emit_without_listeners (now : Q) (o : InMemoryEventObserver)
  (kind : EventType) (payload : Payload) :
  _callbacks o = [] ->
  raised (emit now o (inl kind) (Some payload)) = None /\
  entries (observer_after (emit now o (inl kind) (Some payload)))
  = entries o ++ [(kind, payload)].
Proof.
  intros H. unfold emit, record_and_notify, entries. rewrite H. simpl.
  split; [reflexivity|]. now rewrite map_app.
Qed.

(** C5 (as amended).  [emit] with an [EventType] member appends exactly one
    event, stamped with the current time, before any listener is called,
    and the event stays recorded whatever the listeners do.  The listeners
    are called synchronously in registration order: when all of them return,
    all of them ran and [emit] returns; when one raises, the ones registered
    after it are not called and its exception leaves [emit]. *)
Theorem emit_records_then_notifies (now : Q) (o : InMemoryEventObserver)
  (kind : EventType) (payload : option Payload) :
  let r := emit now o (inl kind) payload in
  let event :=
    mkEvent now kind (match payload with Some d => d | None => [] end) in
  events (observer_after r) = events o ++ [event] /\
  _callbacks (observer_after r) = _callbacks o /\
  ((raised r = None /\
    called r = seq 0 (List.length (_callbacks o)) /\
    forall c, In c (_callbacks o) -> c event = None)
   \/
   exists before callback after e,
     _callbacks o = before ++ callback :: after /\
     (forall c, In c before -> c event = None) /\
     callback event = Some e /\
     raised r = Some e /\
     called r = seq 0 (S (List.length before))).
Proof.
  cbv zeta. unfold emit.
  set (event := mkEvent now kind _).
  destruct (record_and_notify_fields now o kind payload) as (-> & -> & ->).
  fold event.
  split; [reflexivity|]. split; [reflexivity|].
  destruct (first_raise event (_callbacks o))
    as [Hall | (before & cb & after & e & Hsplit & Hb & Hc)].
  - rewrite (notify_all_return event (_callbacks o) 0%nat Hall).
    left. auto.
  - right. exists before, cb, after, e.
    rewrite Hsplit at 2 3.
    rewrite (notify_stops_at_first_raise event before cb after e 0%nat Hb Hc).
    auto.
Qed.

(** C5 as stated fails: with two listeners of which the first raises,
    [emit] raises and the second listener is never called; the event is
    recorded all the same.  A kind that names no [EventType] makes [emit]
    raise before anything is recorded. *)
Lemma emit_is_not_robust :
  ~ robust_emit 0 failing_first PIPELINE_START None /\
  raised (emit 0 failing_first (inl PIPELINE_START) None) = Some boom /\
  called (emit 0 failing_first (inl PIPELINE_START) None) = [0%nat] /\
  List.length
    (events (observer_after (emit 0 failing_first (inl PIPELINE_START) None)))
  = 1%nat /\
  raised (emit 0 new_observer (inr "pipeline_begin"%string) None)
  = Some (invalid_event_type "pipeline_begin") /\
  events (observer_after
            (emit 0 new_observer (inr "pipeline_begin"%string) None)) = [].
Proof.
  split; [|repeat split].
  intros [H _]. discriminate H.
Qed.

End EventsFacts.

(** ** The orchestrator *)

Module PipelineFacts.

Import Events Pipeline Props.

Section Orchestrated.

Variable Audio : Type.
Variable py_len : Audio -> Outcome Z.
Variable stt_transcribe : Audio -> Outcome str.
Variable llm_query_stream : str -> list str * option Exn.
Variable chunker : Segmenter.
Variable chunker_observed : bool.
Variable tts_speak : nat -> str -> option Exn.
Variable gather_first : list Exn -> Exn.

Local Abbreviation run :=
  (process_audio py_len stt_transcribe llm_query_stream chunker
     chunker_observed tts_speak gather_first).
Local Abbreviation query :=
  (_process_text_query llm_query_stream chunker chunker_observed
     tts_speak gather_first).

Lemma handler_logs_and_raises (A : Type) (log1 : list Entry)
  (tasks : list str) (e : Exn) :
  result (on_exception A log1 tasks e) = Raised e /\
  (exn_is_exception e = true ->
   log (on_exception A log1 tasks e) = log1 ++ [error_entry e]).
Proof.
  unfold on_exception. destruct (exn_is_exception e); simpl; split; easy.
Qed.

Lemma query_stream_failure (log1 : list Entry) (text : str) (e : Exn) :
  snd (llm_query_stream text) = Some e ->
  result (query log1 text) = Raised e.
Proof.
  unfold _process_text_query.
  destruct (llm_query_stream text) as [tokens err]. simpl.
  intros ->. reflexivity.
Qed.

Lemma query_dispatched (log1 : list Entry) (text : str) :
  dispatched (query log1 text) =
  map sentence_of
    (chunk_stream chunker (fst (llm_query_stream text))
       (match snd (llm_query_stream text) with
        | None => true
        | Some _ => false
        end)).
Proof.
  unfold _process_text_query.
  destruct (llm_query_stream text) as [tokens [e|]]; simpl; [reflexivity|].
  destruct (failures tts_speak 0 _); reflexivity.
Qed.

Lemma query_synthesis_failure (log1 : list Entry) (text : str) :
  snd (llm_query_stream text) = None ->
  failures tts_speak 0 (dispatched (query log1 text)) <> [] ->
  result (query log1 text) =
  Raised (gather_first (failures tts_speak 0 (dispatched (query log1 text)))).
Proof.
  rewrite query_dispatched.
  unfold _process_text_query.
  destruct (llm_query_stream text) as [tokens err]. simpl.
  intros ->.
  destruct (failures tts_speak 0 _); simpl; easy.
Qed.

Lemma query_success (log1 : list Entry) (text : str) :
  snd (llm_query_stream text) = None ->
  failures tts_speak 0 (dispatched (query log1 text)) = [] ->
  result (query log1 text) = Returned tt.
Proof.
  rewrite query_dispatched.
  unfold _process_text_query.
  destruct (llm_query_stream text) as [tokens err]. simpl.
  intros -> Hf. rewrite Hf. reflexivity.
Qed.

Lemma run_processed (log0 : list Entry) (audio : Audio) (n : Z)
  (c : ascii) (t : str) :
  py_len audio = Returned n ->
  stt_transcribe audio = Returned (c :: t) ->
  let q := query (log0 ++ [start_entry n]) (c :: t) in
  dispatched (run log0 audio) = dispatched q /\
  result (run log0 audio) =
    match result q with
    | Returned _ => Returned (c :: t)
    | Raised e => Raised e
    end /\
  (forall e, result q = Raised e -> exn_is_exception e = true ->
     log (run log0 audio) = log q ++ [error_entry e]) /\
  (forall u, result q = Returned u ->
     log (run log0 audio) = log q ++ [complete_entry (c :: t)]).
Proof.
  intros Hlen Hstt. cbv zeta.
  unfold process_audio. rewrite Hlen, Hstt.
  unfold start_entry, complete_entry.
  destruct (result (_process_text_query _ _ _ _ _ _ (c :: t)))
    as [[] | e1]; simpl.
  - repeat split; try reflexivity; intros e H; discriminate H.
  - unfold on_exception.
    destruct (exn_is_exception e1) eqn:E1; simpl; repeat split;
      try (intros u H; discriminate H);
      intros e H He; injection H as <-; [reflexivity | congruence].
Qed.


End Orchestrated.



(** X28.  [process_audio] cannot be run on an [AudioData], the input its
    docstring names: its first statement takes [len(audio_data)], which a
    dataclass without [__len__] does not have, before the [try] is entered.
    Whatever the collaborators are, the [TypeError] reaches the caller,
    nothing is transcribed or dispatched, and nothing is emitted, neither
    the start event nor a failure event. *)
Theorem audio_data_is_refused (stt_transcribe : Audio.AudioData -> Outcome str)
  (llm_query_stream : str -> list str * option Exn) (chunker : Segmenter)
  (chunker_observed : bool) (tts_speak : nat -> str -> option Exn)
  (gather_first : list Exn -> Exn) (log0 : list Entry)
  (audio_data : Audio.AudioData) :
  process_audio audio_data_len stt_transcribe llm_query_stream chunker
    chunker_observed tts_speak gather_first log0 audio_data
  = mkRun log0 [] (Raised no_len) /\
  exn_type no_len = py "TypeError" /\
  exn_is_exception no_len = true.
Proof. repeat split. Qed.

End PipelineFacts.

(** ** The conversation history *)

Module HistoryFacts.

Import ClaudeAPI Props.

Lemma last_n_length (n : nat) (history : list Message) :
  (n <= List.length history)%nat -> List.length (last_n n history) = n.
Proof. intros H. unfold last_n. rewrite length_skipn. lia. Qed.

(** The list sent to the API never holds more than the maximum. *)
Lemma append_user_bounded (history : list Message) (text : str) :
  (List.length (append_user history text) <= MAX_HISTORY_TURNS)%nat.
Proof.
  unfold append_user.
  destruct (Nat.ltb_spec MAX_HISTORY_TURNS
              (List.length (history ++ [(user, text)]))) as [H | H].
  - rewrite last_n_length; lia.
  - exact H.
Qed.

(** After a completed turn the history holds at most one entry more. *)
Lemma query_stream_bounded (history : list Message) (text : str)
  (stream : list str * option Exn) :
  (List.length (fst (fst (query_stream history text stream)))
   <= S MAX_HISTORY_TURNS)%nat.
Proof.
  unfold query_stream. pose proof (append_user_bounded history text) as H.
  destruct stream as [chunks [e|]]; simpl.
  - lia.
  - rewrite length_app. simpl. lia.
Qed.

(** C8 at the failing input.  A history of 50 entries and one more
    completed turn: the user message is appended and the list trimmed to 50,
    then the assistant response is appended and nothing trims it, so the
    history is left with 51 entries. *)
Theorem history_exceeds_bound_after_response :
  List.length full_history = MAX_HISTORY_TURNS /\
  List.length history_after_turn = S MAX_HISTORY_TURNS /\
  last history_after_turn (user, []) = (assistant, py "Sure.").
Proof. repeat split. Qed.

End HistoryFacts.

(** ** Retry *)

Module RetryFacts.

Import Retry.

Lemma power_zero_fits (base : Q) : pow_overflows base 0 = false.
Proof. reflexivity. Qed.

Lemma get_delay_returns (config : RetryConfig) (random : Q) (attempt : Z) :
  (0 <= attempt)%Z ->
  pow_overflows (exponential_base config) attempt = false ->
  get_delay_ms config random attempt
  = Returned (backoff_delay_ms config random attempt).
Proof.
  intros H0 Hfits. unfold get_delay_ms. rewrite Hfits.
  replace (attempt <? 0)%Z with false by (symmetry; apply Z.ltb_ge; lia).
  now rewrite andb_false_r.
Qed.

Section Retrying.

Variable T : Type.
Variable World : Type.
Variable func : World -> Outcome T * World.
Variable func_name : Outcome str.
Variable str_raises : Exn -> option Exn.
Variable retryable : Exn -> bool.
Variable on_retry : option (Exn -> Z -> option Exn).
Variable random : Z -> Q.
Variable config : RetryConfig.

Local Abbreviation attempts_from :=
  (attempts func func_name str_raises retryable on_retry random config).

Lemma invocations_and_then (step : Step T) (r : Attempted T World) :
  invocations (trace (and_then step r)) =
  match step with
  | Invoked o => o :: invocations (trace r)
  | _ => invocations (trace r)
  end.
Proof. destruct step; reflexivity. Qed.

Lemma outcome_and_then (step : Step T) (r : Attempted T World) :
  outcome (and_then step r) = outcome r.
Proof. reflexivity. Qed.

(** One iteration, with the rest of the loop left folded. *)
Lemma attempts_unfold (remaining : nat) (attempt : Z)
  (last_exception : option Exn) (w : World) :
  attempts_from (S remaining) attempt last_exception w
  = let '(result, w') := func w in
    match result with
    | Returned value => mkAttempted (Returned value) w' [Invoked result]
    | Raised e =>
        if retryable e then
          if (attempt =? max_attempts config - 1)%Z
          then
            match error_message_raises func_name with
            | Some a => mkAttempted (Raised a) w' [Invoked result]
            | None => mkAttempted (Raised e) w' [Invoked result]
            end
          else
            match get_delay_ms config (random attempt) attempt with
            | Raised o => mkAttempted (Raised o) w' [Invoked result]
            | Returned delay_ms =>
                match warning_message_raises func_name str_raises e with
                | Some a => mkAttempted (Raised a) w' [Invoked result]
                | None =>
                    match on_retry with
                    | Some callback =>
                        match callback e (attempt + 1)%Z with
                        | Some e' =>
                            mkAttempted (Raised e') w'
                              [Invoked result; Notified T e (attempt + 1)%Z]
                        | None =>
                            and_then (Invoked result)
                              (and_then (Notified T e (attempt + 1)%Z)
                                 (and_then (Slept T (delay_ms / 1000))
                                    (attempts_from remaining
                                       (attempt + 1)%Z (Some e) w')))
                        end
                    | None =>
                        and_then (Invoked result)
                          (and_then (Slept T (delay_ms / 1000))
                             (attempts_from remaining (attempt + 1)%Z
                                (Some e) w'))
                    end
                end
            end
        else mkAttempted (Raised e) w' [Invoked result]
    end.
Proof. reflexivity. Qed.

(** The first thing an iteration does is to invoke the operation. *)
Lemma first_invocation (remaining : nat) (attempt : Z)
  (last_exception : option Exn) (w : World) :
  exists later,
    invocations
      (trace (attempts_from (S remaining) attempt last_exception w))
    = fst (func w) :: later.
Proof.
  rewrite attempts_unfold.
  destruct (func w) as [[value | e] w']; cbn [fst]; [now eexists|].
  destruct (retryable e); [|now eexists].
  destruct (attempt =? max_attempts config - 1)%Z;
    [destruct (error_message_raises func_name); now eexists|].
  destruct (get_delay_ms config (random attempt) attempt);
    [|now eexists].
  destruct (warning_message_raises func_name str_raises e); [now eexists|].
  destruct on_retry as [callback|];
    [destruct (callback e (attempt + 1)%Z)|];
    rewrite ?invocations_and_then; now eexists.
Qed.

Lemma messages_build_error :
  messages_build func_name str_raises ->
  error_message_raises func_name = None.
Proof. intros [[name ->] _]. reflexivity. Qed.

Lemma messages_build_warning (e : Exn) :
  messages_build func_name str_raises ->
  warning_message_raises func_name str_raises e = None.
Proof.
  intros [[name Hname] Hstr]. unfold warning_message_raises.
  rewrite Hname. apply Hstr.
Qed.

(** When every invocation raises a retryable exception, the log messages
    can be built, the delays can be computed and the callback returns, the
    loop runs all its remaining iterations. *)
Lemma attempts_exhaust (remaining : nat) :
  forall (attempt : Z) (last_exception : option Exn) (w : World),
    (0 <= attempt)%Z ->
    messages_build func_name str_raises ->
    delays_computable config (max_attempts config) ->
    callback_returns on_retry ->
    max_attempts config = (attempt + Z.of_nat (S remaining))%Z ->
    (forall o,
        In o (invocations
                (trace (attempts_from (S remaining) attempt last_exception w)))
        -> raised_retryable retryable o) ->
    List.length
      (invocations
         (trace (attempts_from (S remaining) attempt last_exception w)))
    = S remaining /\
    exists e,
      outcome (attempts_from (S remaining) attempt last_exception w)
      = Raised e /\
      nth_error
        (invocations
           (trace (attempts_from (S remaining) attempt last_exception w)))
        remaining
      = Some (Raised e).
Proof.
  induction remaining as [|remaining IH];
    intros attempt last_exception w H0 Hlog Hdelays Hcb Hmax Hall;
    [destruct (first_invocation 0%nat attempt last_exception w)
       as [later Hfirst]
    |destruct (first_invocation (S remaining) attempt last_exception w)
       as [later Hfirst]];
    (destruct (Hall (fst (func w))) as (e & He & Hr);
     [rewrite Hfirst; left; reflexivity|]);
    clear later Hfirst;
    rewrite attempts_unfold in *;
    destruct (func w) as [o w']; cbn [fst] in He; subst o;
    rewrite Hr in *.
  - replace (attempt =? max_attempts config - 1)%Z with true
      by (symmetry; apply Z.eqb_eq; lia).
    rewrite (messages_build_error Hlog).
    cbn. split; [reflexivity|]. exists e. split; reflexivity.
  - replace (attempt =? max_attempts config - 1)%Z with false in *
      by (symmetry; apply Z.eqb_neq; lia).
    rewrite (get_delay_returns config _ attempt H0
               (Hdelays attempt ltac:(lia))) in *.
    rewrite (messages_build_warning e Hlog) in *.
    assert (Hnext : max_attempts config
                    = (attempt + 1 + Z.of_nat (S remaining))%Z) by lia.
    specialize (IH (attempt + 1)%Z (Some e) w' ltac:(lia) Hlog Hdelays Hcb
                  Hnext).
    unfold callback_returns in Hcb.
    destruct on_retry as [callback|];
      [rewrite (Hcb e (attempt + 1)%Z) in *|];
      rewrite !invocations_and_then, !outcome_and_then in *;
      (destruct IH as (Hlen & e1 & Hout & Hnth);
       [intros o Ho; apply Hall; right; exact Ho|]);
      (split; [cbn [List.length]; now rewrite Hlen|]);
      exists e1; (split; [exact Hout | exact Hnth]).
Qed.

(** An invocation that returns a value ends the loop with that value; the
    invocations before it raised retryable exceptions. *)
Lemma attempts_success (remaining : nat) :
  forall (attempt : Z) (last_exception : option Exn) (w : World) (v : T),
    In (Returned v)
       (invocations
          (trace (attempts_from remaining attempt last_exception w))) ->
    outcome (attempts_from remaining attempt last_exception w) = Returned v
    /\
    exists earlier,
      trace (attempts_from remaining attempt last_exception w)
      = earlier ++ [Invoked (Returned v)] /\
      forall o, In o (invocations earlier) -> raised_retryable retryable o.
Proof.
  induction remaining as [|remaining IH];
    intros attempt last_exception w v Hin.
  - cbn [attempts] in Hin. destruct last_exception; destruct Hin.
  - rewrite attempts_unfold in *.
    destruct (func w) as [[value | e] w'].
    + destruct Hin as [Hv | []]. injection Hv as ->.
      split; [reflexivity|]. exists []. split; [reflexivity | intros o []].
    + destruct (retryable e) eqn:Hr;
        [|destruct Hin as [H | []]; discriminate H].
      destruct (attempt =? max_attempts config - 1)%Z.
      { destruct (error_message_raises func_name);
          destruct Hin as [H | []]; discriminate H. }
      destruct (get_delay_ms config (random attempt) attempt)
        as [delay_ms | o]; [|destruct Hin as [H | []]; discriminate H].
      destruct (warning_message_raises func_name str_raises e);
        [destruct Hin as [H | []]; discriminate H|].
      assert (Hfirst : raised_retryable retryable (@Raised T e))
        by (exists e; auto).
      destruct on_retry as [callback|].
      * destruct (callback e (attempt + 1)%Z).
        { destruct Hin as [H | []]; discriminate H. }
        rewrite !invocations_and_then in Hin.
        destruct Hin as [H | Hin]; [discriminate H|].
        destruct (IH _ _ _ _ Hin) as (Hout & earlier & Htrace & Hearlier).
        split; [exact Hout|].
        eexists (Invoked (Raised e) :: Notified T e (attempt + 1)
                   :: Slept T _ :: earlier).
        split; [cbn; now rewrite Htrace|].
        intros o [<- | Ho]; [exact Hfirst | now apply Hearlier].
      * rewrite !invocations_and_then in Hin.
        destruct Hin as [H | Hin]; [discriminate H|].
        destruct (IH _ _ _ _ Hin) as (Hout & earlier & Htrace & Hearlier).
        split; [exact Hout|].
        eexists (Invoked (Raised e) :: Slept T _ :: earlier).
        split; [cbn; now rewrite Htrace|].
        intros o [<- | Ho]; [exact Hfirst | now apply Hearlier].
Qed.

(** X27.  Retry exhaustion and success, where [retry_async] can carry its
    loop through: when [func] has a [__name__], [str(e)] returns, no power
    [exponential_base ** attempt] of the attempts 0 to N - 2 overflows and
    the callback returns.  With [max_attempts = N >= 1], if every invocation
    raises a retryable exception, the operation is invoked exactly N times
    and the exception of the N-th invocation is raised itself.  If some
    invocation returns a value, that value is returned and that invocation
    is the last thing done (this half needs none of the conditions). *)
Theorem exhaustion_and_success (w : World) :
  let r := retry_async func func_name str_raises retryable on_retry random
             config w in
  ((1 <= max_attempts config)%Z ->
   messages_build func_name str_raises ->
   delays_computable config (max_attempts config) ->
   callback_returns on_retry ->
   (forall o, In o (invocations (trace r)) -> raised_retryable retryable o) ->
   Z.of_nat (List.length (invocations (trace r))) = max_attempts config /\
   exists e,
     outcome r = Raised e /\
     nth_error (invocations (trace r))
               (Z.to_nat (max_attempts config) - 1)
     = Some (Raised e))
  /\
  (forall v,
     In (Returned v) (invocations (trace r)) ->
     outcome r = Returned v /\
     exists earlier,
       trace r = earlier ++ [Invoked (Returned v)] /\
       forall o, In o (invocations earlier) -> raised_retryable retryable o).
Proof.
  cbv zeta. unfold retry_async. split.
  - intros HN Hlog Hdelays Hcb Hall.
    destruct (Z.to_nat (max_attempts config)) as [|remaining] eqn:E; [lia|].
    destruct (attempts_exhaust remaining 0%Z None w ltac:(lia) Hlog Hdelays
                Hcb ltac:(lia) Hall)
      as (Hlen & e & Hout & Hnth).
    split; [rewrite Hlen; lia|].
    exists e. split; [exact Hout|].
    replace (S remaining - 1)%nat with remaining by lia. exact Hnth.
  - intros v Hin. now apply attempts_success.
Qed.

(** A callable without a [__name__]: the log message that announces the
    retry, or the exhaustion, cannot be built. *)
Lemma nameless_callable_stops (w w' : World) (e a : Exn) :
  (1 <= max_attempts config)%Z ->
  func_name = Raised a ->
  func w = (Raised e, w') ->
  retryable e = true ->
  retry_async func func_name str_raises retryable on_retry random config w
  = mkAttempted (Raised a) w' [Invoked (Raised e)].
Proof.
  intros HN Hname Hfunc Hr. unfold retry_async.
  destruct (Z.to_nat (max_attempts config)) as [|remaining] eqn:E; [lia|].
  rewrite attempts_unfold, Hfunc, Hr.
  unfold error_message_raises, warning_message_raises. rewrite Hname.
  destruct (0 =? max_attempts config - 1)%Z; [reflexivity|].
  rewrite (get_delay_returns config _ 0 ltac:(lia) (power_zero_fits _)).
  reflexivity.
Qed.

End Retrying.

(** C4 at the failing inputs.  An operation that raises a retryable
    exception at every invocation is not invoked [max_attempts] times, and
    its exception is not the one raised, (a) when the callable has no
    [__name__], as a [functools.partial] object: the f-string of the log
    message raises [AttributeError] after the first invocation, whatever
    [max_attempts] is; (b) with [max_attempts = 4] and
    [exponential_base = 1e200]: the power [1e200 ** 2] raises
    [OverflowError] after the third invocation, before the cap of
    [max_delay_ms] is applied. *)
Theorem retry_gives_up_early :
  let broken := fun n : nat => (@Raised nat Props.boom, S n) in
  let always := fun _ : Exn => true in
  let fine := fun _ : Exn => @None Exn in
  let half := fun _ : Z => (1 # 2) in
  let partial := retry_async broken (Raised Props.no_name) fine always None
                   half default_config 0%nat in
  let steep := retry_async broken (Returned (py "call_api")) fine always None
                 half Props.steep_config 0%nat in
  (invocations (trace partial) = [Raised Props.boom] /\
   outcome partial = Raised Props.no_name) /\
  (invocations (trace steep)
   = [Raised Props.boom; Raised Props.boom; Raised Props.boom] /\
   max_attempts Props.steep_config = 4%Z /\
   outcome steep = Raised overflow_error).
Proof.
  cbv zeta. split.
  - rewrite (nameless_callable_stops nat nat _ (Raised Props.no_name) _ _ None
               _ default_config 0%nat 1%nat Props.boom Props.no_name);
      [split; reflexivity | cbn; lia | reflexivity ..].
  - split; [vm_compute; reflexivity|]. split; vm_compute; reflexivity.
Qed.

(** An operation on a call counter that fails twice and then returns the
    count, and one that always fails. *)
Lemma exhaustion_and_success_witness :
  let flaky := fun n : nat =>
    (if Nat.ltb n 2 then Raised Props.boom else Returned n, S n) in
  let broken := fun n : nat => (@Raised nat Props.boom, S n) in
  let name := @Returned str (py "call_api") in
  let fine := fun _ : Exn => @None Exn in
  let always := fun _ : Exn => true in
  let half := fun _ : Z => (1 # 2) in
  let five := mkRetryConfig 5 10 10000 2 true in
  outcome (retry_async flaky name fine always None half five 0%nat)
  = Returned 2%nat /\
  world (retry_async flaky name fine always None half five 0%nat) = 3%nat /\
  outcome (retry_async broken name fine always None half default_config 0%nat)
  = Raised Props.boom /\
  world (retry_async broken name fine always None half default_config 0%nat)
  = 3%nat.
Proof.
  cbv zeta.
  pose proof (exhaustion_and_success nat nat
                (fun n : nat =>
                   (if Nat.ltb n 2 then Raised Props.boom else Returned n,
                    S n))
                (Returned (py "call_api")) (fun _ => None)
                (fun _ => true) None (fun _ => (1 # 2))
                (mkRetryConfig 5 10 10000 2 true) 0%nat) as [_ Hok].
  pose proof (exhaustion_and_success nat nat
                (fun n : nat => (@Raised nat Props.boom, S n))
                (Returned (py "call_api")) (fun _ => None)
                (fun _ => true) None (fun _ => (1 # 2))
                default_config 0%nat) as [Hfail _].
  cbv zeta in Hok, Hfail.
  destruct (Hok 2%nat) as [Hout _].
  { vm_compute. tauto. }
  destruct Hfail as (_ & e & Hraised & Hnth).
  { vm_compute. discriminate. }
  { split; [now eexists | reflexivity]. }
  { intros attempt Hattempt. cbn in Hattempt.
    assert (Hcases : attempt = 0%Z \/ attempt = 1%Z) by lia.
    destruct Hcases as [-> | ->]; vm_compute; reflexivity. }
  { exact I. }
  { intros o Ho. vm_compute in Ho.
    destruct Ho as [<- | [<- | [<- | []]]]; exists Props.boom; split;
      reflexivity. }
  split; [exact Hout|]. split; [reflexivity|].
  split; [|reflexivity].
  rewrite Hraised. vm_compute in Hnth. injection Hnth as <-. reflexivity.
Defined.

End RetryFacts.

(** ** The token bucket *)

Module RateLimiterFacts.

Import RateLimiter.

Lemma Qle_bool_false (a b : Q) : Qle_bool a b = false <-> b < a.
Proof.
  split; intros H.
  - apply Qnot_le_lt. intros Hle. apply Qle_bool_iff in Hle. congruence.
  - destruct (Qle_bool a b) eqn:E; [|reflexivity].
    apply Qle_bool_iff in E. exfalso. apply (Qlt_not_le _ _ H E).
Qed.

(** The refill never leaves more than the capacity. *)
Lemma capped_le_capacity (capacity refilled : Q) :
  (if Qle_bool capacity refilled then capacity else refilled) <= capacity.
Proof.
  destruct (Qle_bool capacity refilled) eqn:E.
  - apply Qle_refl.
  - apply Qle_bool_false in E. now apply Qlt_le_weak.
Qed.

(** A request above the capacity is suspended at every pass. *)
Lemma turn_above_capacity (l : RateLimiter) (now : Q) (n : Z) :
  0 < tokens_per_second l ->
  (bucket_size l < n)%Z ->
  exists l' wait_time,
    turn l now n = Suspend l' wait_time /\
    tokens_per_second l' = tokens_per_second l /\
    bucket_size l' = bucket_size l.
Proof.
  intros Hrate Hn. unfold turn.
  set (refilled := tokens l + (now - last_update l) * tokens_per_second l).
  set (capped := if Qle_bool (inject_Z (bucket_size l)) refilled
                 then inject_Z (bucket_size l) else refilled).
  assert (Hcap : capped <= inject_Z (bucket_size l))
    by apply capped_le_capacity.
  assert (Hlt : capped < inject_Z n).
  { eapply Qle_lt_trans; [exact Hcap|]. rewrite <- Zlt_Qlt. exact Hn. }
  apply Qle_bool_false in Hlt. rewrite Hlt.
  assert (Hnz : Qeq_bool (tokens_per_second l) 0 = false).
  { destruct (Qeq_bool (tokens_per_second l) 0) eqn:E; [|reflexivity].
    apply Qeq_bool_eq in E. rewrite E in Hrate.
    exfalso. apply (Qlt_irrefl 0 Hrate). }
  rewrite Hnz. eexists _, _. split; [reflexivity|]. split; reflexivity.
Qed.

Lemma never_acquires (n : Z) (lag : nat -> Q) (fuel : nat) :
  forall (l : RateLimiter) (now : Q) (i : nat),
    0 < tokens_per_second l ->
    (bucket_size l < n)%Z ->
    acquire fuel lag i l now n = None.
Proof.
  induction fuel as [|fuel IH]; intros l now i Hrate Hn; simpl.
  - reflexivity.
  - destruct (turn_above_capacity l now n Hrate Hn)
      as (l' & wait_time & -> & Hr & Hb).
    apply IH; [now rewrite Hr | now rewrite Hb].
Qed.

(** A request within the capacity is served at once or after one
    suspension. *)
Lemma acquires_within_two_turns (l : RateLimiter) (lag : nat -> Q)
  (now : Q) (n : Z) :
  0 < tokens_per_second l ->
  0 <= lag 0%nat ->
  (n <= bucket_size l)%Z ->
  exists l' t k,
    acquire 2 lag 0 l now n = Some (Done l' t k) /\ (k <= 1)%nat.
Proof.
  intros Hrate Hlag Hn. cbn [acquire]. unfold turn at 1.
  set (rate := tokens_per_second l) in *.
  set (capacity := inject_Z (bucket_size l)).
  set (refilled := tokens l + (now - last_update l) * rate).
  set (capped := if Qle_bool capacity refilled then capacity else refilled).
  assert (HnB : inject_Z n <= capacity) by (unfold capacity; now rewrite <- Zle_Qle).
  destruct (Qle_bool (inject_Z n) capped) eqn:Hfirst.
  - eexists _, _, _. split; [reflexivity | lia].
  - assert (Hnz : Qeq_bool rate 0 = false).
    { destruct (Qeq_bool rate 0) eqn:E; [|reflexivity].
      apply Qeq_bool_eq in E. rewrite E in Hrate.
      exfalso. apply (Qlt_irrefl 0 Hrate). }
    rewrite Hnz.
    apply Qle_bool_false in Hfirst.
    set (wait_time := (inject_Z n - capped) / rate).
    assert (Hw : 0 < wait_time).
    { unfold wait_time. apply Qlt_shift_div_l; [exact Hrate|]. lra. }
    assert (Hwb : Qle_bool wait_time 0 = false) by now apply Qle_bool_false.
    rewrite Hwb.
    unfold turn. cbn [tokens_per_second bucket_size tokens last_update].
    fold rate capacity.
    set (refilled2 := capped + (now + wait_time + lag 0%nat - now) * rate).
    assert (Hre : inject_Z n <= refilled2).
    { unfold refilled2.
      assert (Hmul : wait_time * rate == inject_Z n - capped).
      { unfold wait_time. field. intros E. rewrite E in Hrate.
        apply (Qlt_irrefl 0 Hrate). }
      assert (Hl : 0 <= lag 0%nat * rate).
      { apply Qmult_le_0_compat; [exact Hlag | now apply Qlt_le_weak]. }
      setoid_replace (capped + (now + wait_time + lag 0%nat - now) * rate)
        with (capped + wait_time * rate + lag 0%nat * rate) by ring.
      rewrite Hmul. lra. }
    assert (Hsecond :
      Qle_bool (inject_Z n)
        (if Qle_bool capacity refilled2 then capacity else refilled2) = true).
    { apply Qle_bool_iff.
      destruct (Qle_bool capacity refilled2); assumption. }
    rewrite Hsecond.
    eexists _, _, _. split; [reflexivity | lia].
Qed.

Lemma acquire_more_fuel (n : Z) (lag : nat -> Q) (fuel : nat) :
  forall (l : RateLimiter) (now : Q) (i : nat) (r : Ended),
    acquire fuel lag i l now n = Some r ->
    acquire (S fuel) lag i l now n = Some r.
Proof.
  induction fuel as [|fuel IH]; intros l now i r H; [discriminate H|].
  cbn [acquire] in H |- *.
  destruct (turn l now n) as [l' | l' wait_time | l']; try exact H.
  apply IH. exact H.
Qed.

(** C9.  For a limiter with a positive rate, under a clock that resumes a
    sleeper no earlier than asked, [acquire(n)] returns after finitely many
    suspensions exactly when [n <= bucket_size]: within the capacity it is
    served after at most one suspension, above it the refill never reaches
    [n] and the loop never ends.  With the default capacity
    [int(tokens_per_second)], a rate below 1 gives capacity 0 and
    [acquire(1)] never returns. *)
Theorem acquire_returns_iff_within_capacity (l : RateLimiter)
  (lag : nat -> Q) (now : Q) (n : Z) :
  0 < tokens_per_second l ->
  (forall i, 0 <= lag i) ->
  (returns lag l now n <-> (n <= bucket_size l)%Z) /\
  ((bucket_size l < n)%Z -> forall fuel, acquire fuel lag 0 l now n = None) /\
  (forall rate created,
      0 < rate -> rate < 1 ->
      bucket_size (new rate None created) = 0%Z /\
      forall fuel later,
        acquire fuel lag 0 (new rate None created) later 1 = None).
Proof.
  intros Hrate Hlag. split; [split|split].
  - intros (fuel & l' & t & k & H).
    destruct (Z.le_gt_cases n (bucket_size l)) as [Hle | Hgt]; [exact Hle|].
    rewrite (never_acquires n lag fuel l now 0%nat Hrate) in H by lia.
    discriminate H.
  - intros Hle.
    destruct (acquires_within_two_turns l lag now n Hrate (Hlag 0%nat) Hle)
      as (l' & t & k & H & _).
    exists 2%nat, l', t, k. exact H.
  - intros Hgt fuel. now apply never_acquires.
  - intros rate created Hpos Hone.
    assert (Hcap : py_int rate = 0%Z).
    { unfold py_int. destruct rate as [num den].
      unfold Qlt in *. simpl in *.
      apply Z.quot_small. lia. }
    assert (Hb : bucket_size (new rate None created) = 0%Z)
      by (unfold new; simpl; exact Hcap).
    split; [exact Hb|].
    intros fuel later. apply never_acquires.
    + exact Hpos.
    + rewrite Hb. lia.
Qed.

Lemma acquire_returns_iff_within_capacity_witness :
  let l := new 2 (Some 2%Z) 0 in
  let still := fun _ : nat => 0 in
  0 < tokens_per_second l /\
  (forall i, 0 <= still i) /\
  returns still l 0 2 /\
  (forall fuel, acquire fuel still 0 l 0 3 = None) /\
  (forall fuel, acquire fuel still 0 (new (1 # 2) None 0) 0 1 = None).
Proof.
  cbv zeta.
  assert (Hrate : 0 < tokens_per_second (new 2 (Some 2%Z) 0))
    by reflexivity.
  assert (Hlag : forall i : nat, 0 <= (fun _ : nat => 0) i)
    by (intros i; apply Qle_refl).
  destruct (acquire_returns_iff_within_capacity
              (new 2 (Some 2%Z) 0) (fun _ => 0) 0 2 Hrate Hlag)
    as (Hiff & _ & Hdefault).
  destruct (acquire_returns_iff_within_capacity
              (new 2 (Some 2%Z) 0) (fun _ => 0) 0 3 Hrate Hlag)
    as (_ & Hnever & _).
  split; [exact Hrate|]. split; [exact Hlag|].
  split; [apply Hiff; simpl; lia|].
  split; [apply Hnever; simpl; lia|].
  intros fuel.
  apply (proj2 (Hdefault (1 # 2) 0 ltac:(reflexivity) ltac:(reflexivity))).
Defined.

End RateLimiterFacts.

(** ** Audio validation *)

Module AudioFacts.

Import Audio.

Lemma Qlt_bool_iff (a b : Q) : Qlt_bool a b = true <-> a < b.
Proof.
  unfold Qlt_bool. rewrite negb_true_iff.
  apply RateLimiterFacts.Qle_bool_false.
Qed.

Lemma Qlt_bool_false (a b : Q) : Qlt_bool a b = false <-> b <= a.
Proof.
  unfold Qlt_bool. rewrite negb_false_iff. apply Qle_bool_iff.
Qed.

(** The size in MB is over the limit exactly above 25 * 2^20 bytes. *)
Lemma over_size_limit (a : AudioData) :
  Qlt_bool WHISPER_MAX_FILE_SIZE_MB (size_mb_of a) = true
  <-> (25 * 1024 * 1024 < size_bytes a)%Z.
Proof.
  rewrite Qlt_bool_iff. unfold size_mb_of, WHISPER_MAX_FILE_SIZE_MB.
  generalize (size_bytes a). intros z.
  unfold Qlt, Qdiv, Qmult, Qinv, inject_Z. simpl. lia.
Qed.

Lemma size_mb_exact (a : AudioData) (mb : Z) :
  size_bytes a = (mb * 1024 * 1024)%Z -> size_mb_of a == inject_Z mb.
Proof.
  intros H. unfold size_mb_of. rewrite H.
  unfold Qeq, Qdiv, Qmult, Qinv, inject_Z. simpl. lia.
Qed.

Lemma too_short_of_falsy (a : AudioData) :
  truthy (duration_ms a) = false -> too_short a = None.
Proof.
  unfold too_short. destruct (duration_ms a) as [d|]; [|reflexivity].
  intros H. rewrite H. reflexivity.
Qed.

Lemma too_short_only_source (a : AudioData) (d m : Q) :
  validate_audio_for_whisper a = Some (AudioTooShortError d m) ->
  too_short a = Some (AudioTooShortError d m).
Proof.
  unfold validate_audio_for_whisper.
  destruct (too_short a) as [e|]; [intros H; exact H|].
  destruct (Qlt_bool _ _); [discriminate|].
  destruct (format a); discriminate.
Qed.

(** A truthy duration below the minimum is rejected first. *)
Lemma short_duration_rejected (a : AudioData) (d : Q) :
  duration_ms a = Some d -> ~ d == 0 -> d < WHISPER_MIN_DURATION_MS ->
  validate_audio_for_whisper a
  = Some (AudioTooShortError d WHISPER_MIN_DURATION_MS).
Proof.
  intros Hd Hnz Hlt. unfold validate_audio_for_whisper, too_short.
  rewrite Hd.
  assert (Ht : truthy (Some d) = true).
  { simpl. destruct (Qeq_bool d 0) eqn:E; [|reflexivity].
    apply Qeq_bool_eq in E. contradiction. }
  apply Qlt_bool_iff in Hlt. rewrite Ht, Hlt. reflexivity.
Qed.

(** A buffer that passes the duration check and is over 25 MB is rejected
    with its size in MB. *)
Lemma oversized_rejected (a : AudioData) :
  (25 * 1024 * 1024 < size_bytes a)%Z ->
  (forall d, duration_ms a = Some d -> WHISPER_MIN_DURATION_MS <= d) ->
  validate_audio_for_whisper a
  = Some (AudioTooLongError (size_mb_of a) WHISPER_MAX_FILE_SIZE_MB).
Proof.
  intros Hsize Hlong.
  assert (Hshort : too_short a = None).
  { unfold too_short. destruct (duration_ms a) as [d|]; [|reflexivity].
    specialize (Hlong d eq_refl).
    apply Qlt_bool_false in Hlong. rewrite Hlong.
    now rewrite andb_false_r. }
  unfold validate_audio_for_whisper. rewrite Hshort.
  apply over_size_limit in Hsize. rewrite Hsize. reflexivity.
Qed.

(** C10.  A buffer whose [duration_ms] is [None] or zero never fails the
    duration check, whatever its bytes hold: validation raises no "too
    short" error for it, and it passes whenever its size is within 25 MB and
    its format is WAV, FLAC or MP3. *)
Theorem unknown_duration_skips_short_check (a : AudioData) :
  (duration_ms a = None \/ exists d, duration_ms a = Some d /\ d == 0) ->
  (forall d m,
      validate_audio_for_whisper a <> Some (AudioTooShortError d m)) /\
  ((size_bytes a <= 25 * 1024 * 1024)%Z ->
   In (format a) [WAV; FLAC; MP3] ->
   validate_audio_for_whisper a = None).
Proof.
  intros Hd.
  assert (Hfalsy : truthy (duration_ms a) = false).
  { destruct Hd as [-> | (d & -> & Hz)]; [reflexivity|].
    simpl. now rewrite (Qeq_eq_bool _ _ Hz). }
  pose proof (too_short_of_falsy a Hfalsy) as Hshort.
  split.
  - intros d m H. apply too_short_only_source in H. congruence.
  - intros Hsize Hformat. unfold validate_audio_for_whisper.
    rewrite Hshort.
    destruct (Qlt_bool WHISPER_MAX_FILE_SIZE_MB (size_mb_of a)) eqn:E.
    + apply over_size_limit in E. lia.
    + simpl in Hformat.
      destruct Hformat as [<- | [<- | [<- | []]]]; reflexivity.
Qed.

Lemma unknown_duration_skips_short_check_witness :
  let silent := mkAudio [Byte.x00; Byte.x00] 16000 WAV 1 None in
  (duration_ms silent = None \/
   exists d, duration_ms silent = Some d /\ d == 0) /\
  validate_audio_for_whisper silent = None.
Proof.
  cbv zeta.
  assert (H : duration_ms (mkAudio [Byte.x00; Byte.x00] 16000 WAV 1 None)
              = None \/
              exists d,
                duration_ms (mkAudio [Byte.x00; Byte.x00] 16000 WAV 1 None)
                = Some d /\ d == 0)
    by (left; reflexivity).
  split; [exact H|].
  apply (proj2 (unknown_duration_skips_short_check _ H)).
  - vm_compute. discriminate.
  - left. reflexivity.
Defined.

Section Normalizing.

Variable Sample : Type.
Variable _parse_audio_to_samples :
  AudioData -> Z -> ParseFailure + list Sample.
Variable _convert_to_mono : list Sample -> Z -> list Sample.
Variable _resample : list Sample -> Z -> Z -> list Sample.
Variable _samples_to_wav : list Sample -> Z -> list Byte.byte.

Local Abbreviation normalize :=
  (normalize_for_whisper _parse_audio_to_samples _convert_to_mono
     _resample _samples_to_wav).
Local Abbreviation converted :=
  (samples_for_whisper _convert_to_mono _resample).
Local Abbreviation rebuilt := (normalized_of _samples_to_wav).

Lemma fast_path_test (a : AudioData) :
  (sample_rate a =? WHISPER_SAMPLE_RATE)%Z
  && (channels a =? WHISPER_CHANNELS)%Z && is_wav (format a) = true
  <-> already_normalized a.
Proof.
  unfold already_normalized.
  rewrite !andb_true_iff, !Z.eqb_eq.
  destruct (format a); simpl; intuition congruence.
Qed.

(** C6.  A buffer whose duration is 50 ms fails validation with
    [AudioTooShortError(50, 100)]; a buffer of 26 MB whose duration passes
    the check fails with [AudioTooLongError(26.0, 25.0)].
    [normalize_for_whisper] applies this validation to the input itself
    when it is already 16 kHz mono WAV, and otherwise to the buffer rebuilt
    from the converted samples, whose errors it re-raises as they are: 800
    converted samples, 50 ms at 16 kHz, are rejected as too short. *)
Theorem validation_errors :
  (forall a d,
      duration_ms a = Some d -> d == 50 ->
      validate_audio_for_whisper a = Some (AudioTooShortError d 100)) /\
  (forall a,
      size_bytes a = (26 * 1024 * 1024)%Z ->
      (forall d, duration_ms a = Some d -> 100 <= d) ->
      validate_audio_for_whisper a
      = Some (AudioTooLongError (size_mb_of a) 25) /\
      size_mb_of a == 26) /\
  (forall a bits,
      already_normalized a ->
      normalize a bits = validated a) /\
  (forall a bits samples,
      ~ already_normalized a ->
      _parse_audio_to_samples a bits = inr samples ->
      post_init_ok (rebuilt (converted a samples)) = true ->
      normalize a bits = validated (rebuilt (converted a samples)) /\
      (List.length (converted a samples) = 800%nat ->
       exists d,
         normalize a bits = inl (AudioTooShortError d 100) /\ d == 50)).
Proof.
  split; [|split; [|split]].
  - intros a d Hd H50. apply short_duration_rejected; [exact Hd | |].
    + rewrite H50. discriminate.
    + rewrite H50. reflexivity.
  - intros a Hsize Hlong. split.
    + apply oversized_rejected; [lia | exact Hlong].
    + apply (size_mb_exact a 26). exact Hsize.
  - intros a bits Hfast. unfold normalize_for_whisper.
    apply fast_path_test in Hfast. rewrite Hfast. reflexivity.
  - intros a bits samples Hslow Hparse Hok. unfold normalize_for_whisper.
    destruct ((sample_rate a =? WHISPER_SAMPLE_RATE)%Z
              && (channels a =? WHISPER_CHANNELS)%Z && is_wav (format a))
      eqn:E.
    + exfalso. apply Hslow. now apply fast_path_test.
    + rewrite Hparse. cbv zeta. rewrite Hok.
      split; [reflexivity|].
      intros H800.
      exists (inject_Z (Z.of_nat 800) / inject_Z WHISPER_SAMPLE_RATE * 1000).
      split; [|reflexivity].
      unfold validated.
      rewrite (short_duration_rejected (rebuilt (converted a samples))
                 (inject_Z (Z.of_nat 800) / inject_Z WHISPER_SAMPLE_RATE
                  * 1000)).
      * reflexivity.
      * unfold normalized_of. cbn [duration_ms]. now rewrite H800.
      * discriminate.
      * reflexivity.
Qed.

End Normalizing.

(** A 50 ms buffer at 16 kHz mono WAV goes through the fast path and is
    rejected as too short. *)
Lemma validation_errors_witness :
  let short := mkAudio (repeat Byte.x00 1600) 16000 WAV 1 (Some 50) in
  validate_audio_for_whisper short = Some (AudioTooShortError 50 100) /\
  normalize_for_whisper (fun _ _ => inr (@nil unit)) (fun s _ => s)
    (fun s _ _ => s) (fun _ _ => [Byte.x00]) short 16
  = inl (AudioTooShortError 50 100).
Proof.
  cbv zeta.
  destruct (validation_errors unit (fun _ _ => inr (@nil unit))
              (fun s _ => s) (fun s _ _ => s) (fun _ _ => [Byte.x00]))
    as (Hshort & _ & Hfast & _).
  assert (Hv : validate_audio_for_whisper
                 (mkAudio (repeat Byte.x00 1600) 16000 WAV 1 (Some 50))
               = Some (AudioTooShortError 50 100))
    by (apply Hshort; reflexivity).
  split; [exact Hv|].
  rewrite Hfast by (repeat split).
  unfold validated. rewrite Hv. reflexivity.
Defined.

(** The 26 MB buffer of the validation scenario, two seconds long. *)
Lemma oversized_buffer_rejected :
  let big :=
    mkAudio (repeat Byte.x00 (Z.to_nat (26 * 1024 * 1024))) 16000 WAV 1
            (Some 2000) in
  exists size_mb,
    validate_audio_for_whisper big = Some (AudioTooLongError size_mb 25) /\
    size_mb == 26.
Proof.
  cbv zeta.
  set (big := mkAudio _ 16000 WAV 1 (Some 2000)).
  assert (Hsize : size_bytes big = (26 * 1024 * 1024)%Z).
  { unfold size_bytes, big. cbn [data]. rewrite repeat_length. lia. }
  exists (size_mb_of big). split.
  - apply oversized_rejected; [lia|].
    intros d Hd. injection Hd as <-. discriminate.
  - apply (size_mb_exact big 26). exact Hsize.
Qed.

End AudioFacts.

(* ================================================================== *)
(** * Further properties of the code *)

(** ** Trimming *)

Module TrimFacts.

Import Sentences.

Lemma lstrip_idem (s : str) : lstrip (lstrip s) = lstrip s.
Proof.
  induction s as [|c s IH]; simpl; [reflexivity|].
  destruct (isspace c) eqn:E; [exact IH|]. simpl. now rewrite E.
Qed.

Lemma lstrip_length (s : str) : (List.length (lstrip s) <= List.length s)%nat.
Proof.
  induction s as [|c s IH]; simpl; [lia|].
  destruct (isspace c); simpl; lia.
Qed.

Lemma lstrip_snoc (x : str) (c : ascii) :
  isspace c = false -> lstrip (x ++ [c]) = lstrip x ++ [c].
Proof.
  intros Hc. induction x as [|d x IH]; simpl.
  - now rewrite Hc.
  - destruct (isspace d); [exact IH | reflexivity].
Qed.

Lemma rstrip_snoc (y : str) (c : ascii) :
  isspace c = false -> rstrip (y ++ [c]) = y ++ [c].
Proof.
  intros Hc. unfold rstrip. rewrite rev_app_distr. simpl. rewrite Hc.
  simpl. now rewrite rev_involutive.
Qed.

Lemma strip_snoc (x : str) (c : ascii) :
  isspace c = false -> strip (x ++ [c]) = lstrip x ++ [c].
Proof.
  intros Hc. unfold strip. now rewrite lstrip_snoc, rstrip_snoc.
Qed.

Lemma rstrip_idem (s : str) : rstrip (rstrip s) = rstrip s.
Proof. unfold rstrip. now rewrite rev_involutive, lstrip_idem. Qed.

(** A text that [lstrip] leaves alone is empty or starts with a character
    that is not whitespace. *)
Lemma lstrip_fixed (s : str) :
  lstrip s = s ->
  s = [] \/ exists c t, s = c :: t /\ isspace c = false.
Proof.
  destruct s as [|c t]; [now left|]. intros H. right. exists c, t.
  split; [reflexivity|]. simpl in H.
  destruct (isspace c); [|reflexivity].
  pose proof (lstrip_length t) as Hl. rewrite H in Hl. simpl in Hl. lia.
Qed.

Lemma lstrip_cons_nonspace (c : ascii) (t : str) :
  isspace c = false -> lstrip (c :: t) = c :: t.
Proof. intros H. simpl. now rewrite H. Qed.

Lemma lstrip_rstrip_fixed (s : str) :
  lstrip s = s -> lstrip (rstrip s) = rstrip s.
Proof.
  intros H. destruct (lstrip_fixed s H) as [-> | (c & t & -> & Hc)];
    [reflexivity|].
  unfold rstrip. simpl rev. rewrite lstrip_snoc by exact Hc.
  rewrite rev_app_distr. simpl. now rewrite Hc.
Qed.

Lemma trimmed_strip (s : str) : trimmed (strip s).
Proof.
  unfold trimmed, strip. split.
  - apply lstrip_rstrip_fixed, lstrip_idem.
  - apply rstrip_idem.
Qed.

Lemma terminator_not_space (c : ascii) :
  ChunkerFixed.is_terminator c = true -> isspace c = false.
Proof.
  unfold ChunkerFixed.is_terminator. simpl. rewrite !orb_true_iff.
  intros [H | [H | [H | H]]]; try discriminate H;
    apply Ascii.eqb_eq in H; subst c; reflexivity.
Qed.

(** What is cut at a terminator and stripped is a complete sentence. *)
Lemma complete_strip_snoc (x : str) (c : ascii) :
  ChunkerFixed.is_terminator c = true -> complete (strip (x ++ [c])).
Proof.
  intros Hc. split; [apply trimmed_strip|].
  rewrite strip_snoc by now apply terminator_not_space.
  exists (lstrip x), c. now split.
Qed.

Lemma complete_nonempty (s : str) : complete s -> s <> [].
Proof. intros [_ (x & c & -> & _)]. now destruct x. Qed.

Lemma take_prefix_length (p q : str) : take (List.length p) (p ++ q) = p.
Proof.
  unfold take. rewrite firstn_app, Nat.sub_diag, firstn_all. simpl.
  apply app_nil_r.
Qed.

End TrimFacts.

(** ** chunker_fixed.py : what is yielded, and [chunk_text] *)

Module ChunkerFixedMore.

Import ChunkerFixed Sentences TrimFacts.

Lemma scan_complete m text rest :
  forall sentences current,
    Forall complete sentences ->
    Forall complete (fst (scan m text rest sentences current)).
Proof.
  induction rest as [|c rest IH]; intros sentences current H; simpl.
  - exact H.
  - destruct (is_terminator c) eqn:Hc; simpl; [|now apply IH].
    destruct (m <=? len (current ++ [c]))%Z; [|now apply IH].
    destruct (peek_ok _); [|now apply IH].
    destruct (_is_false_boundary _); simpl; [now apply IH|].
    apply IH. apply Forall_app. split; [exact H|].
    constructor; [|constructor]. now apply complete_strip_snoc.
Qed.

(** The fragments of a non-empty text: complete sentences, then one last
    fragment, which is not empty. *)
Lemma extract_shape (m : Z) (text : str) :
  text <> [] ->
  exists splits final,
    _extract_sentences m text = splits ++ [final] /\
    Forall complete splits /\ final <> [].
Proof.
  intros Hne. unfold _extract_sentences.
  destruct text as [|c0 text]; [easy|].
  destruct (keeps_buffering (c0 :: text)).
  - exists [], (c0 :: text). repeat split; [constructor | discriminate].
  - pose proof (scan_complete m (c0 :: text) (c0 :: text) [] []
                  (Forall_nil _)) as Hc.
    destruct (scan m (c0 :: text) (c0 :: text) [] []) as [sentences current].
    simpl in Hc.
    destruct current as [|d current].
    + destruct sentences as [|s sentences].
      * exists [], (c0 :: text). repeat split; [constructor | discriminate].
      * exists (removelast (s :: sentences)), (last (s :: sentences) []).
        assert (Hsplit : s :: sentences =
                         removelast (s :: sentences)
                         ++ [last (s :: sentences) []])
          by (apply app_removelast_last; discriminate).
        split; [exact Hsplit|].
        rewrite Hsplit in Hc. apply Forall_app in Hc. destruct Hc as [Ha Hb].
        split; [exact Ha|].
        apply complete_nonempty. now inversion Hb.
    + exists sentences, (d :: current).
      split; [|split; [exact Hc | discriminate]].
      destruct sentences; reflexivity.
Qed.

Lemma removelast_snoc (l : list str) (x : str) : but_last (l ++ [x]) = l.
Proof. unfold but_last. apply removelast_last. Qed.

Lemma last_snoc (l : list str) (x : str) : last_or [] (l ++ [x]) = x.
Proof. unfold last_or. apply last_last. Qed.

Lemma on_token_yields (m : Z) (buffer token : str) :
  Forall (yieldable m) (fst (on_token m buffer token)).
Proof.
  unfold on_token.
  destruct (buffer ++ token) as [|c p] eqn:E; [constructor|].
  destruct (extract_shape m (c :: p)) as (splits & final & Hx & Hc & _);
    [discriminate|].
  rewrite Hx.
  destruct (splits ++ [final]) as [|f fs] eqn:E2; [now destruct splits|].
  rewrite <- E2. cbn [fst]. rewrite removelast_snoc.
  apply Forall_forall. intros s Hs.
  apply filter_In in Hs. destruct Hs as [Hin Hlong].
  split.
  - rewrite Forall_forall in Hc. now apply Hc.
  - unfold long_enough in Hlong. now apply Z.leb_le.
Qed.

Lemma consume_yields (m : Z) (tokens : list str) :
  forall buffer, Forall (yieldable m) (fst (consume m buffer tokens)).
Proof.
  induction tokens as [|token rest IH]; intros buffer; simpl.
  - constructor.
  - pose proof (on_token_yields m buffer token) as H.
    destruct (on_token m buffer token) as [ys buffer'].
    specialize (IH buffer').
    destruct (consume m buffer' rest) as [zs final].
    simpl in *. apply Forall_app. now split.
Qed.

(** X1.  Whatever the tokens, every sentence [chunk_stream] of
    chunker_fixed.py yields before the stream ends is trimmed, ends in ".",
    "!" or "?" and has at least [min_sentence_length] characters; and every
    sentence it yields, the final flush included, is trimmed and not
    empty. *)
Theorem yields_are_complete (m : Z) (tokens : list str) :
  Forall (yieldable m) (fst (consume m [] tokens)) /\
  Forall (fun s => s <> [] /\ trimmed s) (chunk_stream m tokens).
Proof.
  pose proof (consume_yields m tokens []) as H.
  split; [exact H|].
  unfold chunk_stream.
  destruct (consume m [] tokens) as [ys buffer]. simpl in H.
  assert (Hys : Forall (fun s => s <> [] /\ trimmed s) ys).
  { eapply Forall_impl; [|exact H].
    intros s [Hc _]. split; [now apply complete_nonempty | apply Hc]. }
  pose proof (trimmed_strip buffer) as Ht.
  destruct (strip buffer) as [|c final]; [exact Hys|].
  apply Forall_app. split; [exact Hys|].
  constructor; [|constructor]. split; [discriminate | exact Ht].
Qed.

(** Consuming a stream in two parts, the second from the buffer the first
    leaves, yields what consuming it in one go yields. *)
Lemma consume_app (m : Z) (first second : list str) :
  forall buffer,
    consume m buffer (first ++ second) =
    (fst (consume m buffer first)
     ++ fst (consume m (snd (consume m buffer first)) second),
     snd (consume m (snd (consume m buffer first)) second)).
Proof.
  induction first as [|token rest IH]; intros buffer; simpl.
  - now destruct (consume m buffer second).
  - destruct (on_token m buffer token) as [ys buffer'].
    rewrite IH.
    destruct (consume m buffer' rest) as [zs b1]. simpl.
    now rewrite app_assoc.
Qed.

Lemma loop_more_fuel (m : Z) (fuel : nat) :
  forall buffer r,
    ChunkerFixedSync.loop fuel m buffer = Some r ->
    ChunkerFixedSync.loop (S fuel) m buffer = Some r.
Proof.
  induction fuel as [|fuel IH]; intros buffer r H; [discriminate H|].
  cbn [ChunkerFixedSync.loop] in H.
  remember (S fuel) as fuel1 eqn:Ef.
  cbn [ChunkerFixedSync.loop].
  destruct (List.length (_extract_sentences m buffer) <=? 1)%nat;
    [exact H|].
  destruct (ChunkerFixedSync.loop fuel m _) as [[ss rest]|] eqn:E;
    [|discriminate H].
  apply IH in E. rewrite E. exact H.
Qed.

(** Each iteration of [chunk_text] removes a complete, hence non-empty,
    sentence from the front of the buffer: the loop ends. *)
Lemma loop_ends (m : Z) (fuel : nat) :
  forall buffer,
    (List.length buffer < fuel)%nat ->
    exists sentences rest,
      ChunkerFixedSync.loop fuel m buffer = Some (sentences, rest) /\
      Forall (yieldable m) sentences.
Proof.
  induction fuel as [|fuel IH]; intros buffer Hf; [lia|].
  cbn [ChunkerFixedSync.loop].
  destruct (List.length (_extract_sentences m buffer) <=? 1)%nat eqn:Hl.
  - exists [], buffer. split; [reflexivity | constructor].
  - apply Nat.leb_gt in Hl.
    assert (Hne : buffer <> []).
    { intros ->. simpl in Hl. lia. }
    destruct (extract_shape m buffer Hne) as (splits & final & Hx & Hc & _).
    rewrite Hx in *.
    destruct splits as [|s splits].
    { simpl in Hl. lia. }
    simpl hd. inversion Hc as [|? ? Hs Hrest]; subst.
    pose proof (complete_nonempty s Hs) as Hsne.
    assert (Hshorter :
      (List.length (lstrip (drop (List.length s) buffer)) < fuel)%nat).
    { pose proof (lstrip_length (drop (List.length s) buffer)) as H1.
      unfold drop in *. rewrite length_skipn in H1.
      destruct s; [easy|]. destruct buffer; [easy|]. simpl in *. lia. }
    destruct (IH _ Hshorter) as (sentences & rest & -> & Hall).
    eexists _, rest. split; [reflexivity|].
    apply Forall_app. split; [|exact Hall].
    destruct (long_enough m s) eqn:Hlong; [|constructor].
    constructor; [|constructor]. split; [exact Hs|].
    now apply Z.leb_le.
Qed.

(** X3.  [chunk_text] of chunker_fixed.py ends on every text: a number of
    iterations above the length of the text is always enough, and more
    change nothing.  Every sentence it returns is trimmed and not empty;
    the empty text gives no sentence. *)
Theorem chunk_text_ends (m : Z) (text : str) :
  exists sentences,
    (forall fuel, (List.length text < fuel)%nat ->
       ChunkerFixedSync.chunk_text fuel m text = Some sentences) /\
    Forall (fun s => s <> [] /\ trimmed s) sentences /\
    (text = [] -> sentences = []).
Proof.
  destruct (loop_ends m (S (List.length text)) text (Nat.lt_succ_diag_r _))
    as (sentences & rest & Hloop & Hall).
  assert (Hfuel : forall fuel, (List.length text < fuel)%nat ->
            ChunkerFixedSync.loop fuel m text = Some (sentences, rest)).
  { intros fuel Hf.
    replace fuel with ((fuel - S (List.length text)) + S (List.length text))%nat
      by lia.
    induction (fuel - S (List.length text))%nat as [|k IHk];
      [exact Hloop | now apply loop_more_fuel]. }
  exists (match strip rest with [] => sentences | _ => sentences ++ [strip rest] end).
  split; [|split].
  - intros fuel Hf. unfold ChunkerFixedSync.chunk_text.
    rewrite (Hfuel fuel Hf). now destruct (strip rest).
  - assert (Hys : Forall (fun s => s <> [] /\ trimmed s) sentences).
    { eapply Forall_impl; [|exact Hall].
      intros s [Hc _]. split; [now apply complete_nonempty | apply Hc]. }
    pose proof (trimmed_strip rest) as Ht.
    destruct (strip rest) as [|c final]; [exact Hys|].
    apply Forall_app. split; [exact Hys|].
    constructor; [|constructor]. split; [discriminate | exact Ht].
  - intros ->. simpl in Hloop. injection Hloop as <- <-. reflexivity.
Qed.

Lemma chunk_text_ends_witness :
  (List.length (py "Hello there! How are you? Fine") < 31)%nat /\
  ChunkerFixedSync.chunk_text 31 5 (py "Hello there! How are you? Fine")
  = Some (map py ["Hello there!"; "How are you?"; "Fine"]%string).
Proof.
  split; [vm_compute; lia|].
  destruct (chunk_text_ends 5 (py "Hello there! How are you? Fine"))
    as (sentences & Hrun & _).
  rewrite (Hrun 31%nat) by (vm_compute; lia).
  rewrite <- (Hrun 40%nat) by (vm_compute; lia).
  vm_compute. reflexivity.
Defined.

Lemma endswith_snoc (x : str) (c : ascii) : endswith (x ++ [c]) [c] = true.
Proof.
  unfold endswith. rewrite rev_app_distr. simpl.
  rewrite Ascii.eqb_refl. now destruct (rev x).
Qed.

(** X4.  [chunk_text] of chunker_fixed.py never splits a text that ends in
    a full stop: whatever sentences the text holds, the ellipsis check keeps
    it whole, and it comes back as one sentence without its leading
    whitespace. *)
Theorem chunk_text_keeps_text_ending_in_dot (m : Z) (fuel : nat) (x : str) :
  ChunkerFixedSync.chunk_text (S fuel) m (x ++ ["."%char])
  = Some [lstrip x ++ ["."%char]].
Proof.
  unfold ChunkerFixedSync.chunk_text. cbn [ChunkerFixedSync.loop].
  assert (Hx : _extract_sentences m (x ++ ["."%char]) = [x ++ ["."%char]]).
  { unfold _extract_sentences.
    destruct (x ++ ["."%char]) as [|c p] eqn:E; [now destruct x|].
    rewrite <- E.
    assert (Hk : keeps_buffering (x ++ ["."%char]) = true).
    { unfold keeps_buffering, _ends_with_incomplete_ellipsis.
      change (py ".") with ["."%char].
      rewrite endswith_snoc. simpl. now rewrite !orb_true_r. }
    now rewrite Hk. }
  rewrite Hx. simpl Nat.leb. cbv iota.
  rewrite strip_snoc by reflexivity.
  now destruct (lstrip x).
Qed.

Lemma count_app (c : ascii) (a b : str) :
  count c (a ++ b) = (count c a + count c b)%nat.
Proof. unfold count. now rewrite filter_app, length_app. Qed.

Lemma count_erase_ws (q : ascii) (s : str) :
  isspace q = false -> count q s = count q (erase_ws s).
Proof.
  intros Hq. induction s as [|d l IHl]; [reflexivity|].
  unfold count, erase_ws in *. cbn [filter].
  destruct (isspace d) eqn:Hd; cbn [negb].
  - destruct (Ascii.eqb_spec q d) as [-> | _]; [congruence | exact IHl].
  - cbn [filter]. destruct (Ascii.eqb q d); cbn [List.length];
      now rewrite IHl.
Qed.

Lemma inside_quotes_nonempty (text : str) :
  _is_inside_quotes text = true -> text <> [].
Proof. intros H ->. discriminate H. Qed.

(** X23.  An unmatched quote holds everything back.  Once the buffer of
    [chunk_stream] in chunker_fixed.py holds an odd number of double quotes
    or of apostrophes (as after "It's"), no sentence is yielded for as long
    as the tokens bring no further quote character, whatever they hold and
    whatever the minimum length: a stream that starts so comes out as one
    sentence, at the final flush. *)
Theorem open_quote_holds_everything_back (m : Z) (tokens : list str) :
  Forall (fun token => count double_quote token = 0%nat /\
                       count single_quote token = 0%nat) tokens ->
  forall buffer,
    _is_inside_quotes buffer = true ->
    consume m buffer tokens = ([], buffer ++ List.concat tokens) /\
    chunk_stream m (buffer :: tokens)
    = [strip (buffer ++ List.concat tokens)].
Proof.
  intros Hquiet.
  assert (Hconsume : forall buffer,
            _is_inside_quotes buffer = true ->
            consume m buffer tokens = ([], buffer ++ List.concat tokens) /\
            _is_inside_quotes (buffer ++ List.concat tokens) = true).
  { induction Hquiet as [|token rest [Hd Hs] _ IH]; intros buffer Hin.
    - cbn. now rewrite app_nil_r.
    - assert (Hnext : _is_inside_quotes (buffer ++ token) = true).
      { unfold _is_inside_quotes in *.
        now rewrite !count_app, Hd, Hs, !Nat.add_0_r. }
      assert (Hstep : on_token m buffer token = ([], buffer ++ token)).
      { unfold on_token, _extract_sentences, keeps_buffering.
        pose proof (inside_quotes_nonempty _ Hnext) as Hne.
        destruct (buffer ++ token) as [|c text]; [contradiction|].
        rewrite Hnext. reflexivity. }
      destruct (IH _ Hnext) as [Hrest Hall].
      cbn [consume List.concat]. rewrite Hstep, Hrest, app_assoc.
      now split. }
  intros buffer Hin. destruct (Hconsume buffer Hin) as [Hc Hall].
  split; [exact Hc|].
  unfold chunk_stream. cbn [consume].
  assert (Hfirst : on_token m [] buffer = ([], buffer)).
  { unfold on_token, _extract_sentences, keeps_buffering. cbn [app].
    pose proof (inside_quotes_nonempty _ Hin) as Hne.
    destruct buffer as [|c text]; [contradiction|].
    rewrite Hin. reflexivity. }
  rewrite Hfirst, Hc. cbn [app].
  destruct (strip (buffer ++ List.concat tokens)) as [|c final] eqn:E;
    [|reflexivity].
  exfalso.
  assert (Hws : erase_ws (buffer ++ List.concat tokens) = []).
  { rewrite <- erase_ws_strip, E. reflexivity. }
  unfold _is_inside_quotes in Hall.
  rewrite !(count_erase_ws _ (buffer ++ List.concat tokens)), Hws in Hall
    by reflexivity.
  discriminate Hall.
Qed.

Lemma open_quote_holds_everything_back_witness :
  chunk_stream 5
    (map py ["It's"; " fine."; " Really"; " fine."; " Yes."]%string)
  = [py "It's fine. Really fine. Yes."].
Proof.
  destruct (open_quote_holds_everything_back 5
              (map py [" fine."; " Really"; " fine."; " Yes."]%string))
    with (buffer := py "It's") as [_ H].
  - repeat constructor.
  - reflexivity.
  - exact H.
Defined.

End ChunkerFixedMore.

(** ** chunker_fixed.py : the sentences are the trimmed pieces of the text *)

Module ReconstructionFacts.

Import ChunkerFixed ChunkerFixedFacts Sentences TrimFacts Props.

Lemma blank_app (a b : str) : blank a -> blank b -> blank (a ++ b).
Proof. intros Ha Hb. apply Forall_app. now split. Qed.

Lemma lstrip_blank (ws s : str) : blank ws -> lstrip (ws ++ s) = lstrip s.
Proof.
  induction 1 as [|c ws Hc _ IH]; [reflexivity|].
  cbn [app lstrip]. now rewrite Hc.
Qed.

Lemma strip_blank (ws s : str) : blank ws -> strip (ws ++ s) = strip s.
Proof. intros H. unfold strip. now rewrite lstrip_blank. Qed.

(** The whitespace [lstrip] removes. *)
Lemma lstrip_split (s : str) : exists ws, blank ws /\ s = ws ++ lstrip s.
Proof.
  induction s as [|c s (ws & Hws & IH)];
    [exists []; split; [constructor | easy]|].
  cbn [lstrip]. destruct (isspace c) eqn:Hc.
  - exists (c :: ws). split; [now constructor|]. cbn [app]. now rewrite <- IH.
  - exists []. split; [constructor | reflexivity].
Qed.

(** A piece that ends in a terminator loses its leading whitespace only. *)
Lemma terminated_strip (p : str) :
  terminated p -> exists ws, blank ws /\ p = ws ++ strip p.
Proof.
  intros (before & c & -> & Hc).
  rewrite strip_snoc by now apply terminator_not_space.
  destruct (lstrip_split before) as (ws & Hws & Hb).
  exists ws. split; [exact Hws|]. now rewrite app_assoc, <- Hb.
Qed.

Lemma terminated_app (ws p : str) : terminated p -> terminated (ws ++ p).
Proof.
  intros (before & c & -> & Hc). exists (ws ++ before), c.
  split; [now rewrite app_assoc | exact Hc].
Qed.

(** The scan cuts what it reads into pieces, each ending in the terminator
    at which it was split off, and appends the trimmed pieces. *)
Lemma scan_pieces (m : Z) (text rest : str) :
  forall sentences current,
    exists cs,
      fst (scan m text rest sentences current) = sentences ++ map strip cs /\
      current ++ rest
      = List.concat cs ++ snd (scan m text rest sentences current) /\
      Forall terminated cs.
Proof.
  induction rest as [|c rest IH]; intros sentences current.
  - exists []. cbn. rewrite !app_nil_r. repeat split. constructor.
  - cbn [scan].
    assert (Hkeep : current ++ c :: rest = (current ++ [c]) ++ rest)
      by now rewrite <- app_assoc.
    destruct (is_terminator c) eqn:Hc; cbn [andb];
      [|rewrite Hkeep; apply IH].
    destruct (m <=? len (current ++ [c]))%Z; [|rewrite Hkeep; apply IH].
    destruct (peek_ok _); [|rewrite Hkeep; apply IH].
    destruct (_is_false_boundary _); cbn [negb];
      [rewrite Hkeep; apply IH|].
    destruct (IH (sentences ++ [strip (current ++ [c])]) [])
      as (cs & Hfst & Hcat & Hterm).
    exists ((current ++ [c]) :: cs). split; [|split].
    + rewrite Hfst, <- app_assoc. reflexivity.
    + cbn [List.concat].
      rewrite Hkeep, <- (app_assoc (current ++ [c]) (List.concat cs)).
      f_equal. exact Hcat.
    + constructor; [|exact Hterm]. now exists current, c.
Qed.

(** The sentences [_extract_sentences] finds in a text are trimmed pieces
    of it followed by a last fragment, which may have lost the whitespace
    in front of it. *)
Lemma extract_pieces (m : Z) (text : str) :
  text <> [] ->
  exists cs ws final,
    _extract_sentences m text = map strip cs ++ [final] /\
    text = List.concat cs ++ ws ++ final /\
    blank ws /\ Forall terminated cs.
Proof.
  intros Hne. unfold _extract_sentences.
  destruct text as [|c0 text]; [easy|].
  assert (Hwhole : exists cs ws final,
            [c0 :: text] = map strip cs ++ [final] /\
            c0 :: text = List.concat cs ++ ws ++ final /\
            blank ws /\ Forall terminated cs).
  { exists [], [], (c0 :: text). repeat split; constructor. }
  destruct (keeps_buffering (c0 :: text)); [exact Hwhole|].
  destruct (scan_pieces m (c0 :: text) (c0 :: text) [] [])
    as (cs & Hfst & Hcat & Hterm).
  destruct (scan m (c0 :: text) (c0 :: text) [] []) as [sentences current].
  cbn [fst snd app] in Hfst, Hcat. subst sentences.
  destruct current as [|d current].
  - rewrite app_nil_r in Hcat.
    destruct cs as [|c1 cs'] using rev_ind; [exact Hwhole|].
    clear IHcs'.
    apply Forall_app in Hterm. destruct Hterm as [Hterm Hlast].
    inversion Hlast as [|? ? Hc1 _]; subst.
    destruct (terminated_strip c1 Hc1) as (ws & Hws & Hsplit).
    exists cs', ws, (strip c1).
    rewrite map_app. cbn [map].
    split; [now destruct (map strip cs')|].
    split; [|split; assumption].
    rewrite Hcat, concat_snoc. now rewrite <- Hsplit.
  - exists cs, [], (d :: current).
    split; [now destruct (map strip cs)|].
    split; [exact Hcat|]. split; [constructor | exact Hterm].
Qed.

Lemma on_token_pieces (m : Z) (buffer token : str) :
  withheld m buffer token = [] ->
  exists cs ws,
    fst (on_token m buffer token) = map strip cs /\
    buffer ++ token
    = List.concat cs ++ ws ++ snd (on_token m buffer token) /\
    blank ws /\ Forall terminated cs.
Proof.
  unfold withheld, on_token. intros Hnone.
  destruct (buffer ++ token) as [|c p] eqn:E.
  - exists [], []. repeat split; constructor.
  - destruct (extract_pieces m (c :: p)) as (cs & ws & final & Hx & Hcat & H);
      [discriminate|].
    rewrite Hx in Hnone |- *.
    destruct (map strip cs ++ [final]) as [|f fs] eqn:E2;
      [now destruct (map strip cs)|].
    rewrite <- E2 in Hnone |- *. cbn [fst snd].
    unfold but_last, last_or in *.
    rewrite removelast_last in Hnone |- *. rewrite last_last.
    rewrite (filter_none_withheld _ _ Hnone).
    exists cs, ws. split; [reflexivity|]. split; [exact Hcat | exact H].
Qed.

(** The token loop, from a buffer that is what is pending of the text
    without some whitespace in front of it. *)
Lemma consume_pieces (m : Z) (tokens : list str) :
  forall buffer ws,
    blank ws ->
    nothing_withheld m buffer tokens = true ->
    exists pieces ws',
      fst (consume m buffer tokens) = map strip pieces /\
      ws ++ buffer ++ List.concat tokens
      = List.concat pieces ++ ws' ++ snd (consume m buffer tokens) /\
      blank ws' /\ Forall terminated pieces.
Proof.
  induction tokens as [|token rest IH]; intros buffer ws Hws Hnone.
  - exists [], ws. cbn. rewrite app_nil_r. repeat split; [exact Hws|].
    constructor.
  - cbn [nothing_withheld] in Hnone.
    destruct (withheld m buffer token) eqn:W; [|discriminate Hnone].
    destruct (on_token_pieces m buffer token W)
      as (cs & ws1 & Hys & Hcat & Hws1 & Hterm).
    cbn [consume List.concat].
    destruct (on_token m buffer token) as [ys buffer'].
    cbn [fst snd] in Hys, Hcat, Hnone. subst ys.
    assert (Htext : ws ++ buffer ++ token ++ List.concat rest
                    = ws ++ List.concat cs ++ ws1 ++ buffer'
                      ++ List.concat rest).
    { rewrite (app_assoc buffer), Hcat, <- !app_assoc. reflexivity. }
    rewrite Htext. clear Htext Hcat.
    destruct cs as [|c1 cs'].
    + destruct (IH buffer' (ws ++ ws1) (blank_app _ _ Hws Hws1) Hnone)
        as (pieces & ws' & Hzs & Hrest & Hws' & Hpieces).
      destruct (consume m buffer' rest) as [zs final].
      cbn [fst snd] in *. subst zs.
      exists pieces, ws'. split; [reflexivity|].
      split; [|split; assumption].
      cbn [List.concat app]. rewrite <- Hrest, <- !app_assoc. reflexivity.
    + destruct (IH buffer' ws1 Hws1 Hnone)
        as (pieces & ws' & Hzs & Hrest & Hws' & Hpieces).
      destruct (consume m buffer' rest) as [zs final].
      cbn [fst snd] in *. subst zs.
      inversion Hterm as [|? ? Hc1 Hcs']; subst.
      exists ((ws ++ c1) :: cs' ++ pieces), ws'.
      split; [|split; [|split]].
      * cbn [map]. rewrite map_app, (strip_blank ws c1 Hws). reflexivity.
      * cbn [List.concat]. rewrite concat_app, <- !app_assoc.
        do 3 f_equal. exact Hrest.
      * exact Hws'.
      * constructor; [now apply terminated_app|].
        apply Forall_app. now split.
Qed.



End ReconstructionFacts.


(** ** chunker.py : [_extract_sentence] and [chunk_text] *)

Module ChunkerMore.

Import Chunker Sentences TrimFacts.

Lemma positions_are_cuts (text : str) :
  forall (i pos : nat),
    In pos (positions_from i text) ->
    exists x c rest,
      text = x ++ c :: rest /\
      pos = (i + List.length x)%nat /\
      is_terminator c = true.
Proof.
  induction text as [|d text IH]; intros i pos Hin; simpl in Hin.
  - destruct Hin.
  - assert (Hnext : In pos (positions_from (S i) text) ->
              exists x c rest,
                d :: text = x ++ c :: rest /\
                pos = (i + List.length x)%nat /\
                is_terminator c = true).
    { intros Hp.
      destruct (IH (S i) pos Hp) as (x & c & rest & -> & -> & Hc).
      exists (d :: x), c, rest. simpl.
      repeat split; [lia | exact Hc]. }
    destruct (is_terminator d) eqn:Hd; [|now apply Hnext].
    destruct Hin as [<- | Hin]; [|now apply Hnext].
    exists [], d, text. simpl. repeat split; [lia | exact Hd].
Qed.

Lemma take_cut (x : str) (c : ascii) (rest : str) :
  take (List.length x + 1) (x ++ c :: rest) = x ++ [c].
Proof.
  unfold take.
  replace (x ++ c :: rest) with ((x ++ [c]) ++ rest)
    by now rewrite <- app_assoc.
  replace (List.length x + 1)%nat with (List.length (x ++ [c]))
    by (rewrite length_app; reflexivity).
  apply take_prefix_length.
Qed.

Lemma first_valid_spec (m : Z) (text : str) (positions : list nat) :
  (forall pos, In pos positions ->
     exists x c rest,
       text = x ++ c :: rest /\ pos = List.length x /\
       is_terminator c = true) ->
  first_valid m text positions = [] \/
  (cut_of text (first_valid m text positions) /\
   (m <= len (first_valid m text positions))%Z /\
   existsb (endswith (lower (first_valid m text positions))) abbreviations
   = false).
Proof.
  induction positions as [|pos more IH]; intros Hcuts.
  - now left.
  - assert (Hmore : forall p, In p more ->
              exists x c rest,
                text = x ++ c :: rest /\ p = List.length x /\
                is_terminator c = true)
      by (intros p Hp; apply Hcuts; now right).
    cbn [first_valid].
    set (sentence := strip (take (pos + 1) text)).
    destruct (existsb (endswith (lower sentence)) abbreviations) eqn:Habbr;
      [now apply IH|].
    destruct (len sentence <? m)%Z eqn:Hlen; [now apply IH|].
    right.
    destruct (Hcuts pos (or_introl eq_refl)) as (x & c & rest & Ht & -> & Hc).
    split; [|split; [now apply Z.ltb_ge | exact Habbr]].
    exists x, c, rest. split; [exact Ht|]. split; [exact Hc|].
    unfold sentence. rewrite Ht at 1. rewrite take_cut.
    rewrite strip_snoc, lstrip_snoc;
      try (now apply terminator_not_space); reflexivity.
Qed.

(** [_extract_sentence] returns the empty string or the text up to one of
    its terminators, without leading whitespace. *)
Lemma extract_sentence_cut (m : Z) (text : str) :
  _extract_sentence m text = [] \/
  (cut_of text (_extract_sentence m text) /\
   complete (_extract_sentence m text) /\
   (m <= len (_extract_sentence m text))%Z /\
   existsb (endswith (lower (_extract_sentence m text))) abbreviations
   = false /\
   (lstrip text = text ->
    exists rest, text = _extract_sentence m text ++ rest)).
Proof.
  unfold _extract_sentence.
  destruct (first_valid_spec m text (positions_from 0 text))
    as [He | (Hcut & Hlen & Habbr)].
  - intros pos Hin.
    destruct (positions_are_cuts text 0 pos Hin) as (x & c & rest & H).
    exists x, c, rest. exact H.
  - now left.
  - right. split; [exact Hcut|].
    destruct Hcut as (x & c & rest & Ht & Hc & Hs).
    pose proof (terminator_not_space c Hc) as Hsp.
    split; [|split; [exact Hlen | split; [exact Habbr|]]].
    + rewrite Hs, (lstrip_snoc x c Hsp), <- (strip_snoc x c Hsp).
      now apply complete_strip_snoc.
    + intros Hfixed. exists rest. rewrite Hs.
      assert (Hx : lstrip (x ++ [c]) = x ++ [c]).
      { destruct x as [|d x]; [simpl; now rewrite Hsp|].
        rewrite Ht in Hfixed.
        destruct (lstrip_fixed _ Hfixed) as [H | (d' & t & H & Hd)];
          [discriminate H|].
        injection H as <- _. now apply lstrip_cons_nonspace. }
      rewrite Hx, Ht, <- app_assoc. reflexivity.
Qed.

(** One iteration of the token loop of chunker.py yields nothing or a
    sentence cut from the buffer. *)
Lemma basic_on_token_yields (m : Z) (buffer token sentence buffer' : str) :
  on_token m buffer token = (buffer', Some sentence) ->
  cut_of (buffer ++ token) sentence /\
  yieldable m sentence /\
  existsb (endswith (lower sentence)) abbreviations = false.
Proof.
  unfold on_token.
  destruct (_has_sentence_boundary (buffer ++ token)); [|discriminate].
  destruct (extract_sentence_cut m (buffer ++ token))
    as [He | (Hcut & Hc & Hlen & Habbr & _)].
  - rewrite He. cbn. discriminate.
  - destruct (truthy _ && _); [|discriminate].
    intros H. injection H as _ <-.
    split; [exact Hcut|]. split; [|exact Habbr]. now split.
Qed.

(** X5.  What chunker.py yields.  [_extract_sentence] returns the empty
    string or the text up to one of its terminators without leading
    whitespace, the beginning of the text itself when the text has no leading
    whitespace.  Every sentence [chunk_stream] yields before the final flush
    is such a cut: trimmed, ending in a terminator, at least
    [min_sentence_length] long and not ending (case aside) in one of the
    listed abbreviations; every sentence it yields, the flush included, is
    non-empty and trimmed. *)
Theorem basic_yields_are_sentences (m : Z) (tokens : list str) :
  (forall text,
     _extract_sentence m text = [] \/
     (cut_of text (_extract_sentence m text) /\
      (lstrip text = text ->
       exists rest, text = _extract_sentence m text ++ rest))) /\
  Forall (fun s => yieldable m s /\
                   existsb (endswith (lower s)) abbreviations = false)
         (fst (consume m [] tokens)) /\
  Forall (fun s => s <> [] /\ trimmed s) (chunk_stream m tokens).
Proof.
  assert (Hyields : forall buffer,
            Forall (fun s => yieldable m s /\
                       existsb (endswith (lower s)) abbreviations = false)
                   (fst (consume m buffer tokens))).
  { induction tokens as [|token rest IH]; intros buffer; [constructor|].
    cbn [consume].
    destruct (on_token m buffer token) as [buffer' y] eqn:E.
    specialize (IH buffer').
    destruct (consume m buffer' rest) as [ys final]. cbn [fst] in *.
    destruct y as [sentence|]; [|exact IH].
    constructor; [|exact IH].
    destruct (basic_on_token_yields _ _ _ _ _ E) as (_ & Hy & Ha).
    now split. }
  split; [|split; [apply Hyields|]].
  - intros text.
    destruct (extract_sentence_cut m text)
      as [He | (Hcut & _ & _ & _ & Hprefix)]; [now left | right; now split].
  - unfold chunk_stream. specialize (Hyields []).
    destruct (consume m [] tokens) as [ys buffer]. cbn [fst] in Hyields.
    assert (Hys : Forall (fun s => s <> [] /\ trimmed s) ys).
    { eapply Forall_impl; [|exact Hyields].
      intros s [[Hc _] _]. split; [now apply complete_nonempty | apply Hc]. }
    pose proof (trimmed_strip buffer) as Ht.
    destruct (strip buffer) as [|c final]; cbn [truthy]; [exact Hys|].
    apply Forall_app. split; [exact Hys|].
    constructor; [|constructor]. split; [discriminate | exact Ht].
Qed.

Lemma basic_loop_more_fuel (m : Z) (fuel : nat) :
  forall buffer r,
    ChunkerSync.loop fuel m buffer = Some r ->
    ChunkerSync.loop (S fuel) m buffer = Some r.
Proof.
  induction fuel as [|fuel IH]; intros buffer r H; [discriminate H|].
  cbn [ChunkerSync.loop] in H.
  remember (S fuel) as fuel1 eqn:Ef.
  cbn [ChunkerSync.loop].
  destruct (_has_sentence_boundary buffer); [|exact H].
  destruct (truthy _ && _); [|exact H].
  destruct (ChunkerSync.loop fuel m _) as [[ss rest]|] eqn:E;
    [|discriminate H].
  apply IH in E. rewrite E. exact H.
Qed.

(** Each iteration removes a non-empty sentence: the loop ends.  From a
    buffer without leading whitespace nothing but whitespace is lost. *)
Lemma basic_loop_ends (m : Z) (fuel : nat) :
  forall buffer,
    (List.length buffer < fuel)%nat ->
    exists sentences rest,
      ChunkerSync.loop fuel m buffer = Some (sentences, rest) /\
      (lstrip buffer = buffer ->
       erase_ws (List.concat sentences ++ rest) = erase_ws buffer).
Proof.
  induction fuel as [|fuel IH]; intros buffer Hf; [lia|].
  cbn [ChunkerSync.loop].
  destruct (_has_sentence_boundary buffer) eqn:Hb;
    [|exists [], buffer; now split].
  destruct (extract_sentence_cut m buffer)
    as [He | (_ & Hc & _ & _ & Hprefix)].
  { rewrite He. simpl. exists [], buffer. now split. }
  set (sentence := _extract_sentence m buffer) in *. clearbody sentence.
  destruct (truthy sentence && (m <=? len sentence)%Z);
    [|exists [], buffer; now split].
  pose proof (complete_nonempty sentence Hc) as Hne.
  assert (Hshorter :
    (List.length (lstrip (drop (List.length sentence) buffer)) < fuel)%nat).
  { pose proof (lstrip_length (drop (List.length sentence) buffer)) as H1.
    unfold drop in *. rewrite length_skipn in H1.
    destruct sentence; [easy|].
    destruct buffer; [discriminate Hb|]. simpl in *. lia. }
  destruct (IH _ Hshorter) as (sentences & rest & -> & Hkeep).
  exists (sentence :: sentences), rest. split; [reflexivity|].
  intros Hfixed. destruct (Hprefix Hfixed) as [tail Htail].
  specialize (Hkeep (lstrip_idem _)).
  simpl List.concat. rewrite <- app_assoc, erase_ws_app, Hkeep.
  rewrite erase_ws_lstrip.
  rewrite Htail. unfold drop. rewrite skipn_app, skipn_all, Nat.sub_diag.
  simpl. now rewrite <- erase_ws_app.
Qed.

(** X6.  [chunk_text] of chunker.py ends on every text: a number of
    iterations above the length of the text is enough, and more change
    nothing.  For a text without leading whitespace the sentences returned
    hold every non-whitespace character of the text, once and in order. *)
Theorem basic_chunk_text_ends (m : Z) (text : str) :
  exists sentences,
    (forall fuel, (List.length text < fuel)%nat ->
       ChunkerSync.chunk_text fuel m text = Some sentences) /\
    (lstrip text = text ->
     erase_ws (List.concat sentences) = erase_ws text).
Proof.
  destruct (basic_loop_ends m (S (List.length text)) text
              (Nat.lt_succ_diag_r _))
    as (sentences & rest & Hloop & Hkeep).
  assert (Hfuel : forall fuel, (List.length text < fuel)%nat ->
            ChunkerSync.loop fuel m text = Some (sentences, rest)).
  { intros fuel Hf.
    replace fuel with ((fuel - S (List.length text)) + S (List.length text))%nat
      by lia.
    induction (fuel - S (List.length text))%nat as [|k IHk];
      [exact Hloop | now apply basic_loop_more_fuel]. }
  exists (if truthy (strip rest) then sentences ++ [strip rest]
          else sentences).
  split.
  - intros fuel Hf. unfold ChunkerSync.chunk_text.
    now rewrite (Hfuel fuel Hf).
  - intros Hfixed. rewrite <- (Hkeep Hfixed), erase_ws_app.
    rewrite <- (erase_ws_strip rest).
    destruct (strip rest) as [|c final]; simpl truthy; cbv iota.
    + simpl. now rewrite app_nil_r.
    + now rewrite concat_snoc, erase_ws_app.
Qed.

Lemma basic_chunk_text_ends_witness :
  (List.length (py "Hello there! How are you? Fine.") < 32)%nat /\
  lstrip (py "Hello there! How are you? Fine.")
  = py "Hello there! How are you? Fine." /\
  ChunkerSync.chunk_text 32 5 (py "Hello there! How are you? Fine.")
  = Some (map py ["Hello there!"; "How are you?"; "Fine."]%string).
Proof.
  split; [vm_compute; lia|]. split; [reflexivity|].
  destruct (basic_chunk_text_ends 5 (py "Hello there! How are you? Fine."))
    as (sentences & Hrun & _).
  rewrite (Hrun 32%nat) by (vm_compute; lia).
  rewrite <- (Hrun 40%nat) by (vm_compute; lia).
  vm_compute. reflexivity.
Defined.

(** X26.  A buffer that starts with one whitespace character makes
    chunker.py keep the terminator of the sentence it yields: the sentence
    is cut from the trimmed buffer but the buffer is advanced by the length
    of the sentence from its untrimmed start, so that what is left begins
    with the terminator just yielded, which will be yielded again. *)
Theorem leading_space_leaves_terminator (m : Z)
  (buffer token buffer' sentence : str) (space : ascii) (body : str) :
  on_token m buffer token = (buffer', Some sentence) ->
  buffer ++ token = space :: body ->
  isspace space = true ->
  lstrip body = body ->
  exists before c rest,
    sentence = before ++ [c] /\
    is_terminator c = true /\
    body = sentence ++ rest /\
    buffer' = c :: rest.
Proof.
  intros Hstep Hbuffer Hspace Hbody.
  destruct (basic_on_token_yields _ _ _ _ _ Hstep)
    as ((x & c & rest & Htext & Hc & Hs) & _ & _).
  pose proof (terminator_not_space c Hc) as Hnot.
  rewrite Hbuffer in Htext.
  destruct x as [|d x]; cbn [app] in Htext.
  { injection Htext as -> _. congruence. }
  injection Htext as <- Hrest.
  assert (Hsentence : sentence = x ++ [c]).
  { rewrite Hs. cbn [app lstrip]. rewrite Hspace.
    rewrite Hrest in Hbody.
    destruct x as [|e x]; cbn [app lstrip] in *; [now rewrite Hnot|].
    destruct (isspace e) eqn:He; [|reflexivity].
    exfalso.
    assert (Hlen : List.length (lstrip (x ++ c :: rest))
                   = S (List.length (x ++ c :: rest)))
      by (rewrite Hbody; reflexivity).
    pose proof (lstrip_length (x ++ c :: rest)). lia. }
  exists x, c, rest. split; [exact Hsentence|]. split; [exact Hc|].
  split; [rewrite Hsentence, Hrest, <- app_assoc; reflexivity|].
  revert Hstep. unfold on_token. rewrite Hbuffer.
  destruct (_has_sentence_boundary (space :: body)); [|discriminate].
  destruct (truthy _ && _); [|discriminate].
  intros H. injection H as <- Hsame. rewrite Hsame, Hsentence, Hrest.
  rewrite length_app. cbn [List.length].
  replace (List.length x + 1)%nat with (S (List.length x)) by lia.
  unfold drop. cbn [skipn].
  rewrite skipn_app, skipn_all, Nat.sub_diag. cbn [skipn app lstrip].
  now rewrite Hnot.
Qed.

Lemma leading_space_leaves_terminator_witness :
  on_token 5 (py " How are you") (py "? ")
  = (py "? ", Some (py "How are you?")).
Proof.
  destruct (on_token 5 (py " How are you") (py "? ")) as [left [s|]] eqn:E;
    [|vm_compute in E; discriminate E].
  destruct (leading_space_leaves_terminator 5 (py " How are you") (py "? ")
              left s " "%char (py "How are you? ") E eq_refl eq_refl eq_refl)
    as (before & c & rest & Hs & Hc & Hbody & Hleft).
  vm_compute in E. exact (eq_sym E).
Defined.

End ChunkerMore.

(* ------------------------------------------------------------------ *)
(** ** llm/mock.py : the tokens of the mock generator *)

Module MockLLMFacts.

Import MockLLM.

Lemma split_from_chars (word text : str) :
  erase_ws (List.concat (split_from word text))
  = erase_ws word ++ erase_ws text.
Proof.
  revert word. induction text as [|c rest IH]; intros word.
  - destruct word; simpl; now rewrite ?app_nil_r.
  - cbn [split_from]. unfold erase_ws at 3. cbn [filter].
    fold (erase_ws rest).
    destruct (isspace c) eqn:Hc; cbn [negb].
    + destruct word as [|d word].
      * now rewrite IH.
      * cbn [List.concat]. now rewrite erase_ws_app, IH.
    + rewrite IH, erase_ws_app. unfold erase_ws at 2. cbn [filter].
      rewrite Hc. cbn [negb]. now rewrite <- app_assoc.
Qed.

Lemma split_from_words (word text : str) :
  erase_ws word = word ->
  Forall (fun w => w <> [] /\ erase_ws w = w) (split_from word text).
Proof.
  revert word. induction text as [|c rest IH]; intros word Hw.
  - destruct word; simpl; [constructor|].
    constructor; [now split | constructor].
  - cbn [split_from]. destruct (isspace c) eqn:Hc.
    + destruct word as [|d word]; [now apply IH|].
      constructor; [now split | now apply IH].
    + apply IH. rewrite erase_ws_app, Hw. unfold erase_ws. cbn [filter].
      now rewrite Hc.
Qed.

Lemma spaced_chars (words : list str) :
  erase_ws (List.concat (spaced words)) = erase_ws (List.concat words).
Proof.
  induction words as [|w words IH]; [reflexivity|].
  cbn [spaced List.concat]. rewrite !erase_ws_app, IH. reflexivity.
Qed.

Lemma spaced_length (words : list str) :
  List.length (spaced words) = (2 * List.length words)%nat.
Proof. induction words as [|w words IH]; simpl; lia. Qed.

(** X7.  [_tokenize] keeps every non-whitespace character of the text, in
    order, and nothing else but single spaces: each token is one space or a
    non-empty word free of whitespace, the two alternate starting and ending
    with a word, and there is no token exactly when the text is blank. *)
Theorem tokenize_keeps_the_words (text : str) :
  erase_ws (List.concat (_tokenize text)) = erase_ws text /\
  Forall (fun token => token = py " " \/ (token <> [] /\ erase_ws token = token))
         (_tokenize text) /\
  (forall i token, nth_error (_tokenize text) i = Some token ->
     (token = py " " <-> Nat.odd i = true)) /\
  Nat.even (List.length (_tokenize text))
  = match erase_ws text with [] => true | _ => false end.
Proof.
  pose proof (split_from_chars [] text) as Hchars.
  pose proof (split_from_words [] text eq_refl) as Hwords.
  unfold _tokenize, split. simpl in Hchars.
  destruct (split_from [] text) as [|word rest].
  { simpl in Hchars. rewrite <- Hchars. repeat split; try constructor.
    - intros _. now destruct i.
    - destruct i; discriminate. }
  inversion Hwords as [|? ? [Hne Hword] Hrest]; subst.
  assert (Hspaced : forall i token,
            nth_error (spaced rest) i = Some token ->
            (token = py " " <-> Nat.even i = true)).
  { clear Hchars Hwords. induction Hrest as [|w ws [Hn Hw] _ IH];
      intros i token Hi; [now destruct i|].
    destruct i as [|[|i]]; simpl in Hi.
    - injection Hi as <-. now split.
    - injection Hi as <-. split; [|discriminate].
      intros ->. discriminate Hw.
    - rewrite (IH i token Hi). reflexivity. }
  split; [|split; [|split]].
  - cbn [List.concat] in *. rewrite erase_ws_app, spaced_chars.
    now rewrite <- erase_ws_app.
  - constructor; [right; now split|].
    clear Hchars Hwords Hspaced.
    induction Hrest as [|w ws Hw _ IH]; [constructor|].
    cbn [spaced]. constructor; [now left|]. constructor; [now right | exact IH].
  - intros [|i] token Hi; simpl in Hi.
    + injection Hi as <-. split; [|discriminate].
      intros ->. discriminate Hword.
    + rewrite (Hspaced i token Hi), Nat.odd_succ. reflexivity.
  - cbn [List.length]. rewrite spaced_length, Nat.even_succ.
    rewrite <- Nat.negb_even, Nat.even_mul. simpl.
    rewrite <- Hchars. cbn [List.concat]. rewrite erase_ws_app, Hword.
    destruct word; [contradiction | reflexivity].
Qed.

End MockLLMFacts.

(* ------------------------------------------------------------------ *)
(** ** core/retry.py : bounds and schedule of [retry_async] *)

Module RetryMore.

Import Retry RetryTrace.

Section Retrying.

Variable T : Type.
Variable World : Type.
Variable func : World -> Outcome T * World.
Variable func_name : Outcome str.
Variable str_raises : Exn -> option Exn.
Variable retryable : Exn -> bool.
Variable on_retry : option (Exn -> Z -> option Exn).
Variable random : Z -> Q.
Variable config : RetryConfig.

Local Abbreviation attempts_from :=
  (attempts func func_name str_raises retryable on_retry random config).

Lemma backoff_cons (first : Z) (k : nat) :
  backoff config random first (S k)
  = backoff_delay_ms config (random first) first / 1000
    :: backoff config random (first + 1) k.
Proof.
  unfold backoff. cbn [seq map]. rewrite Z.add_0_r. f_equal.
  rewrite <- seq_shift, map_map. apply map_ext. intros i.
  now replace (first + 1 + Z.of_nat i)%Z with (first + Z.of_nat (S i))%Z
    by lia.
Qed.

Lemma numbered_cons (first : Z) (k : nat) :
  numbered first (S k) = (first + 1)%Z :: numbered (first + 1) k.
Proof.
  unfold numbered. cbn [seq map]. rewrite Z.add_0_r. f_equal.
  rewrite <- seq_shift, map_map. apply map_ext. intros i. lia.
Qed.

Ltac seven := split; [|split; [|split; [|split; [|split; [|split]]]]].

(** The loop, iteration by iteration, while the iterations left and the
    loop variable add up to [max_attempts]. *)
Lemma attempts_shape (remaining : nat) :
  forall (attempt : Z) (last_exception : option Exn) (w : World),
    max_attempts config = (attempt + Z.of_nat (S remaining))%Z ->
    let r := attempts_from (S remaining) attempt last_exception w in
    (1 <= List.length (invocations (trace r)) <= S remaining)%nat /\
    (List.length (sleeps (trace r))
     < List.length (invocations (trace r)))%nat /\
    (callback_returns on_retry ->
     S (List.length (sleeps (trace r)))
     = List.length (invocations (trace r))) /\
    sleeps (trace r)
    = backoff config random attempt (List.length (sleeps (trace r))) /\
    map snd (notifications (trace r))
    = numbered attempt (List.length (notifications (trace r))) /\
    map (@Raised T) (map fst (notifications (trace r)))
    = firstn (List.length (notifications (trace r)))
             (invocations (trace r)) /\
    (on_retry = None -> notifications (trace r) = []).
Proof.
  induction remaining as [|remaining IH];
    intros attempt last_exception w Hmax; cbv zeta;
    rewrite RetryFacts.attempts_unfold;
    destruct (func w) as [[value | e] w'];
    try (cbn; seven; solve [lia | reflexivity | intros; (lia || reflexivity)]).
  - replace (attempt =? max_attempts config - 1)%Z with true
      by (symmetry; apply Z.eqb_eq; lia).
    destruct (retryable e); [destruct (error_message_raises func_name)|];
      cbn; seven; solve [lia | reflexivity | intros; (lia || reflexivity)].
  - destruct (retryable e);
      [|cbn; seven; solve [lia | reflexivity | intros; (lia || reflexivity)]].
    replace (attempt =? max_attempts config - 1)%Z with false
      by (symmetry; apply Z.eqb_neq; lia).
    unfold get_delay_ms.
    destruct (Qeq_bool (exponential_base config) 0 && (attempt <? 0)%Z);
      [cbn; seven; solve [lia | reflexivity | intros; (lia || reflexivity)]|].
    destruct (pow_overflows (exponential_base config) attempt);
      [cbn; seven; solve [lia | reflexivity | intros; (lia || reflexivity)]|].
    destruct (warning_message_raises func_name str_raises e);
      [cbn; seven; solve [lia | reflexivity | intros; (lia || reflexivity)]|].
    assert (Hnext : max_attempts config
                    = (attempt + 1 + Z.of_nat (S remaining))%Z) by lia.
    specialize (IH (attempt + 1)%Z (Some e) w' Hnext). cbv zeta in IH.
    set (later := attempts_from (S remaining) (attempt + 1)%Z (Some e) w')
      in *.
    destruct IH as (Hinv & Hsl & Hcb & Hsleeps & Hnum & Hexn & Hnone).
    clearbody later.
    unfold callback_returns in *.
    destruct on_retry as [callback|] eqn:Hon.
    + destruct (callback e (attempt + 1)%Z) as [e'|] eqn:Hcall.
      * cbn [trace invocations sleeps notifications List.length
             map fst snd firstn]. seven; try lia; try reflexivity.
        -- unfold numbered. cbn. now rewrite Z.add_0_r.
        -- discriminate.
      * cbn [and_then trace invocations sleeps notifications List.length
             map fst snd firstn].
        seven; try lia.
        -- intros H. specialize (Hcb H). lia.
        -- now rewrite backoff_cons, <- Hsleeps.
        -- now rewrite numbered_cons, <- Hnum.
        -- now rewrite <- Hexn.
        -- discriminate.
    + cbn [and_then trace invocations sleeps notifications List.length
           map fst snd firstn].
      seven; try lia.
      * now rewrite backoff_cons, <- Hsleeps.
      * rewrite (Hnone eq_refl). reflexivity.
      * rewrite (Hnone eq_refl). reflexivity.
      * intros _. now apply Hnone.
Qed.

(** X8.  [retry_async] invokes the operation at most [max_attempts] times
    and sleeps only between two invocations, whatever the operation and the
    callback do.  With [max_attempts <= 0] it invokes nothing and raises the
    [RuntimeError] of its last line; with [max_attempts >= 1] it invokes the
    operation at least once. *)
Theorem retry_invocation_bounds (w : World) :
  let r := retry_async func func_name str_raises retryable on_retry random
             config w in
  (List.length (invocations (trace r))
   <= Z.to_nat (max_attempts config))%nat /\
  (List.length (sleeps (trace r))
   <= List.length (invocations (trace r)) - 1)%nat /\
  ((max_attempts config <= 0)%Z ->
   trace r = [] /\ outcome r = Raised retry_logic_error /\ world r = w) /\
  ((1 <= max_attempts config)%Z ->
   exists later, invocations (trace r) = fst (func w) :: later).
Proof.
  cbv zeta. unfold retry_async.
  destruct (Z.to_nat (max_attempts config)) as [|remaining] eqn:E.
  - cbn. split; [lia|]. split; [lia|]. split; [now intros _ | lia].
  - destruct (attempts_shape remaining 0%Z None w ltac:(lia))
      as (Hinv & Hsl & _).
    split; [lia|]. split; [lia|]. split; [lia|].
    intros _. apply RetryFacts.first_invocation.
Qed.

(** X9.  The backoff schedule of a run: the k-th sleep (k = 0, 1, ...) lasts
    [get_delay_ms(k) / 1000] seconds, the k-th call of [on_retry] receives
    the exception of the k-th invocation and the number k + 1, and, when the
    callback always returns, there is exactly one sleep between two
    consecutive invocations. *)
Theorem retry_backoff_schedule (w : World) :
  let r := retry_async func func_name str_raises retryable on_retry random
             config w in
  sleeps (trace r)
  = backoff config random 0 (List.length (sleeps (trace r))) /\
  map snd (notifications (trace r))
  = numbered 0 (List.length (notifications (trace r))) /\
  map (@Raised T) (map fst (notifications (trace r)))
  = firstn (List.length (notifications (trace r))) (invocations (trace r)) /\
  (on_retry = None -> notifications (trace r) = []) /\
  (callback_returns on_retry ->
   List.length (sleeps (trace r))
   = (List.length (invocations (trace r)) - 1)%nat).
Proof.
  cbv zeta. unfold retry_async.
  destruct (Z.to_nat (max_attempts config)) as [|remaining] eqn:E.
  - cbn. now repeat split.
  - destruct (attempts_shape remaining 0%Z None w ltac:(lia))
      as (Hinv & Hsl & Hcb & Hsleeps & Hnum & Hexn & Hnone).
    split; [exact Hsleeps|]. split; [exact Hnum|]. split; [exact Hexn|].
    split; [exact Hnone|].
    intros H. specialize (Hcb H). lia.
Qed.

(** An exception that is not of a retryable type ends the loop. *)
Lemma attempts_not_retryable (remaining : nat) :
  forall (attempt : Z) (last_exception : option Exn) (w : World) (e : Exn),
    retryable e = false ->
    In (Raised e)
       (invocations
          (trace (attempts_from remaining attempt last_exception w))) ->
    outcome (attempts_from remaining attempt last_exception w) = Raised e /\
    exists earlier,
      trace (attempts_from remaining attempt last_exception w)
      = earlier ++ [Invoked (Raised e)].
Proof.
  induction remaining as [|remaining IH];
    intros attempt last_exception w e He Hin.
  - cbn [attempts] in Hin. destruct last_exception; destruct Hin.
  - rewrite RetryFacts.attempts_unfold in *.
    destruct (func w) as [[value | e0] w'].
    + destruct Hin as [H | []]. discriminate H.
    + destruct (retryable e0) eqn:Hr.
      * assert (Hfirst : @Raised T e0 = Raised e -> False).
        { intros H. injection H as ->. congruence. }
        destruct (attempt =? max_attempts config - 1)%Z.
        { destruct (error_message_raises func_name);
            destruct Hin as [H | []]; now apply Hfirst in H. }
        destruct (get_delay_ms config (random attempt) attempt)
          as [delay_ms | o];
          [|destruct Hin as [H | []]; now apply Hfirst in H].
        destruct (warning_message_raises func_name str_raises e0);
          [destruct Hin as [H | []]; now apply Hfirst in H|].
        destruct on_retry as [callback|].
        -- destruct (callback e0 (attempt + 1)%Z).
           { destruct Hin as [H | []]; now apply Hfirst in H. }
           cbn [and_then trace invocations] in Hin.
           destruct Hin as [H | Hin]; [now apply Hfirst in H|].
           destruct (IH _ _ _ _ He Hin) as (Hout & earlier & Htrace).
           split; [exact Hout|].
           eexists (Invoked (Raised e0) :: Notified T e0 (attempt + 1)
                      :: Slept T _ :: earlier).
           cbn. now rewrite Htrace.
        -- cbn [and_then trace invocations] in Hin.
           destruct Hin as [H | Hin]; [now apply Hfirst in H|].
           destruct (IH _ _ _ _ He Hin) as (Hout & earlier & Htrace).
           split; [exact Hout|].
           eexists (Invoked (Raised e0) :: Slept T _ :: earlier).
           cbn. now rewrite Htrace.
      * destruct Hin as [H | []]. injection H as ->.
        split; [reflexivity|]. now exists [].
Qed.

(** X10.  An exception outside [retryable_exceptions] is never retried: the
    invocation that raises it is the last thing [retry_async] does, with no
    callback and no sleep after it, and the exception is raised to the
    caller. *)
Theorem non_retryable_is_raised_at_once (w : World) (e : Exn) :
  let r := retry_async func func_name str_raises retryable on_retry random
             config w in
  retryable e = false ->
  In (Raised e) (invocations (trace r)) ->
  outcome r = Raised e /\
  exists earlier, trace r = earlier ++ [Invoked (Raised e)].
Proof. cbv zeta. intros He Hin. now apply attempts_not_retryable. Qed.

End Retrying.

Lemma retry_invocation_bounds_witness :
  let broken := fun n : nat => (@Raised nat Props.boom, S n) in
  let name := @Returned str (py "call_api") in
  let fine := fun _ : Exn => @None Exn in
  let always := fun _ : Exn => true in
  let half := fun _ : Z => (1 # 2) in
  let none := mkRetryConfig 0 100 10000 2 true in
  outcome (retry_async broken name fine always None half none 7%nat)
  = Raised retry_logic_error /\
  world (retry_async broken name fine always None half none 7%nat) = 7%nat /\
  exists later,
    invocations (trace (retry_async broken name fine always None half
                          default_config 7%nat))
    = Raised Props.boom :: later.
Proof.
  cbv zeta.
  pose proof (retry_invocation_bounds nat nat
                (fun n : nat => (@Raised nat Props.boom, S n))
                (Returned (py "call_api")) (fun _ => None)
                (fun _ => true) None (fun _ => (1 # 2))
                (mkRetryConfig 0 100 10000 2 true) 7%nat) as H0.
  pose proof (retry_invocation_bounds nat nat
                (fun n : nat => (@Raised nat Props.boom, S n))
                (Returned (py "call_api")) (fun _ => None)
                (fun _ => true) None (fun _ => (1 # 2))
                default_config 7%nat) as H3.
  cbv zeta in H0, H3.
  destruct H0 as (_ & _ & Hzero & _). destruct H3 as (_ & _ & _ & Hone).
  destruct Hzero as (_ & Hout & Hworld); [simpl; lia|].
  split; [exact Hout|]. split; [exact Hworld|].
  apply Hone. simpl. lia.
Defined.

Lemma retry_backoff_schedule_witness :
  let broken := fun n : nat => (@Raised nat Props.boom, S n) in
  let name := @Returned str (py "call_api") in
  let fine := fun _ : Exn => @None Exn in
  let always := fun _ : Exn => true in
  let half := fun _ : Z => (1 # 2) in
  List.length
    (sleeps (trace (retry_async broken name fine always None half
                      default_config 0%nat)))
  = 2%nat /\
  sleeps (trace (retry_async broken name fine always None half default_config
                   0%nat))
  = backoff default_config half 0 2.
Proof.
  cbv zeta.
  pose proof (retry_backoff_schedule nat nat
                (fun n : nat => (@Raised nat Props.boom, S n))
                (Returned (py "call_api")) (fun _ => None)
                (fun _ => true) None (fun _ => (1 # 2))
                default_config 0%nat) as H.
  cbv zeta in H. destruct H as (_ & _ & _ & _ & Hlen).
  split; [|vm_compute; reflexivity].
  rewrite (Hlen I). vm_compute. reflexivity.
Defined.

Lemma non_retryable_is_raised_at_once_witness :
  let fatal := mkExn (py "KeyError") (py "missing") true in
  let op := fun n : nat =>
    (if Nat.ltb n 1 then Raised Props.boom else @Raised nat fatal, S n) in
  let name := @Returned str (py "call_api") in
  let fine := fun _ : Exn => @None Exn in
  let transient := fun e : Exn => eqb_str (exn_type e) (py "RuntimeError") in
  let half := fun _ : Z => (1 # 2) in
  outcome (retry_async op name fine transient None half default_config 0%nat)
  = Raised fatal.
Proof.
  cbv zeta.
  apply (non_retryable_is_raised_at_once nat nat
           (fun n : nat =>
              (if Nat.ltb n 1 then Raised Props.boom
               else @Raised nat (mkExn (py "KeyError") (py "missing") true),
               S n))
           (Returned (py "call_api")) (fun _ => None)
           (fun e : Exn => eqb_str (exn_type e) (py "RuntimeError"))
           None (fun _ => (1 # 2)) default_config 0%nat).
  - vm_compute. reflexivity.
  - vm_compute. tauto.
Defined.

End RetryMore.

(* ------------------------------------------------------------------ *)
(** ** core/retry.py : the size of a backoff delay *)

Module DelayFacts.

Import Retry RetryTrace.

Lemma py_min_le_r (a b : Q) : py_min a b <= b.
Proof.
  unfold py_min. destruct (Qle_bool a b) eqn:E.
  - now apply Qle_bool_iff.
  - apply Qle_refl.
Qed.

Lemma py_min_le_l (a b : Q) : py_min a b <= a.
Proof.
  unfold py_min. destruct (Qle_bool a b) eqn:E.
  - apply Qle_refl.
  - destruct (Qlt_le_dec b a) as [H | H]; [now apply Qlt_le_weak|].
    apply Qle_bool_iff in H. congruence.
Qed.

Lemma py_min_glb (a b c : Q) : c <= a -> c <= b -> c <= py_min a b.
Proof. unfold py_min. now destruct (Qle_bool a b). Qed.

(** X11.  The size of a backoff delay, for the attempt numbers of the loop
    (zero and up) and in exact arithmetic.  [get_delay_ms] raises
    [OverflowError] when the power [exponential_base ** attempt] is out of
    the range of a double, and otherwise returns the delay
    [backoff_delay_ms].  Before jitter the delay is at most [max_delay_ms],
    is not negative for non-negative settings, and does not decrease from one
    attempt to the next when the base is at least 1.  Without jitter that is
    the delay; with jitter and a draw in [0, 1] the delay lies between 75%
    and 125% of it, so that it can exceed [max_delay_ms] by a quarter. *)
Theorem delay_bounds (config : RetryConfig) (random : Q) (attempt : Z) :
  (0 <= attempt)%Z ->
  get_delay_ms config random attempt
  = (if pow_overflows (exponential_base config) attempt
     then Raised overflow_error
     else Returned (backoff_delay_ms config random attempt)) /\
  capped_delay config attempt <= max_delay_ms config /\
  (0 <= initial_delay_ms config -> 0 <= exponential_base config ->
   0 <= max_delay_ms config -> 0 <= capped_delay config attempt) /\
  (0 <= initial_delay_ms config -> 1 <= exponential_base config ->
   capped_delay config attempt <= capped_delay config (attempt + 1)) /\
  (jitter config = false ->
   backoff_delay_ms config random attempt = capped_delay config attempt) /\
  (jitter config = true -> 0 <= random -> random <= 1 ->
   0 <= capped_delay config attempt ->
   (3 # 4) * capped_delay config attempt
   <= backoff_delay_ms config random attempt /\
   backoff_delay_ms config random attempt
   <= (5 # 4) * capped_delay config attempt /\
   backoff_delay_ms config random attempt <= (5 # 4) * max_delay_ms config).
Proof.
  intros Hattempt.
  split.
  { unfold get_delay_ms.
    replace (attempt <? 0)%Z with false by (symmetry; apply Z.ltb_ge; lia).
    now rewrite andb_false_r. }
  split; [apply py_min_le_r|].
  split.
  { intros Hi Hb Hm. apply py_min_glb; [|exact Hm].
    apply Qmult_le_0_compat; [exact Hi | now apply Qpower_0_le]. }
  split.
  { intros Hi Hb. unfold capped_delay.
    assert (Hpow : exponential_base config ^ attempt
                   <= exponential_base config ^ (attempt + 1))
      by (apply Qpower_le_compat_l; [lia | exact Hb]).
    assert (Hgrow : initial_delay_ms config * exponential_base config ^ attempt
                    <= initial_delay_ms config
                       * exponential_base config ^ (attempt + 1)).
    { rewrite !(Qmult_comm (initial_delay_ms config)).
      now apply Qmult_le_compat_r. }
    apply py_min_glb.
    - eapply Qle_trans; [apply py_min_le_l | exact Hgrow].
    - apply py_min_le_r. }
  split.
  { intros Hj. unfold backoff_delay_ms, capped_delay. now rewrite Hj. }
  intros Hj H0 H1 Hd.
  pose proof (py_min_le_r
                (initial_delay_ms config * exponential_base config ^ attempt)
                (max_delay_ms config)) as Hcap.
  unfold backoff_delay_ms. rewrite Hj. fold (capped_delay config attempt) in *.
  set (d := capped_delay config attempt) in *.
  repeat split; nra.
Qed.

Lemma delay_bounds_witness :
  let config := mkRetryConfig 20 100 10000 2 true in
  get_delay_ms config (9 # 10) 10
  = Returned (backoff_delay_ms config (9 # 10) 10) /\
  max_delay_ms config < backoff_delay_ms config (9 # 10) 10 /\
  backoff_delay_ms config (9 # 10) 10 <= (5 # 4) * max_delay_ms config.
Proof.
  cbv zeta.
  destruct (delay_bounds (mkRetryConfig 20 100 10000 2 true) (9 # 10) 10)
    as (Hget & _ & _ & _ & _ & Hjitter); [lia|].
  destruct Hjitter as (_ & _ & Hmax);
    [reflexivity | discriminate | discriminate | discriminate |].
  split; [exact Hget|].
  split; [reflexivity | exact Hmax].
Defined.

End DelayFacts.

(* ------------------------------------------------------------------ *)
(** ** core/retry.py : what the token bucket guarantees *)

Module BucketFacts.

Import RateLimiter Bucket.

(** One pass through the loop of [acquire]. *)
Lemma turn_accounts (l : RateLimiter) (now : Q) (n : Z) :
  match turn l now n with
  | Acquired l' =>
      tokens_per_second l' = tokens_per_second l /\
      bucket_size l' = bucket_size l /\
      last_update l' = now /\
      0 <= tokens l' /\
      tokens l' + inject_Z n <= inject_Z (bucket_size l) /\
      tokens l' + inject_Z n
      <= tokens l + (now - last_update l) * tokens_per_second l
  | Suspend l' _ =>
      tokens_per_second l' = tokens_per_second l /\
      bucket_size l' = bucket_size l /\
      last_update l' = now /\
      tokens l' <= tokens l + (now - last_update l) * tokens_per_second l
  | DivisionByZero _ => True
  end.
Proof.
  unfold turn.
  set (refilled := tokens l + (now - last_update l) * tokens_per_second l).
  set (capacity := inject_Z (bucket_size l)).
  assert (Hcap : (if Qle_bool capacity refilled then capacity else refilled)
                 <= capacity)
    by apply RateLimiterFacts.capped_le_capacity.
  assert (Hfill : (if Qle_bool capacity refilled then capacity else refilled)
                  <= refilled).
  { destruct (Qle_bool capacity refilled) eqn:E.
    - now apply Qle_bool_iff.
    - apply Qle_refl. }
  set (capped := if Qle_bool capacity refilled then capacity else refilled)
    in *.
  destruct (Qle_bool (inject_Z n) capped) eqn:En.
  - apply Qle_bool_iff in En. cbn.
    split; [reflexivity|]. split; [reflexivity|]. split; [reflexivity|].
    split; [lra|]. split; lra.
  - destruct (Qeq_bool (tokens_per_second l) 0); [exact I|]. cbn.
    split; [reflexivity|]. split; [reflexivity|]. split; [reflexivity|].
    exact Hfill.
Qed.

(** One call of [acquire] that returns. *)
Lemma acquire_accounts (n : Z) (lags : nat -> Q) (fuel : nat) :
  forall (l : RateLimiter) (now : Q) (i : nat) (l' : RateLimiter) (t : Q)
         (k : nat),
    acquire fuel lags i l now n = Some (Done l' t k) ->
    tokens_per_second l' = tokens_per_second l /\
    bucket_size l' = bucket_size l /\
    last_update l' = t /\
    0 <= tokens l' /\
    tokens l' + inject_Z n <= inject_Z (bucket_size l) /\
    tokens l' + inject_Z n
    <= tokens l + (t - last_update l) * tokens_per_second l.
Proof.
  induction fuel as [|fuel IH]; intros l now i l' t k H; [discriminate H|].
  cbn [acquire] in H. pose proof (turn_accounts l now n) as Hturn.
  destruct (turn l now n) as [l1 | l1 wait_time | l1].
  - injection H as <- <- <-. exact Hturn.
  - destruct Hturn as (Hr & Hb & Hu & Ht).
    destruct (IH _ _ _ _ _ _ H) as (Hr' & Hb' & Hu' & H0 & Hcap & Hacc).
    rewrite Hr, Hb in *. rewrite Hu in Hacc.
    split; [exact Hr'|]. split; [exact Hb'|]. split; [exact Hu'|].
    split; [exact H0|]. split; [exact Hcap|].
    set (rate := tokens_per_second l) in *.
    assert (Hsum : (t - now) * rate + (now - last_update l) * rate
                   == (t - last_update l) * rate) by ring.
    rewrite <- Hsum. lra.
  - discriminate H.
Qed.

Lemma granted_cons (r : Request) (rest : list Request) :
  granted (r :: rest) = (amount r + granted rest)%Z.
Proof. reflexivity. Qed.

(** X12.  The guarantee of the token bucket, in exact arithmetic.  When a
    series of [acquire] calls on one limiter has returned, the rate and the
    capacity are what they were, and the tokens handed out plus the tokens
    left are at most the tokens there were plus rate times the time elapsed
    between the two updates.  What is left is not negative, and not above
    the capacity when no call asked for a negative amount.  From a bucket
    that held no debt, the tokens handed out are therefore at most the
    tokens it held plus rate times the time elapsed. *)
Theorem bucket_guarantee (fuel : nat) (requests : list Request) :
  forall (l l' : RateLimiter),
    serve fuel l requests = Some l' ->
    tokens_per_second l' = tokens_per_second l /\
    bucket_size l' = bucket_size l /\
    inject_Z (granted requests) + tokens l'
    <= tokens l + (last_update l' - last_update l) * tokens_per_second l /\
    (requests <> [] -> 0 <= tokens l') /\
    (Forall (fun r => (0 <= amount r)%Z) requests ->
     tokens l <= inject_Z (bucket_size l) ->
     tokens l' <= inject_Z (bucket_size l)) /\
    (0 <= tokens l ->
     inject_Z (granted requests)
     <= tokens l + (last_update l' - last_update l) * tokens_per_second l).
Proof.
  induction requests as [|r rest IH]; intros l l' H.
  - injection H as <-. unfold granted. cbn [map fold_right].
    change (inject_Z 0) with 0.
    assert (Hzero : (last_update l - last_update l) * tokens_per_second l
                    == 0) by ring.
    split; [reflexivity|]. split; [reflexivity|].
    split; [rewrite Hzero; lra|]. split; [easy|].
    split; [now intros _ Hle|].
    intros H0. rewrite Hzero. lra.
  - cbn [serve] in H.
    destruct (acquire fuel (lag r) 0 l (entered r) (amount r))
      as [[l1 t k|]|] eqn:Ha; try discriminate H.
    destruct (acquire_accounts _ _ _ _ _ _ _ _ _ Ha)
      as (Hr & Hb & Hu & H0 & Hcap & Hacc).
    destruct (IH l1 l' H) as (Hr' & Hb' & Hsum & Hleft & Hroom & Hgranted).
    rewrite Hr, Hb in *. subst t.
    set (rate := tokens_per_second l) in *.
    assert (Htime : (last_update l' - last_update l1) * rate
                    + (last_update l1 - last_update l) * rate
                    == (last_update l' - last_update l) * rate) by ring.
    assert (Hall : inject_Z (granted (r :: rest)) + tokens l'
                   <= tokens l + (last_update l' - last_update l) * rate).
    { assert (Hg : inject_Z (granted (r :: rest))
                   == inject_Z (amount r) + inject_Z (granted rest))
        by (rewrite granted_cons, inject_Z_plus; reflexivity).
      lra. }
    assert (Hpos : 0 <= tokens l').
    { destruct rest as [|r' rest'].
      - injection H as <-. exact H0.
      - now apply Hleft. }
    split; [exact Hr'|]. split; [exact Hb'|]. split; [exact Hall|].
    split; [intros _; exact Hpos|].
    split; [|intros _; lra].
    intros Hamounts _. inversion Hamounts as [|? ? Hn Hrest]; subst.
    apply Hroom; [exact Hrest|].
    assert (Hn' : 0 <= inject_Z (amount r))
      by (change 0 with (inject_Z 0); rewrite <- Zle_Qle; exact Hn).
    lra.
Qed.

(** Two requests served from a bucket of two tokens refilled at two tokens
    a second: the second one waits for half a second. *)
Lemma bucket_guarantee_witness :
  let still := fun _ : nat => 0 in
  let l := new 2 (Some 2%Z) 0 in
  exists l',
    serve 3 l [mkRequest 0 2 still; mkRequest 0 1 still] = Some l' /\
    last_update l' == 1 # 2 /\
    inject_Z 3 <= tokens l + (last_update l' - last_update l) * 2.
Proof.
  cbv zeta.
  assert (Hserved :
    exists l',
      serve 3 (new 2 (Some 2%Z) 0)
            [mkRequest 0 2 (fun _ => 0); mkRequest 0 1 (fun _ => 0)]
      = Some l').
  { vm_compute. now eexists. }
  destruct Hserved as [l' Hl']. exists l'. split; [exact Hl'|].
  destruct (bucket_guarantee 3
              [mkRequest 0 2 (fun _ => 0); mkRequest 0 1 (fun _ => 0)]
              (new 2 (Some 2%Z) 0) l' Hl')
    as (_ & _ & _ & _ & _ & Hgranted).
  split; [|apply Hgranted; vm_compute; discriminate].
  vm_compute in Hl'. injection Hl' as <-. reflexivity.
Defined.

End BucketFacts.

(* ------------------------------------------------------------------ *)
(** ** audio/normalize.py : samples and PCM bytes *)

Module PcmFacts.

Import Audio Pcm.

Lemma pair_induction (A : Type) (P : list A -> Prop) :
  P [] -> (forall a, P [a]) -> (forall a b l, P l -> P (a :: b :: l)) ->
  forall l, P l.
Proof.
  intros H0 H1 H2. fix IH 1.
  intros [|a [|b l]]; [exact H0 | apply H1 | apply H2, IH].
Qed.

Lemma byte_value_range (b : Byte.byte) : (0 <= byte_value b <= 255)%Z.
Proof.
  unfold byte_value. pose proof (Byte.to_N_bounded b). lia.
Qed.

Lemma byte_value_of (v : Z) : byte_value (byte_of v) = (v mod 256)%Z.
Proof.
  unfold byte_value, byte_of.
  pose proof (Z.mod_pos_bound v 256 ltac:(lia)) as Hm.
  destruct (Byte.of_N (Z.to_N (v mod 256))) as [b|] eqn:E.
  - apply Byte.to_of_N in E. rewrite E. lia.
  - apply Byte.of_N_None_iff in E. lia.
Qed.

Lemma unpack_h_spec (pcm_data : list Byte.byte) :
  List.length (unpack_h pcm_data) = Nat.div2 (List.length pcm_data) /\
  Forall (fun v => (-32768 <= v <= 32767)%Z) (unpack_h pcm_data).
Proof.
  induction pcm_data as [|a|a b l [IHl IHr]] using pair_induction;
    [split; [reflexivity | constructor] ..|].
  cbn [unpack_h List.length Nat.div2]. split; [now rewrite IHl|].
  constructor; [|exact IHr].
  pose proof (byte_value_range a). pose proof (byte_value_range b).
  destruct (byte_value a + 256 * byte_value b <? 32768)%Z eqn:E;
    [apply Z.ltb_lt in E | apply Z.ltb_ge in E]; lia.
Qed.

Lemma scaled_range (v scale : Z) :
  (0 < scale)%Z -> (- scale <= v < scale)%Z ->
  -1 <= inject_Z v / inject_Z scale /\ inject_Z v / inject_Z scale < 1.
Proof.
  intros Hs Hv.
  assert (Hq : 0 < inject_Z scale)
    by (change 0 with (inject_Z 0); now rewrite <- Zlt_Qlt).
  split.
  - apply Qle_shift_div_l; [exact Hq|].
    setoid_replace (-1 * inject_Z scale) with (inject_Z (- scale))
      by (rewrite inject_Z_opp; ring).
    rewrite <- Zle_Qle. lia.
  - apply Qlt_shift_div_r; [exact Hq|].
    rewrite Qmult_1_l, <- Zlt_Qlt. lia.
Qed.

Lemma parse_odd_length (pcm_data : list Byte.byte) :
  Z.odd (Z.of_nat (List.length pcm_data)) = true ->
  _parse_pcm_samples pcm_data 16
  = inl (StructError (Z.of_nat (List.length pcm_data) - 1)).
Proof.
  intros Hodd. unfold _parse_pcm_samples. cbn [Z.eqb Pos.eqb].
  apply Z.odd_spec in Hodd. destruct Hodd as [k Hk].
  assert (Hhalf : (Z.of_nat (List.length pcm_data) / 2 = k)%Z).
  { rewrite Hk. rewrite (Z.mul_comm 2 k), Z.div_add_l by lia.
    change (1 / 2)%Z with 0%Z. lia. }
  rewrite Hhalf.
  replace (2 * k =? Z.of_nat (List.length pcm_data))%Z with false
    by (symmetry; apply Z.eqb_neq; lia).
  do 2 f_equal. lia.
Qed.

Lemma parse_unsupported_bits (pcm_data : list Byte.byte) (bits : Z) :
  bits <> 16%Z -> bits <> 8%Z ->
  _parse_pcm_samples pcm_data bits = inl (UnsupportedBits bits).
Proof.
  intros H16 H8. unfold _parse_pcm_samples.
  rewrite (proj2 (Z.eqb_neq _ _) H16), (proj2 (Z.eqb_neq _ _) H8).
  reflexivity.
Qed.

(** X13.  [_parse_pcm_samples]: 16-bit data of even length gives one sample
    for every two bytes and 8-bit data one for every byte, each at least -1
    and below 1; 16-bit data of odd length is refused by [struct.unpack],
    which wants one byte less; any other width is an
    [AudioFormatError]. *)
Theorem parse_pcm_samples_spec (pcm_data : list Byte.byte) (bits : Z) :
  let size := Z.of_nat (List.length pcm_data) in
  (bits = 16%Z -> Z.even size = true ->
   exists samples,
     _parse_pcm_samples pcm_data bits = inr samples /\
     (2 * Z.of_nat (List.length samples) = size)%Z /\
     Forall (fun s => -1 <= s /\ s < 1) samples) /\
  (bits = 16%Z -> Z.odd size = true ->
   _parse_pcm_samples pcm_data bits = inl (StructError (size - 1))) /\
  (bits = 8%Z ->
   exists samples,
     _parse_pcm_samples pcm_data bits = inr samples /\
     List.length samples = List.length pcm_data /\
     Forall (fun s => -1 <= s /\ s < 1) samples) /\
  (bits <> 16%Z -> bits <> 8%Z ->
   _parse_pcm_samples pcm_data bits = inl (UnsupportedBits bits)).
Proof.
  cbv zeta. unfold _parse_pcm_samples.
  split; [|split; [|split]].
  - intros -> Heven. cbn [Z.eqb Pos.eqb].
    assert (Hsize : (2 * (Z.of_nat (List.length pcm_data) / 2)
                     = Z.of_nat (List.length pcm_data))%Z).
    { apply Z.even_spec in Heven. destruct Heven as [k Hk]. rewrite Hk.
      rewrite (Z.mul_comm 2 k), Z.div_mul by lia. lia. }
    rewrite (proj2 (Z.eqb_eq _ _) Hsize).
    destruct (unpack_h_spec pcm_data) as [Hlen Hrange].
    eexists. split; [reflexivity|]. split.
    + rewrite length_map, Hlen, <- Hsize at 1. f_equal.
      rewrite Nat.div2_div, Nat2Z.inj_div. reflexivity.
    + apply Forall_map. eapply Forall_impl; [|exact Hrange].
      intros v Hv. cbv beta in Hv. apply (scaled_range v 32768); lia.
  - intros -> Hodd. now apply parse_odd_length.
  - intros ->. cbn [Z.eqb Pos.eqb].
    eexists. split; [reflexivity|]. split; [apply length_map|].
    apply Forall_map. apply Forall_forall. intros b _.
    pose proof (byte_value_range b).
    apply (scaled_range (byte_value b - 128) 128); lia.
  - apply parse_unsupported_bits.
Qed.

Lemma parse_pcm_samples_spec_witness :
  _parse_pcm_samples [Byte.x00; Byte.x80; Byte.xff] 16
  = inl (StructError 2) /\
  _parse_pcm_samples [Byte.x00; Byte.x80; Byte.xff] 24
  = inl (UnsupportedBits 24) /\
  exists samples,
    _parse_pcm_samples [Byte.x00; Byte.x80; Byte.xff; Byte.x7f] 16
    = inr samples /\
    List.length samples = 2%nat.
Proof.
  destruct (parse_pcm_samples_spec [Byte.x00; Byte.x80; Byte.xff] 16)
    as (_ & Hodd & _).
  destruct (parse_pcm_samples_spec [Byte.x00; Byte.x80; Byte.xff] 24)
    as (_ & _ & _ & Hbits).
  destruct (parse_pcm_samples_spec
              [Byte.x00; Byte.x80; Byte.xff; Byte.x7f] 16)
    as (Heven & _).
  split; [exact (Hodd eq_refl eq_refl)|].
  split; [apply Hbits; discriminate|].
  destruct (Heven eq_refl eq_refl) as (samples & Hs & Hlen & _).
  exists samples. split; [exact Hs|]. cbn [List.length] in Hlen. lia.
Defined.

Section Normalizing.

Variable _parse_wav_samples :
  list Byte.byte -> Z -> ParseFailure + list Q.
Variable _convert_to_mono : list Q -> Z -> list Q.
Variable _resample : list Q -> Z -> Z -> list Q.
Variable _samples_to_wav : list Q -> Z -> list Byte.byte.

Local Abbreviation normalize :=
  (normalize_for_whisper (_parse_audio_to_samples _parse_wav_samples)
     _convert_to_mono _resample _samples_to_wav).

(** X14.  What [normalize_for_whisper] raises for input that is not in WAV
    format, whatever its rate and channels: an [AudioFormatError] for a
    sample width other than 8 or 16, and, for 16-bit data of odd length, an
    [AudioNormalizationError] wrapping the message of [struct.error]. *)
Theorem raw_input_failures (audio : AudioData) (bits : Z) :
  format audio <> WAV ->
  (bits <> 16%Z -> bits <> 8%Z ->
   normalize audio bits
   = inl (AudioFormatError
            ("Unsupported bits_per_sample: " ++ str_of_int bits))) /\
  (bits = 16%Z -> Z.odd (size_bytes audio) = true ->
   normalize audio bits
   = inl (AudioNormalizationError
            ("Failed to normalize audio: unpack requires a buffer of "
             ++ str_of_int (size_bytes audio - 1) ++ " bytes"))).
Proof.
  intros Hformat.
  assert (Hwav : is_wav (format audio) = false)
    by (destruct (format audio); [contradiction | reflexivity ..]).
  unfold normalize_for_whisper, _parse_audio_to_samples.
  rewrite Hwav, andb_false_r.
  split.
  - intros H16 H8. now rewrite (parse_unsupported_bits _ _ H16 H8).
  - intros -> Hsize. now rewrite (parse_odd_length _ Hsize).
Qed.

End Normalizing.

Lemma raw_input_failures_witness :
  let none := fun (_ : list Byte.byte) (_ : Z) =>
                @inr ParseFailure (list Q) [] in
  let mono := fun (samples : list Q) (_ : Z) => samples in
  let same := fun (samples : list Q) (_ _ : Z) => samples in
  let wav := fun (_ : list Q) (_ : Z) => @nil Byte.byte in
  let audio := mkAudio [Byte.x00; Byte.x80; Byte.xff] 44100 PCM 2 None in
  normalize_for_whisper (_parse_audio_to_samples none) mono same wav audio 24
  = inl (AudioFormatError "Unsupported bits_per_sample: 24") /\
  normalize_for_whisper (_parse_audio_to_samples none) mono same wav audio 16
  = inl (AudioNormalizationError
           "Failed to normalize audio: unpack requires a buffer of 2 bytes").
Proof.
  cbv zeta.
  destruct (raw_input_failures
              (fun _ _ => inr []) (fun samples _ => samples)
              (fun samples _ _ => samples) (fun _ _ => [])
              (mkAudio [Byte.x00; Byte.x80; Byte.xff] 44100 PCM 2 None) 24)
    as [Hbits _]; [discriminate|].
  destruct (raw_input_failures
              (fun _ _ => inr []) (fun samples _ => samples)
              (fun samples _ _ => samples) (fun _ _ => [])
              (mkAudio [Byte.x00; Byte.x80; Byte.xff] 44100 PCM 2 None) 16)
    as [_ Hodd]; [discriminate|].
  split.
  - apply Hbits; discriminate.
  - apply Hodd; reflexivity.
Defined.

(** [int(x)] truncates towards zero. *)
Lemma py_int_nonneg (x : Q) :
  0 <= x ->
  (0 <= RateLimiter.py_int x)%Z /\
  inject_Z (RateLimiter.py_int x) <= x /\
  x < inject_Z (RateLimiter.py_int x) + 1.
Proof.
  destruct x as [n d]. unfold RateLimiter.py_int, Qle, Qlt. cbn.
  intros Hn. rewrite Z.quot_div_nonneg by lia.
  pose proof (Z.div_mod n (Z.pos d) ltac:(lia)) as Hdiv.
  pose proof (Z.mod_pos_bound n (Z.pos d) ltac:(lia)) as Hmod.
  pose proof (Z.div_pos n (Z.pos d) ltac:(lia) ltac:(lia)) as Hpos.
  split; [exact Hpos|]. split; nia.
Qed.

Lemma py_int_nonpos (x : Q) :
  x <= 0 ->
  (RateLimiter.py_int x <= 0)%Z /\
  x <= inject_Z (RateLimiter.py_int x) /\
  inject_Z (RateLimiter.py_int x) - 1 < x.
Proof.
  intros Hx.
  assert (Hopp : 0 <= - x) by lra.
  destruct (py_int_nonneg (- x) Hopp) as (H0 & Hle & Hlt).
  assert (Hq : RateLimiter.py_int (- x) = (- RateLimiter.py_int x)%Z).
  { destruct x as [n d]. unfold RateLimiter.py_int. cbn.
    apply Z.quot_opp_l. lia. }
  rewrite Hq in *. rewrite inject_Z_opp in *.
  split; [lia|]. split; lra.
Qed.

Lemma py_max_spec (a b : Q) :
  a <= py_max a b /\ b <= py_max a b /\ (py_max a b = a \/ py_max a b = b).
Proof.
  unfold py_max, Qlt_bool. destruct (Qle_bool b a) eqn:E; cbn [negb].
  - apply Qle_bool_iff in E. split; [apply Qle_refl|]. split; [exact E|].
    now left.
  - apply RateLimiterFacts.Qle_bool_false in E.
    split; [now apply Qlt_le_weak|]. split; [apply Qle_refl|]. now right.
Qed.

Lemma clamp_range (s : Q) : -1 <= clamp s /\ clamp s <= 1.
Proof.
  unfold clamp.
  pose proof (DelayFacts.py_min_le_l 1 s) as Hmin.
  destruct (py_max_spec (-1) (Retry.py_min 1 s)) as (Hlow & _ & [Hc | Hc]);
    rewrite Hc in *; split; lra.
Qed.

(** Inside the range the clamp changes nothing. *)
Lemma clamp_inside (s : Q) : -1 <= s -> s <= 1 -> clamp s == s.
Proof.
  intros Hlow Hhigh. unfold clamp.
  pose proof (DelayFacts.py_min_le_l 1 s) as H1.
  pose proof (DelayFacts.py_min_le_r 1 s) as H2.
  pose proof (DelayFacts.py_min_glb 1 s s Hhigh (Qle_refl s)) as H3.
  destruct (py_max_spec (-1) (Retry.py_min 1 s)) as (Ha & Hb & [Hc | Hc]);
    rewrite Hc in *; lra.
Qed.

Lemma unpack_pack (values : list Z) :
  forall bytes,
    pack_h values = Some bytes ->
    unpack_h bytes = values /\
    List.length bytes = (2 * List.length values)%nat.
Proof.
  induction values as [|v rest IH]; intros bytes H; cbn [pack_h] in H.
  - injection H as <-. now split.
  - destruct ((-32768 <=? v) && (v <=? 32767))%Z eqn:Hv; [|discriminate H].
    destruct (pack_h rest) as [tail|]; [|discriminate H].
    injection H as <-. destruct (IH tail eq_refl) as [Hu Hl].
    apply andb_true_iff in Hv. destruct Hv as [Hlow Hhigh].
    apply Z.leb_le in Hlow, Hhigh.
    cbn [unpack_h List.length]. rewrite Hu, Hl, !byte_value_of.
    split; [|lia]. f_equal.
    destruct (v mod 256 + 256 * ((v / 256) mod 256) <? 32768)%Z eqn:E;
      [apply Z.ltb_lt in E | apply Z.ltb_ge in E];
      Z.to_euclidean_division_equations; lia.
Qed.

Section Encoding.

Variable round_float : Q -> Q.
Hypothesis round_monotone : monotone round_float.
Hypothesis round_exact : exact_on_samples round_float.

(** A number between two sample values stays between them when rounded. *)
Lemma round_between (a b : Z) (x : Q) :
  (-32767 <= a)%Z -> (a <= 32767)%Z -> (-32767 <= b)%Z -> (b <= 32767)%Z ->
  inject_Z a <= x -> x <= inject_Z b ->
  inject_Z a <= round_float x /\ round_float x <= inject_Z b.
Proof.
  intros Ha Ha' Hb Hb' Hax Hxb.
  pose proof (round_monotone _ _ Hax) as Hlow.
  pose proof (round_monotone _ _ Hxb) as Hhigh.
  rewrite (round_exact a (conj Ha Ha')) in Hlow.
  rewrite (round_exact b (conj Hb Hb')) in Hhigh.
  split; assumption.
Qed.

(** The value written for a sample is the truncation of the exact product
    or the next integer away from zero (when the product rounds to it). *)
Lemma quantize_near (s : Q) :
  let exact := RateLimiter.py_int (clamp s * 32767) in
  let q := quantize round_float s in
  (0 <= clamp s -> (0 <= exact)%Z /\ (q = exact \/ q = exact + 1)%Z) /\
  (clamp s <= 0 -> (exact <= 0)%Z /\ (q = exact \/ q = exact - 1)%Z) /\
  (-32767 <= q <= 32767)%Z.
Proof.
  cbv zeta. unfold quantize.
  destruct (clamp_range s) as [Hlow Hhigh].
  set (x := clamp s * 32767).
  assert (Hx : -32767 <= x /\ x <= 32767) by (unfold x; split; lra).
  set (r := round_float x).
  assert (Hpos : 0 <= x ->
            (0 <= RateLimiter.py_int x <= 32767)%Z /\
            (RateLimiter.py_int r = RateLimiter.py_int x \/
             RateLimiter.py_int r = RateLimiter.py_int x + 1)%Z /\
            (RateLimiter.py_int r <= 32767)%Z).
  { intros H0. destruct (py_int_nonneg x H0) as (Hn0 & Hnle & Hnlt).
    set (n := RateLimiter.py_int x) in *.
    assert (Hn : (n <= 32767)%Z).
    { rewrite Zle_Qle. change (inject_Z 32767) with 32767. lra. }
    assert (Hup : x <= inject_Z (Z.min (n + 1) 32767)).
    { destruct (Z.min_spec (n + 1) 32767) as [[_ ->] | [_ ->]].
      - rewrite inject_Z_plus. change (inject_Z 1) with 1. lra.
      - change (inject_Z 32767) with 32767. lra. }
    destruct (round_between n (Z.min (n + 1) 32767) x) as [Hrl Hrh];
      [lia | lia | lia | lia | exact Hnle | exact Hup |].
    fold r in Hrl, Hrh.
    assert (Hr0 : 0 <= r).
    { eapply Qle_trans; [|exact Hrl]. change 0 with (inject_Z 0).
      now rewrite <- Zle_Qle. }
    destruct (py_int_nonneg r Hr0) as (Hq0 & Hqle & Hqlt).
    set (q := RateLimiter.py_int r) in *.
    assert (Hnq : (n < q + 1)%Z).
    { rewrite Zlt_Qlt, inject_Z_plus. change (inject_Z 1) with 1. lra. }
    assert (Hqn : (q <= Z.min (n + 1) 32767)%Z).
    { rewrite Zle_Qle. lra. }
    split; [lia|]. split; lia. }
  assert (Hneg : x <= 0 ->
            (-32767 <= RateLimiter.py_int x <= 0)%Z /\
            (RateLimiter.py_int r = RateLimiter.py_int x \/
             RateLimiter.py_int r = RateLimiter.py_int x - 1)%Z /\
            (-32767 <= RateLimiter.py_int r)%Z).
  { intros H0. destruct (py_int_nonpos x H0) as (Hn0 & Hnle & Hnlt).
    set (n := RateLimiter.py_int x) in *.
    assert (Hn : (-32767 <= n)%Z).
    { rewrite Zle_Qle. change (inject_Z (-32767)) with (-32767). lra. }
    assert (Hdown : inject_Z (Z.max (n - 1) (-32767)) <= x).
    { destruct (Z.max_spec (n - 1) (-32767)) as [[_ ->] | [_ ->]].
      - change (inject_Z (-32767)) with (-32767). lra.
      - unfold Z.sub. rewrite inject_Z_plus, inject_Z_opp.
        change (inject_Z 1) with 1. lra. }
    destruct (round_between (Z.max (n - 1) (-32767)) n x) as [Hrl Hrh];
      [lia | lia | lia | lia | exact Hdown | exact Hnle |].
    fold r in Hrl, Hrh.
    assert (Hr0 : r <= 0).
    { eapply Qle_trans; [exact Hrh|]. change 0 with (inject_Z 0).
      now rewrite <- Zle_Qle. }
    destruct (py_int_nonpos r Hr0) as (Hq0 & Hqle & Hqlt).
    set (q := RateLimiter.py_int r) in *.
    assert (Hnq : (q - 1 < n)%Z).
    { rewrite Zlt_Qlt. unfold Z.sub. rewrite inject_Z_plus, inject_Z_opp.
      change (inject_Z 1) with 1. lra. }
    assert (Hqn : (Z.max (n - 1) (-32767) <= q)%Z).
    { rewrite Zle_Qle. lra. }
    split; [lia|]. split; lia. }
  split; [|split].
  - intros Hc. destruct (Hpos ltac:(unfold x; lra)) as (Hn & Hq & _).
    split; [lia | exact Hq].
  - intros Hc. destruct (Hneg ltac:(unfold x; lra)) as (Hn & Hq & _).
    split; [lia | exact Hq].
  - destruct (Qlt_le_dec x 0) as [Hc | Hc].
    + destruct (Hneg (Qlt_le_weak _ _ Hc)) as (Hn & Hq & Hr). lia.
    + destruct (Hpos Hc) as (Hn & Hq & Hr). lia.
Qed.

(** X15.  The 16-bit encoding of [_samples_to_wav], for a float rounding
    that never reorders two numbers and leaves the integers from -32767 to
    32767 as they are.  It never overflows: every sample, however large, is
    given a value between -32767 and 32767, so that [struct.pack] accepts it
    and two bytes are written per sample.  The value written is the
    truncation of the exact product of the clamped sample and 32767, or the
    next integer away from zero.  Read back by [_parse_pcm_samples], a
    sample has the sign of the clamped input and differs from it by less
    than 1/16384; full scale comes back as 32767/32768, with its sign. *)
Theorem pcm_encoding_round_trip (samples : list Q) :
  exists bytes,
    pcm_bytes round_float samples = Some bytes /\
    List.length bytes = (2 * List.length samples)%nat /\
    _parse_pcm_samples bytes 16
    = inr (map (fun s => inject_Z (quantize round_float s) / 32768) samples)
    /\
    Forall (fun s =>
              let exact := RateLimiter.py_int (clamp s * 32767) in
              let q := quantize round_float s in
              let back := inject_Z q / 32768 in
              (-32767 <= q <= 32767)%Z /\
              (0 <= clamp s ->
               (q = exact \/ q = exact + 1)%Z /\ 0 <= back) /\
              (clamp s <= 0 ->
               (q = exact \/ q = exact - 1)%Z /\ back <= 0) /\
              clamp s - back < 1 # 16384 /\
              back - clamp s < 1 # 16384 /\
              (1 <= s -> back == 32767 # 32768) /\
              (s <= -1 -> back == - (32767 # 32768)))
           samples.
Proof.
  unfold pcm_bytes.
  assert (Hpack : exists bytes,
             pack_h (map (quantize round_float) samples) = Some bytes).
  { induction samples as [|s rest [tail IH]]; [now exists []|].
    cbn [map pack_h]. destruct (quantize_near s) as (_ & _ & Hr).
    cbv zeta in Hr.
    replace ((-32768 <=? quantize round_float s)
             && (quantize round_float s <=? 32767))%Z with true
      by (symmetry; apply andb_true_iff; split; apply Z.leb_le; lia).
    rewrite IH. now eexists. }
  destruct Hpack as [bytes Hbytes]. exists bytes.
  destruct (unpack_pack _ _ Hbytes) as [Hu Hl].
  rewrite length_map in Hl.
  split; [exact Hbytes|]. split; [exact Hl|]. split.
  - unfold _parse_pcm_samples. cbn [Z.eqb Pos.eqb]. rewrite Hl.
    replace (2 * (Z.of_nat (2 * List.length samples) / 2)
             =? Z.of_nat (2 * List.length samples))%Z with true.
    + now rewrite Hu, map_map.
    + symmetry. apply Z.eqb_eq. Z.to_euclidean_division_equations. lia.
  - apply Forall_forall. intros s _. cbv zeta.
    destruct (clamp_range s) as [Hlow Hhigh].
    destruct (quantize_near s) as (Hpos & Hneg & Hrange). cbv zeta in *.
    set (c := clamp s) in *.
    set (q := quantize round_float s) in *.
    set (n := RateLimiter.py_int (c * 32767)) in *.
    assert (Hback : inject_Z q / 32768 * 32768 == inject_Z q)
      by (field; discriminate).
    set (back := inject_Z q / 32768) in *.
    assert (Hn : (0 <= c -> inject_Z n <= c * 32767 /\
                            c * 32767 < inject_Z n + 1) /\
                 (c <= 0 -> c * 32767 <= inject_Z n /\
                            inject_Z n - 1 < c * 32767)).
    { split; intros Hc.
      - apply py_int_nonneg. lra.
      - apply py_int_nonpos. lra. }
    destruct Hn as [Hnpos Hnneg].
    assert (Hq : (0 <= c -> (0 <= q)%Z /\ inject_Z n <= inject_Z q /\
                            inject_Z q <= inject_Z n + 1) /\
                 (c <= 0 -> (q <= 0)%Z /\ inject_Z q <= inject_Z n /\
                            inject_Z n - 1 <= inject_Z q)).
    { split; intros Hc.
      - destruct (Hpos Hc) as [H0 Hcase]. split; [lia|].
        assert (H1 : (n <= q <= n + 1)%Z) by lia. destruct H1 as [H1 H2].
        rewrite Zle_Qle in H1. rewrite Zle_Qle, inject_Z_plus in H2.
        change (inject_Z 1) with 1 in H2. split; assumption.
      - destruct (Hneg Hc) as [H0 Hcase]. split; [lia|].
        assert (H1 : (n + -1 <= q <= n)%Z) by lia. destruct H1 as [H1 H2].
        rewrite Zle_Qle in H2. rewrite Zle_Qle, inject_Z_plus in H1.
        change (inject_Z (-1)) with (-1) in H1. split; [assumption | lra]. }
    destruct Hq as [Hqpos Hqneg].
    assert (Hq0 : (0 <= q)%Z -> 0 <= inject_Z q)
      by (intros H; change 0 with (inject_Z 0); now rewrite <- Zle_Qle).
    assert (Hq1 : (q <= 0)%Z -> inject_Z q <= 0)
      by (intros H; change 0 with (inject_Z 0); now rewrite <- Zle_Qle).
    assert (Hfull : -32767 <= inject_Z q /\ inject_Z q <= 32767).
    { destruct Hrange as [H1 H2]. rewrite Zle_Qle in H1, H2.
      change (inject_Z (-32767)) with (-32767) in H1.
      change (inject_Z 32767) with 32767 in H2. split; assumption. }
    split; [exact Hrange|].
    split; [|split; [|split; [|split; [|split]]]].
    + intros Hc. split; [exact (proj2 (Hpos Hc))|].
      destruct (Hqpos Hc) as (H0 & _). specialize (Hq0 H0). lra.
    + intros Hc. split; [exact (proj2 (Hneg Hc))|].
      destruct (Hqneg Hc) as (H0 & _). specialize (Hq1 H0). lra.
    + destruct (Qlt_le_dec c 0) as [Hc | Hc].
      * destruct (Hnneg (Qlt_le_weak _ _ Hc)) as [Ha Hb].
        destruct (Hqneg (Qlt_le_weak _ _ Hc)) as (_ & Hd & He). lra.
      * destruct (Hnpos Hc) as [Ha Hb].
        destruct (Hqpos Hc) as (_ & Hd & He). lra.
    + destruct (Qlt_le_dec c 0) as [Hc | Hc].
      * destruct (Hnneg (Qlt_le_weak _ _ Hc)) as [Ha Hb].
        destruct (Hqneg (Qlt_le_weak _ _ Hc)) as (_ & Hd & He). lra.
      * destruct (Hnpos Hc) as [Ha Hb].
        destruct (Hqpos Hc) as (_ & Hd & He). lra.
    + intros Hs.
      assert (Hc : c == 1).
      { unfold c, clamp.
        pose proof (DelayFacts.py_min_le_l 1 s) as H1.
        pose proof (DelayFacts.py_min_glb 1 s 1 (Qle_refl 1) Hs) as H2.
        destruct (py_max_spec (-1) (Retry.py_min 1 s))
          as (Ha & Hb & [Hd | Hd]); rewrite Hd in *; lra. }
      destruct (Hnpos ltac:(lra)) as [Ha Hb].
      destruct (Hqpos ltac:(lra)) as (_ & Hd & He).
      assert (Hq : q = 32767%Z).
      { assert (Hdown : inject_Z 32766 < inject_Z q)
          by (change (inject_Z 32766) with 32766; lra).
        rewrite <- Zlt_Qlt in Hdown. lia. }
      unfold back. rewrite Hq. reflexivity.
    + intros Hs.
      assert (Hc : c == -1).
      { unfold c, clamp.
        pose proof (DelayFacts.py_min_le_r 1 s) as H1.
        destruct (py_max_spec (-1) (Retry.py_min 1 s))
          as (Ha & Hb & [Hd | Hd]); rewrite Hd in *; lra. }
      destruct (Hnneg ltac:(lra)) as [Ha Hb].
      destruct (Hqneg ltac:(lra)) as (_ & Hd & He).
      assert (Hq : q = (-32767)%Z).
      { assert (Hup : inject_Z q < inject_Z (-32766))
          by (change (inject_Z (-32766)) with (-32766); lra).
        rewrite <- Zlt_Qlt in Hup. lia. }
      unfold back. rewrite Hq. reflexivity.
Qed.

End Encoding.

(** The rounding to eighths never reorders and is exact on integers. *)
Lemma round_to_eighths_monotone : monotone round_to_eighths.
Proof.
  intros x y Hxy. unfold round_to_eighths.
  apply Qmult_le_compat_r; [|discriminate].
  rewrite <- Zle_Qle. apply Qfloor_resp_le. lra.
Qed.

Lemma round_to_eighths_exact (n : Z) :
  round_to_eighths (inject_Z n) == inject_Z n.
Proof.
  unfold round_to_eighths.
  assert (Hfloor : Qfloor (inject_Z n * 8 + (1 # 2)) = (n * 8)%Z).
  { set (v := inject_Z n * 8 + (1 # 2)).
    assert (Hv : inject_Z (n * 8) <= v /\ v < inject_Z (n * 8 + 1)).
    { unfold v. rewrite inject_Z_plus, inject_Z_mult.
      change (inject_Z 8) with 8. change (inject_Z 1) with 1. split; lra. }
    destruct Hv as [Hl Hh].
    pose proof (Qfloor_resp_le _ _ Hl) as H1. rewrite Qfloor_Z in H1.
    pose proof (Qfloor_le v) as H2.
    assert (H3 : (Qfloor v < n * 8 + 1)%Z).
    { rewrite Zlt_Qlt. eapply Qle_lt_trans; [exact H2 | exact Hh]. }
    lia. }
  rewrite Hfloor, inject_Z_mult. change (inject_Z 8) with 8. field.
Qed.

(** A sample whose product with 32767 is 16384.95 is written as 16385 when
    the product rounds up to it, and read back within the bound. *)
Lemma pcm_encoding_round_trip_witness :
  exists bytes,
    pcm_bytes round_to_eighths [1638495 # 3276700; 3; - (1 # 2)]
    = Some bytes /\
    bytes = [Byte.x01; Byte.x40; Byte.xff; Byte.x7f; Byte.x01; Byte.xc0] /\
    quantize round_to_eighths (1638495 # 3276700) = 16385%Z /\
    RateLimiter.py_int (clamp (1638495 # 3276700) * 32767) = 16384%Z.
Proof.
  destruct (pcm_encoding_round_trip round_to_eighths
              round_to_eighths_monotone
              (fun n _ => round_to_eighths_exact n)
              [1638495 # 3276700; 3; - (1 # 2)])
    as (bytes & Hbytes & _).
  exists bytes. split; [exact Hbytes|].
  split; [|split; vm_compute; reflexivity].
  vm_compute in Hbytes. injection Hbytes as <-. reflexivity.
Defined.

Lemma frames_spec (channels : nat) (fuel : nat) :
  forall samples : list Q,
    (1 <= channels)%nat ->
    (List.length samples <= fuel)%nat ->
    List.concat (frames fuel channels samples) = samples /\
    Forall (fun frame => (1 <= List.length frame <= channels)%nat)
           (frames fuel channels samples) /\
    Forall (fun frame => List.length frame = channels)
           (removelast (frames fuel channels samples)) /\
    (List.length (frames fuel channels samples) * channels
     < List.length samples + channels)%nat /\
    (List.length samples
     <= List.length (frames fuel channels samples) * channels)%nat.
Proof.
  induction fuel as [|fuel IH]; intros samples Hc Hlen.
  - destruct samples; [|cbn in Hlen; lia].
    cbn. repeat split; (constructor || lia).
  - destruct samples as [|s rest].
    + cbn. repeat split; (constructor || lia).
    + cbn [frames]. set (samples := s :: rest) in *.
      assert (Hskip : (List.length (skipn channels samples) <= fuel)%nat).
      { rewrite length_skipn. unfold samples in *. cbn [List.length] in *.
        lia. }
      destruct (IH (skipn channels samples) Hc Hskip)
        as (Hcat & Hne & Hfull & Hlow & Hhigh).
      rewrite length_skipn in Hlow, Hhigh.
      assert (Hpos : (1 <= List.length samples)%nat)
        by (unfold samples; cbn; lia).
      split; [|split; [|split; [|split]]].
      * cbn [List.concat]. rewrite Hcat. apply firstn_skipn.
      * constructor; [|exact Hne].
        rewrite length_firstn. lia.
      * destruct (frames fuel channels (skipn channels samples))
          as [|frame more] eqn:E; [constructor|].
        change (removelast (firstn channels samples :: frame :: more))
          with (firstn channels samples :: removelast (frame :: more)).
        constructor; [|exact Hfull].
        rewrite length_firstn.
        destruct (Nat.le_gt_cases channels (List.length samples)) as [H | H];
          [lia|].
        cbn [List.length] in Hlow. nia.
      * cbn [List.length]. rewrite Nat.mul_succ_l.
        set (n := List.length (frames fuel channels (skipn channels samples)))
          in *.
        destruct (Nat.le_gt_cases channels (List.length samples)) as [H | H];
          [lia|].
        assert (Hn : n = 0%nat) by nia. rewrite Hn. lia.
      * cbn [List.length]. rewrite Nat.mul_succ_l. lia.
Qed.

(** X22.  [_convert_to_mono], whatever the float sum and division give.
    With at least one channel the samples are cut, in order and without
    loss, into frames of [channels] samples, the last frame holding what is
    left (at least one sample); one sample is returned for every frame, the
    incomplete last frame included (the number of samples divided by the
    channels and rounded up), and it is the sum of the frame divided by the
    length of that frame, not by [channels].  A zero channel count makes
    [range] raise, a negative one gives no sample at all. *)
Theorem convert_to_mono_spec (float_sum : list Q -> Q)
  (float_div : Q -> Q -> Q) (samples : list Q) (channels : Z) :
  (channels = 0%Z ->
   _convert_to_mono float_sum float_div samples channels = None) /\
  ((channels < 0)%Z ->
   _convert_to_mono float_sum float_div samples channels = Some []) /\
  ((1 <= channels)%Z ->
   exists cut,
     _convert_to_mono float_sum float_div samples channels
     = Some (map (fun frame =>
                    float_div (float_sum frame)
                              (inject_Z (Z.of_nat (List.length frame))))
                 cut) /\
     List.concat cut = samples /\
     Forall (fun frame => (1 <= Z.of_nat (List.length frame) <= channels)%Z)
            cut /\
     Forall (fun frame => Z.of_nat (List.length frame) = channels)
            (removelast cut) /\
     Z.of_nat (List.length cut)
     = ((Z.of_nat (List.length samples) + channels - 1) / channels)%Z).
Proof.
  unfold _convert_to_mono. split; [|split].
  - intros ->. reflexivity.
  - intros H.
    rewrite (proj2 (Z.eqb_neq _ _)) by lia.
    now rewrite (proj2 (Z.ltb_lt _ _) H).
  - intros H.
    rewrite (proj2 (Z.eqb_neq _ _)) by lia.
    rewrite (proj2 (Z.ltb_ge _ _)) by lia.
    destruct (frames_spec (Z.to_nat channels) (List.length samples) samples
                ltac:(lia) (Nat.le_refl _))
      as (Hcat & Hne & Hfull & Hlow & Hhigh).
    set (fs := frames (List.length samples) (Z.to_nat channels) samples) in *.
    exists fs. split; [reflexivity|]. split; [exact Hcat|].
    split; [|split].
    + eapply Forall_impl; [|exact Hne]. intros frame Hframe.
      cbv beta in Hframe. lia.
    + eapply Forall_impl; [|exact Hfull]. intros frame Hframe.
      cbv beta in Hframe. lia.
    + apply (Z.div_unique_pos _ _ _
               (Z.of_nat (List.length samples) + channels - 1
                - channels * Z.of_nat (List.length fs))); nia.
Qed.

(** Three samples in two channels, with exact sum and division: the last
    sample is a frame of its own and comes back as it is. *)
Lemma convert_to_mono_spec_witness :
  _convert_to_mono (fun values => fold_left Qplus values 0) Qdiv
                   [1; 0; 1 # 2] 2
  = Some [(0 + 1 + 0) / 2; (0 + (1 # 2)) / 1].
Proof.
  destruct (convert_to_mono_spec (fun values => fold_left Qplus values 0)
              Qdiv [1; 0; 1 # 2] 2) as (_ & _ & H).
  destruct H as (cut & Hmono & Hcat & Hsize & Hfull & Hlen); [lia|].
  assert (Htwo : List.length cut = 2%nat).
  { cbn [List.length] in Hlen.
    change ((Z.of_nat 3 + 2 - 1) / 2)%Z with 2%Z in Hlen. lia. }
  destruct cut as [|f1 [|f2 [|f3 more]]]; try discriminate Htwo.
  rewrite Hmono. cbn [removelast] in Hfull.
  inversion Hfull as [|? ? H1 _]; subst.
  assert (H2 : List.length f1 = 2%nat) by lia.
  destruct f1 as [|a [|b [|c f1]]]; try discriminate H2.
  cbn [List.concat app] in Hcat. rewrite app_nil_r in Hcat.
  injection Hcat as -> -> ->.
  reflexivity.
Defined.

End PcmFacts.

(* ------------------------------------------------------------------ *)
(** ** llm/claude_api.py : the history over a conversation *)

Module ConversationFacts.

Import ClaudeAPI Conversation.

Lemma converse_snoc (history : list Message) (turns : list Turn) (t : Turn) :
  converse history (turns ++ [t])
  = fst (fst (query_stream (converse history turns) (fst t) (snd t))).
Proof. unfold converse. now rewrite fold_left_app. Qed.

(** The list sent to the API: the history and the new user message, or the
    last 50 entries of that. *)
Lemma append_user_suffix (history : list Message) (text : str) :
  suffix (append_user history text) (history ++ [(user, text)]) /\
  exists before, append_user history text = before ++ [(user, text)].
Proof.
  unfold append_user.
  destruct (Nat.ltb_spec MAX_HISTORY_TURNS
              (List.length (history ++ [(user, text)]))) as [H | H].
  - unfold last_n. rewrite length_app in *. cbn [List.length] in *.
    split.
    + eexists. symmetry. apply firstn_skipn.
    + rewrite skipn_app.
      replace (List.length history + 1 - MAX_HISTORY_TURNS
               - List.length history)%nat with 0%nat
        by (unfold MAX_HISTORY_TURNS in *; lia).
      cbn [skipn]. now eexists.
  - split; [now exists [] | now exists history].
Qed.

(** X16.  The conversation history of [ClaudeAPI] over any series of
    queries, completed or failed, from a history of at most 51 entries: it
    never holds more than 51 entries; the list sent to the API holds at most
    50, is the end of the history followed by the new user message, and ends
    with that message; a query whose stream fails leaves its user message in
    the history, so that the next list sent ends with two user messages in a
    row. *)
Theorem history_over_a_conversation (history : list Message)
  (turns : list Turn) :
  (List.length history <= S MAX_HISTORY_TURNS)%nat ->
  (List.length (converse history turns) <= S MAX_HISTORY_TURNS)%nat /\
  (forall text,
     let sent := append_user (converse history turns) text in
     (List.length sent <= MAX_HISTORY_TURNS)%nat /\
     suffix sent (converse history turns ++ [(user, text)]) /\
     exists before, sent = before ++ [(user, text)]) /\
  (forall text chunks e next,
     let left := converse history
                   (turns ++ [(text, (chunks, Some e))]) in
     left = append_user (converse history turns) text /\
     exists before,
       append_user left next = before ++ [(user, text); (user, next)]).
Proof.
  intros Hlen. split; [|split].
  - induction turns as [|t turns IH] using rev_ind; [exact Hlen|].
    rewrite converse_snoc. apply HistoryFacts.query_stream_bounded.
  - intros text. cbv zeta.
    split; [apply HistoryFacts.append_user_bounded|].
    apply append_user_suffix.
  - intros text chunks e next. cbv zeta. rewrite converse_snoc.
    cbn [fst snd query_stream]. split; [reflexivity|].
    set (sent := append_user (converse history turns) text).
    destruct (append_user_suffix (converse history turns) text)
      as [_ [before Hsent]]. fold sent in Hsent.
    pose proof (HistoryFacts.append_user_bounded (converse history turns)
                  text) as Hbound. fold sent in Hbound.
    unfold append_user at 1.
    destruct (Nat.ltb_spec MAX_HISTORY_TURNS
                (List.length (sent ++ [(user, next)]))) as [H | H].
    + unfold last_n. rewrite length_app in *. cbn [List.length] in *.
      rewrite Hsent in *. rewrite length_app in *. cbn [List.length] in *.
      rewrite <- !app_assoc. cbn [app]. rewrite skipn_app.
      replace (List.length before + 1 + 1 - MAX_HISTORY_TURNS
               - List.length before)%nat with 0%nat
        by (unfold MAX_HISTORY_TURNS in *; lia).
      cbn [skipn]. now eexists.
    + exists before. rewrite Hsent, <- app_assoc. reflexivity.
Qed.

Lemma history_over_a_conversation_witness :
  let failed := (py "first", ([py "Hel"], Some Props.boom)) in
  List.length (converse [] [failed]) = 1%nat /\
  append_user (converse [] [failed]) (py "second")
  = [(user, py "first"); (user, py "second")].
Proof.
  cbv zeta.
  destruct (history_over_a_conversation [] []) as (_ & _ & Hfailed);
    [cbn; lia|].
  destruct (Hfailed (py "first") [py "Hel"] Props.boom (py "second"))
    as [Hleft [before Hsent]].
  split; reflexivity.
Defined.

(** While no trim has happened, completed turns leave their exchanges. *)
Lemma completed_exchanges (turns : list Turn) :
  (2 * List.length turns <= MAX_HISTORY_TURNS)%nat ->
  Forall completed turns ->
  converse [] turns = flat_map exchange turns.
Proof.
  induction turns as [|t turns IH] using rev_ind; intros Hlen Hall;
    [reflexivity|].
  rewrite length_app in Hlen. cbn [List.length] in Hlen.
  apply Forall_app in Hall. destruct Hall as [Hall Ht].
  inversion Ht as [|? ? Hdone _]; subst.
  rewrite converse_snoc, IH by (assumption || lia).
  destruct t as [text [chunks error]]. unfold completed in Hdone.
  cbn [fst snd] in Hdone. subst error.
  rewrite flat_map_app. cbn [flat_map exchange fst snd query_stream].
  unfold append_user.
  assert (Hflat : List.length (flat_map exchange turns)
                  = (2 * List.length turns)%nat).
  { clear. induction turns as [|t turns IH]; [reflexivity|].
    cbn [flat_map exchange app List.length]. rewrite IH. lia. }
  replace (Nat.ltb MAX_HISTORY_TURNS
             (List.length (flat_map exchange turns ++ [(user, text)])))
    with false.
  - rewrite <- app_assoc, app_nil_r. reflexivity.
  - symmetry. apply Nat.ltb_ge. rewrite length_app, Hflat.
    cbn [List.length]. lia.
Qed.

(** X17.  After 25 completed queries from an empty history, the trim of the
    26th query drops the oldest user message alone: the list sent to the API
    holds 50 entries, ends with the new user message and starts with an
    assistant message, the reply to the first query. *)
Theorem trimmed_history_starts_with_assistant (first : Turn)
  (turns : list Turn) (text : str) :
  List.length (first :: turns) = 25%nat ->
  Forall completed (first :: turns) ->
  let sent := append_user (converse [] (first :: turns)) text in
  List.length sent = MAX_HISTORY_TURNS /\
  sent = (assistant, List.concat (fst (snd first)))
         :: flat_map exchange turns ++ [(user, text)].
Proof.
  intros Hlen Hall. cbv zeta.
  rewrite completed_exchanges by (unfold MAX_HISTORY_TURNS; lia || exact Hall).
  assert (Hflat : List.length (flat_map exchange turns) = 48%nat).
  { cbn [List.length] in Hlen.
    assert (H : forall l : list Turn,
               List.length (flat_map exchange l) = (2 * List.length l)%nat).
    { induction l as [|t l IH]; [reflexivity|].
      cbn [flat_map exchange app List.length]. rewrite IH. lia. }
    rewrite H. lia. }
  cbn [flat_map exchange app]. unfold append_user.
  replace (Nat.ltb MAX_HISTORY_TURNS _) with true.
  - unfold last_n. cbn [List.length app]. rewrite length_app, Hflat.
    cbn [List.length MAX_HISTORY_TURNS Nat.add Nat.sub skipn].
    split; [|reflexivity].
    cbn [List.length]. rewrite length_app, Hflat. reflexivity.
  - symmetry. apply Nat.ltb_lt. cbn [List.length app].
    rewrite length_app, Hflat. unfold MAX_HISTORY_TURNS. cbn. lia.
Qed.

Lemma trimmed_history_starts_with_assistant_witness :
  let turn := (py "hi", ([py "o"; py "k"], @None Exn)) in
  hd_error (append_user (converse [] (turn :: repeat turn 24)) (py "again"))
  = Some (assistant, py "ok").
Proof.
  cbv zeta.
  destruct (trimmed_history_starts_with_assistant
              (py "hi", ([py "o"; py "k"], None))
              (repeat (py "hi", ([py "o"; py "k"], None)) 24)
              (py "again")) as [_ Hsent].
  - reflexivity.
  - repeat constructor.
  - cbv zeta in Hsent. exact (f_equal (@hd_error Message) Hsent).
Defined.

End ConversationFacts.

(* ------------------------------------------------------------------ *)
(** ** core/pipeline.py : what a run logs and dispatches *)

Module StreamFacts.

Import Events Pipeline Streams.

Lemma basic_consume_app (m : Z) (first second : list str) :
  forall buffer,
    Chunker.consume m buffer (first ++ second) =
    (fst (Chunker.consume m buffer first)
     ++ fst (Chunker.consume m (snd (Chunker.consume m buffer first)) second),
     snd (Chunker.consume m (snd (Chunker.consume m buffer first)) second)).
Proof.
  induction first as [|token rest IH]; intros buffer;
    cbn [Chunker.consume app fst snd].
  - now destruct (Chunker.consume m buffer second).
  - destruct (Chunker.on_token m buffer token) as [buffer' y].
    rewrite IH.
    destruct (Chunker.consume m buffer' rest) as [zs b1]. cbn [fst snd].
    destruct (Chunker.consume m b1 second) as [ws b2]. cbn [fst snd].
    now destruct y.
Qed.

Section Orchestrated.

Variable chunker : Segmenter.
Variable chunker_observed : bool.
Variable tts_speak : nat -> str -> option Exn.
Variable gather_first : list Exn -> Exn.

Local Abbreviation run llm_query_stream :=
  (process_text llm_query_stream chunker chunker_observed tts_speak
     gather_first).

Lemma process_text_dispatched (llm : str -> list str * option Exn)
  (log0 : list Entry) (text : str) :
  dispatched (run llm log0 text)
  = map sentence_of
      (chunk_stream chunker (fst (llm text))
         (match snd (llm text) with None => true | Some _ => false end)).
Proof.
  unfold process_text, _process_text_query, on_exception.
  destruct (llm text) as [tokens [e|]]; cbn [fst snd result dispatched].
  - now destruct (exn_is_exception e).
  - destruct (failures tts_speak 0 _) as [|f fs]; cbn [result dispatched];
      [reflexivity|].
    now destruct (exn_is_exception (gather_first (f :: fs))).
Qed.

(** For an incremental segmenter, a token stream that fails part-way makes
    the run dispatch the beginning of what the whole stream would have had
    dispatched. *)
Lemma interrupted_prefix (llm_failing llm_whole : str -> list str * option Exn)
  (log0 : list Entry) (text : str) (tokens more : list str) (e : Exn) :
  incremental chunker ->
  llm_failing text = (tokens, Some e) ->
  llm_whole text = (tokens ++ more, None) ->
  Sentences.prefix (dispatched (run llm_failing log0 text))
                   (dispatched (run llm_whole log0 text)) /\
  result (run llm_failing log0 text) = Raised e.
Proof.
  intros Hinc Hfailing Hwhole. split.
  - rewrite !process_text_dispatched, Hfailing, Hwhole. cbn [fst snd].
    unfold chunk_stream. rewrite (Hinc [] tokens more).
    destruct (consume_tokens [] tokens) as [ys buffer]. cbn [fst snd].
    destruct (consume_tokens buffer more) as [zs final]. cbn [fst snd].
    rewrite app_nil_r, !map_app, map_map, <- app_assoc.
    eexists. rewrite map_map. reflexivity.
  - unfold process_text, _process_text_query, on_exception.
    rewrite Hfailing. cbn [result].
    now destruct (exn_is_exception e).
Qed.

(** X19.  What the orchestrator and the chunker themselves add to the log
    in one run of [process_text], with an observer whose listeners return.
    (A generator or a synthesiser that is given the same observer adds its
    own [LLM_*] and [TTS_*] events in between; the log of the model does not
    hold those.)  The start entry comes first; then [SENTENCE_READY]
    entries and nothing else, one for each sentence dispatched to synthesis
    and in the same order when the chunker has the observer, none otherwise;
    then exactly one closing entry, [PIPELINE_COMPLETE] when the run returns
    and [PIPELINE_ERROR] with the message and type name when it raises an
    [Exception] (nothing for a cancellation). *)
Theorem process_text_log_shape (llm : str -> list str * option Exn)
  (log0 : list Entry) (text : str) :
  exists emissions closing,
    log (run llm log0 text)
    = log0
      ++ (PIPELINE_START, [("text", VStr (take 100 text))]%string)
         :: announced chunker_observed emissions ++ closing /\
    dispatched (run llm log0 text) = map sentence_of emissions /\
    Forall (fun entry => fst entry = SENTENCE_READY)
           (announced chunker_observed emissions) /\
    closing
    = match result (run llm log0 text) with
      | Returned _ =>
          [(PIPELINE_COMPLETE, [("text", VStr (take 100 text))]%string)]
      | Raised e => if exn_is_exception e then [error_entry e] else []
      end.
Proof.
  exists (chunk_stream chunker (fst (llm text))
            (match snd (llm text) with None => true | Some _ => false end)).
  exists (match result (run llm log0 text) with
          | Returned _ =>
              [(PIPELINE_COMPLETE, [("text", VStr (take 100 text))]%string)]
          | Raised e => if exn_is_exception e then [error_entry e] else []
          end).
  split; [|split; [apply process_text_dispatched | split; [|reflexivity]]].
  - unfold process_text, _process_text_query, on_exception, announced.
    destruct (llm text) as [tokens [e|]]; cbn [fst snd result log].
    + destruct (exn_is_exception e) eqn:He; cbn [log result]; rewrite ?He;
        rewrite <- ?app_assoc; cbn [app]; try reflexivity.
      now rewrite app_nil_r.
    + destruct (failures tts_speak 0 _) as [|f fs]; cbn [result log].
      * now rewrite <- !app_assoc.
      * destruct (exn_is_exception (gather_first (f :: fs))) eqn:He;
          cbn [log result]; rewrite ?He;
          rewrite <- ?app_assoc; cbn [app]; try reflexivity.
        now rewrite app_nil_r.
  - unfold announced. destruct chunker_observed; [|constructor].
    apply Forall_map. apply Forall_forall. intros [s | s] _; reflexivity.
Qed.

End Orchestrated.

(** X18.  With either chunker, a token stream that fails part-way never
    makes the pipeline speak something the whole response would not have:
    the sentences dispatched to synthesis before the failure are the first
    of those dispatched when the stream goes on to its end, and the run
    raises the exception of the stream. *)
Theorem interrupted_stream_dispatches_a_prefix (m : Z) (observed : bool)
  (tts_speak : nat -> str -> option Exn) (gather_first : list Exn -> Exn)
  (llm_failing llm_whole : str -> list str * option Exn)
  (log0 : list Entry) (text : str) (tokens more : list str) (e : Exn) :
  llm_failing text = (tokens, Some e) ->
  llm_whole text = (tokens ++ more, None) ->
  (Sentences.prefix
     (dispatched (process_text llm_failing (fixed_chunker m) observed
                    tts_speak gather_first log0 text))
     (dispatched (process_text llm_whole (fixed_chunker m) observed
                    tts_speak gather_first log0 text)) /\
   result (process_text llm_failing (fixed_chunker m) observed
             tts_speak gather_first log0 text) = Raised e) /\
  (Sentences.prefix
     (dispatched (process_text llm_failing (basic_chunker m) observed
                    tts_speak gather_first log0 text))
     (dispatched (process_text llm_whole (basic_chunker m) observed
                    tts_speak gather_first log0 text)) /\
   result (process_text llm_failing (basic_chunker m) observed
             tts_speak gather_first log0 text) = Raised e).
Proof.
  intros Hfailing Hwhole. split.
  - apply (interrupted_prefix (fixed_chunker m)) with (tokens := tokens)
      (more := more); try assumption.
    intros buffer first second. apply ChunkerFixedMore.consume_app.
  - apply (interrupted_prefix (basic_chunker m)) with (tokens := tokens)
      (more := more); try assumption.
    intros buffer first second. apply basic_consume_app.
Qed.

Lemma interrupted_stream_dispatches_a_prefix_witness :
  let tokens := map py ["Hello there! "; "How are"]%string in
  let more := map py [" you today? "; "Fine"]%string in
  let failing := fun _ : str => (tokens, Some Props.boom) in
  let whole := fun _ : str => (tokens ++ more, @None Exn) in
  let quiet := fun (_ : nat) (_ : str) => @None Exn in
  let first := fun _ : list Exn => Props.boom in
  dispatched (process_text failing (fixed_chunker 10) true quiet first []
                (py "hi"))
  = [py "Hello there!"] /\
  Sentences.prefix
    [py "Hello there!"]
    (dispatched (process_text whole (fixed_chunker 10) true quiet first []
                   (py "hi"))).
Proof.
  cbv zeta.
  destruct (interrupted_stream_dispatches_a_prefix 10 true
              (fun _ _ => None) (fun _ => Props.boom)
              (fun _ => (map py ["Hello there! "; "How are"]%string,
                         Some Props.boom))
              (fun _ => (map py ["Hello there! "; "How are"]%string
                         ++ map py [" you today? "; "Fine"]%string, None))
              [] (py "hi")
              (map py ["Hello there! "; "How are"]%string)
              (map py [" you today? "; "Fine"]%string) Props.boom
              eq_refl eq_refl) as [[Hprefix _] _].
  split; [vm_compute; reflexivity|].
  exact Hprefix.
Defined.

End StreamFacts.

(* ------------------------------------------------------------------ *)
(** ** core/events.py : string kinds, filtering, latencies *)

Module LatencyFacts.

Import Events Latency.

Lemma EventType_eqb_eq (a b : EventType) :
  EventType_eqb a b = true <-> a = b.
Proof.
  split.
  - destruct a, b; (reflexivity || discriminate).
  - intros <-. now destruct a.
Qed.

Lemma by_value_members (kind : string) (member : EventType) :
  by_value members kind = Some member -> kind = value member.
Proof.
  unfold members. cbn [by_value].
  repeat match goal with
         | |- context [String.eqb ?v kind] =>
             destruct (String.eqb_spec v kind) as [<- | _];
             [intros H; injection H as <-; reflexivity|]
         end.
  discriminate.
Qed.

(** X20.  Kinds given as strings and what is found by type.  [emit] with
    the value string of a member does what [emit] with the member does, and
    a string is accepted only if it is the value of a member: any other
    string leaves the observer as it was, calls no listener and raises the
    [ValueError] whose message is the [repr] of the string followed by
    [" is not a valid EventType"].  The event recorded is then found by
    [get_events_by_type] under its own type, after the events that were
    there, and under no other type. *)
Theorem emit_kinds_and_types (now : Q) (o : InMemoryEventObserver)
  (payload : option Payload) :
  (forall member,
     emit now o (inr (value member)) payload
     = emit now o (inl member) payload) /\
  (forall kind,
     (exists member, kind = value member) \/
     emit now o (inr kind) payload
     = mkEmitted o [] (Some (invalid_event_type kind))) /\
  (forall member,
     get_events_by_type (observer_after (emit now o (inl member) payload))
                        member
     = get_events_by_type o member ++ [event_of now member payload]) /\
  (forall member other,
     member <> other ->
     get_events_by_type (observer_after (emit now o (inl member) payload))
                        other
     = get_events_by_type o other).
Proof.
  assert (Hafter : forall member,
            events (observer_after (emit now o (inl member) payload))
            = events o ++ [event_of now member payload]).
  { intros member. cbn [emit]. unfold record_and_notify.
    now destruct (notify 0 (_callbacks o) _). }
  split; [|split; [|split]].
  - intros member. now destruct member.
  - intros kind. cbn [emit].
    destruct (by_value members kind) as [member|] eqn:E.
    + left. exists member. now apply by_value_members.
    + now right.
  - intros member. unfold get_events_by_type. rewrite Hafter, filter_app.
    cbn [filter event_of event_type].
    now rewrite (proj2 (EventType_eqb_eq member member) eq_refl).
  - intros member other Hne. unfold get_events_by_type.
    rewrite Hafter, filter_app. cbn [filter event_of event_type].
    destruct (EventType_eqb member other) eqn:E.
    + apply EventType_eqb_eq in E. contradiction.
    + apply app_nil_r.
Qed.

(** The message of the rejection quotes the string as [repr] does: with
    double quotes when it holds an apostrophe. *)
Lemma emit_kinds_and_types_witness :
  get_events_by_type
    (observer_after (emit 7 new_observer (inl TTS_START) None)) TTS_COMPLETE
  = [] /\
  raised (emit 7 new_observer (inr "tts_begin"%string) None)
  = Some (mkExn (py "ValueError")
                (py "'tts_begin' is not a valid EventType") true) /\
  raised (emit 7 new_observer (inr "it's"%string) None)
  = Some (mkExn (py "ValueError")
                (QUOTATION_MARK :: py "it's" ++ QUOTATION_MARK
                 :: py " is not a valid EventType") true).
Proof.
  destruct (emit_kinds_and_types 7 new_observer None)
    as (_ & Hkind & _ & H).
  split; [rewrite (H TTS_START TTS_COMPLETE); [reflexivity | discriminate]|].
  split.
  - destruct (Hkind "tts_begin"%string) as [[member Hmember] | ->];
      [destruct member; discriminate Hmember | reflexivity].
  - destruct (Hkind "it's"%string) as [[member Hmember] | ->];
      [destruct member; discriminate Hmember | reflexivity].
Defined.

Lemma last_timestamp_snoc (before : list PipelineEvent) (e : PipelineEvent) :
  last_timestamp (before ++ [e]) = timestamp e.
Proof. unfold last_timestamp. now rewrite rev_app_distr. Qed.

Lemma stage_reported (o : InMemoryEventObserver) (name : string)
  (start_type end_type : EventType) (starts ends : list PipelineEvent)
  (s e : PipelineEvent) :
  get_events_by_type o start_type = starts ++ [s] ->
  get_events_by_type o end_type = ends ++ [e] ->
  stage o (name, start_type, end_type)
  = [(name, (timestamp e - timestamp s) * 1000)].
Proof.
  intros Hs He. unfold stage. rewrite Hs, He, !last_timestamp_snoc.
  destruct starts, ends; reflexivity.
Qed.

Lemma stage_names (o : InMemoryEventObserver)
  (pair : string * EventType * EventType) (name : string) :
  In name (map fst (stage o pair)) ->
  name = fst (fst pair) /\
  get_events_by_type o (snd (fst pair)) <> [] /\
  get_events_by_type o (snd pair) <> [].
Proof.
  destruct pair as [[n st] en]. unfold stage. cbn [fst snd].
  destruct (get_events_by_type o st), (get_events_by_type o en);
    cbn [map fst In]; try contradiction.
  intros [<- | []]. repeat split; discriminate.
Qed.

(** X21.  [get_latency_breakdown] reports a stage exactly when events of
    both its types are recorded, and then as 1000 times the difference of
    the timestamps of the most recent event of each type, whichever of the
    two came first in the log: a start recorded after the last end gives a
    latency that is not positive.  There are at most five entries. *)
Theorem latency_breakdown_uses_latest_events (o : InMemoryEventObserver)
  (name : string) (start_type end_type : EventType) :
  In (name, start_type, end_type) pairs ->
  (forall starts s ends e,
     get_events_by_type o start_type = starts ++ [s] ->
     get_events_by_type o end_type = ends ++ [e] ->
     In (name, (timestamp e - timestamp s) * 1000)
        (get_latency_breakdown o) /\
     (timestamp e <= timestamp s ->
      (timestamp e - timestamp s) * 1000 <= 0)) /\
  (In name (map fst (get_latency_breakdown o)) ->
   get_events_by_type o start_type <> [] /\
   get_events_by_type o end_type <> []) /\
  (List.length (get_latency_breakdown o) <= 5)%nat.
Proof.
  intros Hin. split; [|split].
  - intros starts s ends e Hs He. split; [|intros Hle; nra].
    unfold get_latency_breakdown. apply in_flat_map.
    exists (name, start_type, end_type). split; [exact Hin|].
    rewrite (stage_reported o name start_type end_type starts ends s e Hs He).
    now left.
  - intros Hname. unfold get_latency_breakdown in Hname.
    rewrite flat_map_concat_map, concat_map, map_map in Hname.
    apply in_concat in Hname. destruct Hname as (names & Hnames & Hn).
    apply in_map_iff in Hnames. destruct Hnames as (pair & <- & Hpair).
    destruct (stage_names o pair name Hn) as (Heq & Hs & He).
    assert (Hsame : pair = (name, start_type, end_type)).
    { unfold pairs in Hin, Hpair. cbn [In] in Hin, Hpair.
      repeat match goal with
             | H : _ \/ _ |- _ => destruct H as [H | H]
             | H : False |- _ => destruct H
             end; subst pair; cbn [fst snd] in Heq;
        try discriminate Heq; try reflexivity; inversion Hin; subst;
        try reflexivity; discriminate. }
    subst pair. split; assumption.
  - unfold get_latency_breakdown, pairs. cbn [flat_map].
    rewrite !length_app. cbn [List.length].
    assert (H : forall pair, (List.length (stage o pair) <= 1)%nat).
    { intros [[n st] en]. unfold stage.
      destruct (get_events_by_type o st), (get_events_by_type o en);
        cbn [List.length]; lia. }
    pose proof (H ("stt", STT_START, STT_COMPLETE)%string).
    pose proof (H ("llm_first_token", LLM_QUERY_START,
                   LLM_TOKEN_RECEIVED)%string).
    pose proof (H ("llm_total", LLM_QUERY_START, LLM_COMPLETE)%string).
    pose proof (H ("tts", TTS_START, TTS_COMPLETE)%string).
    pose proof (H ("pipeline_total", PIPELINE_START,
                   PIPELINE_COMPLETE)%string).
    lia.
Qed.

(** A second transcription has started and not finished: the breakdown
    pairs its start with the end of the first one. *)
Lemma latency_breakdown_uses_latest_events_witness :
  let o := mkObserver [mkEvent 1 STT_START []; mkEvent 2 STT_COMPLETE [];
                       mkEvent 5 STT_START []] [] in
  In ("stt"%string, (2 - 5) * 1000) (get_latency_breakdown o) /\
  (2 - 5) * 1000 <= 0.
Proof.
  cbv zeta.
  destruct (latency_breakdown_uses_latest_events
              (mkObserver [mkEvent 1 STT_START []; mkEvent 2 STT_COMPLETE [];
                           mkEvent 5 STT_START []] [])
              "stt"%string STT_START STT_COMPLETE) as (Hlast & _ & _).
  - now left.
  - destruct (Hlast [mkEvent 1 STT_START []] (mkEvent 5 STT_START [])
                [] (mkEvent 2 STT_COMPLETE []) eq_refl eq_refl)
      as [Hin Hneg].
    split; [exact Hin|]. apply Hneg. discriminate.
Defined.

End LatencyFacts.

(* ------------------------------------------------------------------ *)
(** ** stt/whisper.py : the limiter and the retries of [WhisperSTT] *)

Module WhisperFacts.

Import Retry RetryTrace Whisper.

(** X24.  The limiter [WhisperSTT] builds never grants a token when the
    rate is the default 50 requests a minute (no rate given, or zero) or any
    rate below one a second: its bucket has size [int(rate) = 0], so the
    [acquire()] that [transcribe] awaits before calling the API does not
    return, however long the clock runs. *)
Theorem default_limiter_never_grants (rate_limit_per_second : option Q)
  (created now : Q) (lag : nat -> Q) (fuel : nat) :
  (rate_limit_per_second = None \/
   exists r, rate_limit_per_second = Some r /\ 0 <= r /\ r < 1) ->
  RateLimiter.bucket_size (rate_limiter rate_limit_per_second created) = 0%Z /\
  RateLimiter.acquire fuel lag 0 (rate_limiter rate_limit_per_second created)
                      now 1
  = None.
Proof.
  intros Hrate.
  assert (Hr : 0 < rate_of rate_limit_per_second /\
               rate_of rate_limit_per_second < 1).
  { destruct Hrate as [-> | (r & -> & H0 & H1)]; [split; reflexivity|].
    unfold rate_of. destruct (Qeq_bool r 0) eqn:E; [split; reflexivity|].
    apply Qeq_bool_neq in E. split; [|exact H1].
    destruct (Qle_lt_or_eq _ _ H0) as [H | H]; [exact H|].
    exfalso. apply E. now symmetry. }
  destruct Hr as [Hpos Hone].
  assert (Hsize : RateLimiter.bucket_size
                    (rate_limiter rate_limit_per_second created) = 0%Z).
  { unfold rate_limiter, RateLimiter.new. cbn [RateLimiter.bucket_size].
    destruct (PcmFacts.py_int_nonneg (rate_of rate_limit_per_second)
                (Qlt_le_weak _ _ Hpos)) as (H0 & Hle & Hlt).
    assert (Hup : inject_Z (RateLimiter.py_int (rate_of rate_limit_per_second))
                  < inject_Z 1)
      by (change (inject_Z 1) with 1; lra).
    rewrite <- Zlt_Qlt in Hup. lia. }
  split; [exact Hsize|].
  apply RateLimiterFacts.never_acquires.
  - exact Hpos.
  - rewrite Hsize. lia.
Qed.

Lemma default_limiter_never_grants_witness :
  RateLimiter.acquire 1000 (fun _ => 0) 0 (rate_limiter None 0) 3600 1 = None.
Proof.
  apply (default_limiter_never_grants None 0 3600 (fun _ => 0) 1000).
  now left.
Defined.

Section ApiCall.

Variable foreign_mro : str -> list string.
Variable str_of_float : Q -> string.

Local Abbreviation instance_of := (isinstance foreign_mro).
Local Abbreviation api_call := (_transcribe_api_call foreign_mro str_of_float).
Local Abbreviation can_retry := (retryable foreign_mro).

(** The wrappers are of classes of audio/exceptions.py: not client errors,
    not timeouts, not rate limits. *)
Lemma wrappers_not_retryable (message : str) (timeout_seconds : Q) :
  can_retry (api_error message) = false /\
  can_retry (timeout_error str_of_float timeout_seconds) = false /\
  can_retry authentication_error = false.
Proof. repeat split. Qed.

(** The first step of an iteration of the loop is the invocation. *)
Lemma attempt_starts_with_call (config : RetryConfig) (random : Z -> Q)
  (timeout_seconds : Q) (exchanges : nat -> Exchange) (remaining : nat)
  (attempt : Z) (last_exception : option Exn) (n : nat) :
  hd_error
    (trace
       (attempts
          (fun n => (api_call timeout_seconds (exchanges n), S n))
          (Returned (py "_transcribe_api_call")) (fun _ => None)
          can_retry (Some (fun _ _ => None)) random config (S remaining)
          attempt last_exception n))
  = Some (Invoked (api_call timeout_seconds (exchanges n))).
Proof.
  rewrite RetryFacts.attempts_unfold.
  destruct (api_call timeout_seconds (exchanges n)) as [text | e];
    [reflexivity|].
  destruct (can_retry e); [|reflexivity].
  destruct (attempt =? max_attempts config - 1)%Z; [reflexivity|].
  destruct (get_delay_ms config (random attempt) attempt); reflexivity.
Qed.


End ApiCall.


End WhisperFacts.
